(** * Spyglass symbol table: a shallow embedding of [SymbolUtil.ts]

    The development follows [packages/core/src/symbol/SymbolUtil.ts].

    JavaScript objects are shared and mutated in place, so the embedding keeps
    an explicit object store:

    - a [Symbol] object is a cell of the store ([Heap]), named by its address;
      [relations.aliasOf] holds such an address, and the alias-counting event
      handlers mutate the cell they are handed, wherever it is stored;
    - the ownership structure (tables, symbol maps, the [members] map owned by
      a symbol) is a tree whose leaves are addresses ([SymbolMap]); a symbol's
      [members] field is kept in that tree, next to the address of its owner;
    - a [SymbolMap] or [SymbolTable] lists its entries in [Object.keys] order
      (insertion order for the identifier-like keys used here), because
      [trimMap] and [removeLocationsFromMap] visit and mutate in that order;
    - the per-document stacks are arrays with an identity ([StackRef]), since
      [block] keeps a reference to the array across the callback.

    The query façade ([SymbolQuery]) is embedded after [SymbolUtil] itself,
    over references to the maps of this tree: its [enter] and [amend] resolve
    the map and hand it to [enterMap], which is where a symbol is created or
    amended. *)

From Stdlib Require Import ZArith Lia.
From stdpp Require Import base option list strings gmap.

Local Open Scope string_scope.
Local Open Scope list_scope.

(** ** Data model (Symbol.ts) *)

(** Modelled from the spec: the enum [SymbolVisibility] of Symbol.ts (§3:
    "one of Block/File/Restricted/Public; absent = Public"). *)
Inductive SymbolVisibility := Block | File | Public | Restricted.

(** Modelled from the spec: the union [SymbolUsageType] of Symbol.ts (§3:
    "declaration, definition, implementation, reference, typeDefinition"). *)
Inductive SymbolUsageType :=
  UDeclaration | UDefinition | UImplementation | UReference | UTypeDefinition.

(** Modelled from the spec: the constant [SymbolUsageTypes] of Symbol.ts, the
    usage kinds in the order §3 lists them. *)
Definition SymbolUsageTypes : list SymbolUsageType :=
  [UDeclaration; UDefinition; UImplementation; UReference; UTypeDefinition].

#[global] Instance SymbolVisibility_eq_dec : EqDecision SymbolVisibility.
Proof. solve_decision. Defined.
#[global] Instance SymbolUsageType_eq_dec : EqDecision SymbolUsageType.
Proof. solve_decision. Defined.

(** A half-open offset range [[start, end)]. *)
Definition Range : Type := nat * nat.

(** Modelled from the spec: the interface [SymbolLocation] of Symbol.ts (§3).
    The position ranges derived from the document text are not represented. *)
Record SymbolLocation := mkLocation {
  uri : string;
  range : option Range;
  fullRange : option Range;
  isUriBound : bool;
  accessType : option nat;
  fromDefaultLibrary : option bool;
}.

(** Addresses of [Symbol] objects in the store. *)
Abbreviation addr := nat (only parsing).

(** Modelled from the spec: the interface [Symbol] of Symbol.ts (§3), with
    the fields [SymbolUtil] reads and writes, [members] apart (it is kept in
    the [SymbolMap] that holds the symbol).  [relations] is a JavaScript
    object from relationship names to symbols; [aliasAmount] is a JavaScript
    number that the code only increments and decrements. *)
Record Symbol := mkSymbol {
  category : string;
  identifier : string;
  desc : option string;
  subcategory : option string;
  visibility : option SymbolVisibility;
  visibilityRestriction : option (list string);
  relations : option (list (string * addr));
  aliasAmount : option Z;
  declaration : option (list SymbolLocation);
  definition : option (list SymbolLocation);
  implementation : option (list SymbolLocation);
  reference : option (list SymbolLocation);
  typeDefinition : option (list SymbolLocation);
}.

(** A [SymbolMap]: identifier, symbol object, the symbol's [members] map
    ([None] when the property is absent), then the remaining entries. *)
#[local] Unset Elimination Schemes.
Inductive SymbolMap : Type :=
| map_empty
| map_entry (id : string) (symbol : addr) (members : option SymbolMap)
            (rest : SymbolMap).
#[local] Set Elimination Schemes.

(** Induction over a map, its members maps and its remaining entries. *)
Fixpoint SymbolMap_tree_ind (P : SymbolMap -> Prop)
  (Hempty : P map_empty)
  (Hleaf : forall id a rest, P rest -> P (map_entry id a None rest))
  (Hnode : forall id a mm rest,
      P mm -> P rest -> P (map_entry id a (Some mm) rest))
  (m : SymbolMap) : P m :=
  match m with
  | map_empty => Hempty
  | map_entry id a None rest =>
      Hleaf id a rest (SymbolMap_tree_ind P Hempty Hleaf Hnode rest)
  | map_entry id a (Some mm) rest =>
      Hnode id a mm rest (SymbolMap_tree_ind P Hempty Hleaf Hnode mm)
        (SymbolMap_tree_ind P Hempty Hleaf Hnode rest)
  end.

(** A [SymbolTable] maps categories to symbol maps. *)
Abbreviation SymbolTable := (list (string * SymbolMap)).

(** [SymbolStack]: frame 0 is the file scope, later frames are blocks. *)
Abbreviation SymbolStack := (list SymbolTable).

(** The object store: the address of a symbol is its index. *)
Abbreviation Heap := (list Symbol).

(** *** JavaScript objects used as ordered dictionaries *)

Section Dict.
Context {V : Type}.

(** [o[k]] *)
Fixpoint dictGet (o : list (string * V)) (k : string) : option V :=
  match o with
  | [] => None
  | (k', v) :: o' => if decide (k' = k) then Some v else dictGet o' k
  end.

(** [o[k] = v]: an existing key keeps its place, a new key goes last. *)
Fixpoint dictSet (o : list (string * V)) (k : string) (v : V)
  : list (string * V) :=
  match o with
  | [] => [(k, v)]
  | (k', v') :: o' =>
      if decide (k' = k) then (k', v) :: o' else (k', v') :: dictSet o' k v
  end.

(** [delete o[k]] *)
Fixpoint dictDelete (o : list (string * V)) (k : string)
  : list (string * V) :=
  match o with
  | [] => []
  | (k', v') :: o' =>
      if decide (k' = k) then o' else (k', v') :: dictDelete o' k
  end.
End Dict.

(** [map[identifier]]: the symbol stored under [identifier] and its members. *)
Fixpoint mapGet (m : SymbolMap) (k : string)
  : option (addr * option SymbolMap) :=
  match m with
  | map_empty => None
  | map_entry k' a mem rest =>
      if decide (k' = k) then Some (a, mem) else mapGet rest k
  end.

(** [map[identifier] = symbol] for a symbol that has no members yet. *)
Fixpoint mapSet (m : SymbolMap) (k : string) (a : addr) : SymbolMap :=
  match m with
  | map_empty => map_entry k a None map_empty
  | map_entry k' a' mem rest =>
      if decide (k' = k) then map_entry k' a mem rest
      else map_entry k' a' mem (mapSet rest k a)
  end.

(** [Object.keys(map).length === 0] *)
Definition mapIsEmpty (m : SymbolMap) : bool :=
  match m with map_empty => true | _ => false end.

(** Every symbol object reachable from a map, members included. *)
Fixpoint mapSymbols (m : SymbolMap) : list addr :=
  match m with
  | map_empty => []
  | map_entry _ a mem rest =>
      a :: match mem with Some mm => mapSymbols mm | None => [] end
        ++ mapSymbols rest
  end.

Definition tableSymbols (t : SymbolTable) : list addr :=
  concat (map (fun e => mapSymbols (snd e)) t).

(** *** Field updates of a symbol object *)

Definition set_desc (v : option string) (s : Symbol) : Symbol :=
  mkSymbol (category s) (identifier s) v (subcategory s) (visibility s)
    (visibilityRestriction s) (relations s) (aliasAmount s) (declaration s)
    (definition s) (implementation s) (reference s) (typeDefinition s).

Definition set_subcategory (v : option string) (s : Symbol) : Symbol :=
  mkSymbol (category s) (identifier s) (desc s) v (visibility s)
    (visibilityRestriction s) (relations s) (aliasAmount s) (declaration s)
    (definition s) (implementation s) (reference s) (typeDefinition s).

Definition set_visibility (v : option SymbolVisibility) (s : Symbol) : Symbol :=
  mkSymbol (category s) (identifier s) (desc s) (subcategory s) v
    (visibilityRestriction s) (relations s) (aliasAmount s) (declaration s)
    (definition s) (implementation s) (reference s) (typeDefinition s).

Definition set_visibilityRestriction (v : option (list string)) (s : Symbol)
  : Symbol :=
  mkSymbol (category s) (identifier s) (desc s) (subcategory s) (visibility s)
    v (relations s) (aliasAmount s) (declaration s)
    (definition s) (implementation s) (reference s) (typeDefinition s).

Definition set_relations (v : option (list (string * addr))) (s : Symbol)
  : Symbol :=
  mkSymbol (category s) (identifier s) (desc s) (subcategory s) (visibility s)
    (visibilityRestriction s) v (aliasAmount s) (declaration s)
    (definition s) (implementation s) (reference s) (typeDefinition s).

Definition set_aliasAmount (v : option Z) (s : Symbol) : Symbol :=
  mkSymbol (category s) (identifier s) (desc s) (subcategory s) (visibility s)
    (visibilityRestriction s) (relations s) v (declaration s)
    (definition s) (implementation s) (reference s) (typeDefinition s).

(** [symbol[type]] *)
Definition usageGet (t : SymbolUsageType) (s : Symbol)
  : option (list SymbolLocation) :=
  match t with
  | UDeclaration => declaration s
  | UDefinition => definition s
  | UImplementation => implementation s
  | UReference => reference s
  | UTypeDefinition => typeDefinition s
  end.

(** [symbol[type] = v] *)
Definition usageSet (t : SymbolUsageType) (v : option (list SymbolLocation))
  (s : Symbol) : Symbol :=
  mkSymbol (category s) (identifier s) (desc s) (subcategory s) (visibility s)
    (visibilityRestriction s) (relations s) (aliasAmount s)
    (if decide (t = UDeclaration) then v else declaration s)
    (if decide (t = UDefinition) then v else definition s)
    (if decide (t = UImplementation) then v else implementation s)
    (if decide (t = UReference) then v else reference s)
    (if decide (t = UTypeDefinition) then v else typeDefinition s).

(** [symbol.relations?.aliasOf] *)
Definition aliasOf (s : Symbol) : option addr :=
  relations s ≫= fun r => dictGet r "aliasOf".

(** [symbol.relations?.aliasOf] read through a reference. *)
Definition aliasOfAt (h : Heap) (a : addr) : option addr :=
  h !! a ≫= aliasOf.

(** ** Aliases *)

(** [SymbolUtil.resolveAlias]: the source recurses along [aliasOf] without any
    bound; [fuel] bounds the depth of the recursion, and [None] is a recursion
    that has not returned within it. *)
Fixpoint resolveAlias (fuel : nat) (h : Heap) (symbol : addr) : option addr :=
  match fuel with
  | O => None
  | S fuel' =>
      match aliasOfAt h symbol with
      | Some target => resolveAlias fuel' h target
      | None => Some symbol
      end
  end.

(** The symbol reached from [a] after following [n] alias links. *)
Fixpoint followAlias (h : Heap) (n : nat) (a : addr) : option addr :=
  match n with
  | O => Some a
  | S n' => aliasOfAt h a ≫= followAlias h n'
  end.

(** [aliasLink h t s]: [s] is an alias of [t]. *)
Definition aliasLink (h : Heap) (t s : addr) : Prop := aliasOfAt h s = Some t.

(** A chain of alias links that is finite and acyclic: no infinite sequence
    of links starts at the symbol. *)
Definition aliasChainFinite (h : Heap) (s : addr) : Prop := Acc (aliasLink h) s.

(** [t] ends the chain of [s]: it is reached by alias links and is not itself
    an alias. *)
Definition aliasFixedPoint (h : Heap) (s t : addr) : Prop :=
  (exists n, followAlias h n s = Some t) /\ aliasOfAt h t = None.

(** [s] lies on an alias cycle (a self alias when [n = 0]). *)
Definition aliasCycle (h : Heap) (s : addr) : Prop :=
  exists n, followAlias h (S n) s = Some s.

(** ** Events (EventPublisher.ts) and the alias counters *)

(** The events of [SymbolUtil].  A [SymbolEvent] carries the path and the
    symbol (its [map] is left out: no subscriber here reads it); the alias
    events carry the target first. *)
Inductive Event :=
| symbolCreated (path : list string) (symbol : addr)
| symbolAmended (path : list string) (symbol : addr)
| symbolRemoved (path : list string) (symbol : addr)
| symbolAliasCreated (target : addr) (path : list string) (alias : addr)
| symbolAliasRemoved (target : addr) (path : list string) (alias : addr)
| symbolLocationCreated (path : list string) (symbol : addr)
    (type : SymbolUsageType) (location : SymbolLocation)
| symbolLocationRemoved (path : list string) (symbol : addr)
    (type : SymbolUsageType) (location : SymbolLocation).

(** The object store and the events published so far, oldest first. *)
Record Store := mkStore { heap : Heap; published : list Event }.

(** [symbol.f = ...] through a reference. *)
Definition modifySymbol (a : addr) (f : Symbol -> Symbol) (st : Store) : Store :=
  mkStore (alter f a (heap st)) (published st).

(** The subscriber of ['symbolAliasCreated'] installed by the constructor:
    [target.aliasAmount ??= 0; target.aliasAmount++]. *)
Definition onSymbolAliasCreated (target : addr) : Store -> Store :=
  modifySymbol target
    (fun s => set_aliasAmount (Some (default 0 (aliasAmount s) + 1)%Z) s).

(** [if (x.aliasAmount !== undefined) x.aliasAmount--], the statement of
    the subscriber of ['symbolAliasRemoved'] and of [trimMap]. *)
Definition decrementAliasAmount (s : Symbol) : Symbol :=
  match aliasAmount s with
  | Some n => set_aliasAmount (Some (n - 1)%Z) s
  | None => s
  end.

(** The subscriber of ['symbolAliasRemoved'] installed by the constructor. *)
Definition onSymbolAliasRemoved (target : addr) : Store -> Store :=
  modifySymbol target decrementAliasAmount.

(** The event joins the published ones. *)
Definition publish (e : Event) (st : Store) : Store :=
  mkStore (heap st) (published st ++ [e]).

(** Modelled from the spec: [EventPublisherImpl.trigger] of EventPublisher.ts
    (§2: "an in-process pub/sub channel", with alias counting "implemented as
    a subscriber"): the event is published and handed to the subscribers
    before [trigger] returns.  The only subscribers are the three the
    constructor of [SymbolUtil] installs; the one of ['symbolRemoved']
    triggers ['symbolAliasRemoved'] when the removed symbol is an alias. *)
Definition trigger (e : Event) (st : Store) : Store :=
  let st := publish e st in
  match e with
  | symbolRemoved path symbol =>
      match aliasOfAt (heap st) symbol with
      | Some target =>
          onSymbolAliasRemoved target
            (publish (symbolAliasRemoved target path symbol) st)
      | None => st
      end
  | symbolAliasCreated target _ _ => onSymbolAliasCreated target st
  | symbolAliasRemoved target _ _ => onSymbolAliasRemoved target st
  | _ => st
  end.

(** ** Errors and completions *)

(** The errors thrown by [SymbolUtil], and values thrown by callbacks. *)
Inductive Error :=
| CannotChangeVisibility (from : option SymbolVisibility) (to : SymbolVisibility)
| UnableToPopBlock
| Thrown (value : string).

(** How a call completes: it returns or it throws.  Mutations made before a
    throw stay in the state. *)
Inductive Completion (A : Type) :=
| Normal (a : A)
| Throw (e : Error).
Arguments Normal {A} a.
Arguments Throw {A} e.

(** ** Entering symbols *)

(** A [TextDocument]; only its URI is read here. *)
Module TextDocument.
Record t := mk { uri : string }.
End TextDocument.

(** [SymbolAddition['data']]: the metadata an [enter] may carry, that is
    [SymbolMetadata] without [category], [identifier] and [members]. *)
Module Data.
Record t := mk {
  desc : option string;
  relations : option (list (string * addr));
  subcategory : option string;
  visibility : option SymbolVisibility;
  visibilityRestriction : option (list string);
}.
End Data.

(** [SymbolAddition['usage']].  A usage given by a node contributes the range
    of the node. *)
Module Usage.
Record t := mk {
  type : option SymbolUsageType;
  range : option Range;
  fullRange : option Range;
  accessType : option nat;
  fromDefaultLibrary : option bool;
}.
End Usage.

Record SymbolAddition := mkAddition {
  data : option Data.t;
  usage : option Usage.t;
}.

(** Modelled from the spec: [SymbolLocation.create] of Symbol.ts (§3: "the
    document URI, an optional text range and optional full range, a boolean
    isUriBound flag, and metadata"). *)
Definition SymbolLocation_create (doc : TextDocument.t) (r : Range)
  (full : option Range) (isUriBinding : bool)
  (access : option nat) (fromDefault : option bool) : SymbolLocation :=
  mkLocation (TextDocument.uri doc) (Some r) full isUriBinding access fromDefault.

(** The location [amendSymbolUsage] records: the range falls back to
    [[0, 0)], and the ranges are deleted when the URI of the document is not
    of the [file:] scheme. *)
Definition usageLocation (addition : Usage.t) (doc : TextDocument.t)
  (isUriBinding : bool) : SymbolLocation :=
  let r := default (0, 0) (Usage.range addition) in
  let location :=
    SymbolLocation_create doc r (Usage.fullRange addition) isUriBinding
      (Usage.accessType addition) (Usage.fromDefaultLibrary addition) in
  if String.prefix "file:" (TextDocument.uri doc) then location
  else mkLocation (uri location) None None (isUriBound location)
         (accessType location) (fromDefaultLibrary location).

(** [addition.type ?? 'reference'] *)
Definition usageType (addition : Usage.t) : SymbolUsageType :=
  default UReference (Usage.type addition).

(** [amendSymbolUsage] *)
Definition amendSymbolUsage (path : list string) (symbol : addr)
  (addition : option Usage.t) (doc : TextDocument.t) (isUriBinding : bool)
  (st : Store) : Store :=
  match addition with
  | Some u =>
      let type := usageType u in
      let location := usageLocation u doc isUriBinding in
      let st :=
        modifySymbol symbol
          (fun s => usageSet type
                      (Some (default [] (usageGet type s) ++ [location])) s)
          st in
      trigger (symbolLocationCreated path symbol type location) st
  | None => st
  end.

(** The body of the loop over [Object.keys(addition.relations)]. *)
Definition amendRelation (path : list string) (symbol : addr)
  (st : Store) (rel : string * addr) : Store :=
  let '(relationship, target) := rel in
  let st :=
    if decide (relationship = "aliasOf") then
      let old := aliasOfAt (heap st) symbol in
      if decide (old = Some target) then st
      else
        let st :=
          match old with
          | Some oldTarget => trigger (symbolAliasRemoved oldTarget path symbol) st
          | None => st
          end in
        trigger (symbolAliasCreated target path symbol) st
    else st in
  modifySymbol symbol
    (fun s => set_relations
                (Some (dictSet (default [] (relations s)) relationship target)) s)
    st.

(** [inGlobalTable] of [amendSymbolMetadata] *)
Definition inGlobalTable (v : option SymbolVisibility) : bool :=
  match v with
  | None | Some Public | Some Restricted => true
  | Some Block | Some File => false
  end.

(** The storage tiers a symbol can live in: the innermost frame of the stack
    of the acting document, frame 0 of that stack, or the global table. *)
Inductive StorageTier := InnermostFrame | FileFrame | GlobalTable.

#[global] Instance StorageTier_eq_dec : EqDecision StorageTier.
Proof. solve_decision. Defined.

(** The tier [getTable] selects for a visibility. *)
Definition storageTier (visibility : option SymbolVisibility) : StorageTier :=
  match visibility with
  | Some Block => InnermostFrame
  | Some File => FileFrame
  | Some Public | Some Restricted | None => GlobalTable
  end.

(** [getTable] *)
Definition getTable (stack : SymbolStack) (global : SymbolTable)
  (visibility : option SymbolVisibility) : SymbolTable :=
  match storageTier visibility with
  | InnermostFrame => default [] (last stack)
  | FileFrame => default [] (head stack)
  | GlobalTable => global
  end.

(** The last step of [amendSymbolMetadata]: a non-empty
    [addition.visibilityRestriction] is concatenated to the symbol's list. *)
Definition amendVisibilityRestriction (symbol : addr) (d : Data.t) (st : Store)
  : Store :=
  match Data.visibilityRestriction d with
  | Some (r :: rs) =>
      modifySymbol symbol
        (fun s => set_visibilityRestriction
                    (Some (default [] (visibilityRestriction s) ++ r :: rs)) s)
        st
  | _ => st
  end.

(** [amendSymbolMetadata] *)
Definition amendSymbolMetadata (path : list string) (symbol : addr)
  (addition : option Data.t) (st : Store) : Store * Completion unit :=
  match addition with
  | None => (st, Normal tt)
  | Some d =>
      let st :=
        match Data.desc d with
        | Some v => modifySymbol symbol (set_desc (Some v)) st
        | None => st
        end in
      let st :=
        match Data.relations d with
        | Some (rel :: rels) =>
            let st :=
              modifySymbol symbol
                (fun s => set_relations (Some (default [] (relations s))) s) st in
            foldl (amendRelation path symbol) st (rel :: rels)
        | _ => st
        end in
      let st :=
        match Data.subcategory d with
        | Some v => modifySymbol symbol (set_subcategory (Some v)) st
        | None => st
        end in
      match Data.visibility d with
      | Some v =>
          let old := heap st !! symbol ≫= visibility in
          if bool_decide (old = Some v)
             || (inGlobalTable old && inGlobalTable (Some v))
          then
            let st := modifySymbol symbol (set_visibility (Some v)) st in
            (amendVisibilityRestriction symbol d st, Normal tt)
          else (st, Throw (CannotChangeVisibility old v))
      | None => (amendVisibilityRestriction symbol d st, Normal tt)
      end
  end.

(** [amendSymbol] *)
Definition amendSymbol (path : list string) (symbol : addr)
  (enterable : SymbolAddition) (doc : TextDocument.t) (isUriBinding : bool)
  (st : Store) : Store * Completion unit :=
  match amendSymbolMetadata path symbol (data enterable) st with
  | (st, Normal _) =>
      (amendSymbolUsage path symbol (usage enterable) doc isUriBinding st,
       Normal tt)
  | (st, Throw e) => (st, Throw e)
  end.

(** [createSymbol]: the new object [{category, identifier, ...enterable.data}]
    is allocated at the next free address, then receives the usage. *)
Definition createSymbol (category : string) (path : list string)
  (identifier : string) (enterable : SymbolAddition) (doc : TextDocument.t)
  (isUriBinding : bool) (st : Store) : Store * addr :=
  let d := data enterable in
  let ans :=
    mkSymbol category identifier (d ≫= Data.desc) (d ≫= Data.subcategory)
      (d ≫= Data.visibility) (d ≫= Data.visibilityRestriction)
      (d ≫= Data.relations) None None None None None None in
  let a := length (heap st) in
  let st := mkStore (heap st ++ [ans]) (published st) in
  (amendSymbolUsage path a (usage enterable) doc isUriBinding st, a).

(** [enterMap]: the map is returned with the store, as both are mutated. *)
Definition enterMap (map : SymbolMap) (category : string) (path : list string)
  (identifier : string) (addition : SymbolAddition) (doc : TextDocument.t)
  (isUriBinding : bool) (st : Store) : SymbolMap * Store * Completion addr :=
  match mapGet map identifier with
  | Some (target, _) =>
      match amendSymbol path target addition doc isUriBinding st with
      | (st, Normal _) =>
          (map, trigger (symbolAmended path target) st, Normal target)
      | (st, Throw e) => (map, st, Throw e)
      end
  | None =>
      let '(st, ans) :=
        createSymbol category path identifier addition doc isUriBinding st in
      (mapSet map identifier ans, trigger (symbolCreated path ans) st,
       Normal ans)
  end.

(** [enterTable], through [enterMapContainer]:
    [container[keyToMap] ??= {}] then [enterMap]. *)
Definition enterTable (table : SymbolTable) (category : string)
  (path : list string) (identifier : string) (addition : SymbolAddition)
  (doc : TextDocument.t) (isUriBinding : bool) (st : Store)
  : SymbolTable * Store * Completion addr :=
  let map := default map_empty (dictGet table category) in
  let '(map, st, r) :=
    enterMap map category path identifier addition doc isUriBinding st in
  (dictSet table category map, st, r).

(** ** Lookup *)

Module LookupResult.
Record t := mk {
  parentSymbol : option addr;
  map : option SymbolMap;
  symbol : option addr;
}.
End LookupResult.

(** An object reference used as a condition: [null] is falsy. *)
Definition notNull {A} (x : option A) : bool :=
  match x with Some _ => true | None => false end.

(** The loop of [lookupTable], started with the current [parentSymbol] and
    [map] on the segments of the path that remain. *)
Fixpoint lookupPath (parentSymbol : option addr) (map : option SymbolMap)
  (path : list string) : LookupResult.t :=
  match path with
  | [] => LookupResult.mk parentSymbol map None
  | id :: rest =>
      match map ≫= fun m => mapGet m id with
      | None =>
          match rest with
          | [] => LookupResult.mk parentSymbol map None
          | _ :: _ => LookupResult.mk None None None
          end
      | Some (symbol, members) =>
          match rest with
          | [] => LookupResult.mk parentSymbol map (Some symbol)
          | _ :: _ => lookupPath (Some symbol) members rest
          end
      end
  end.

(** [lookupTable] *)
Definition lookupTable (table : SymbolTable) (category : string)
  (path : list string) : LookupResult.t :=
  lookupPath None (dictGet table category) path.

(** The loop of [lookupTables] over the tables still to visit, innermost
    first, with the [parentSymbol] and [map] remembered so far. *)
Fixpoint lookupTablesLoop (tables : list SymbolTable) (category : string)
  (path : list string) (parentSymbol : option addr) (map : option SymbolMap)
  : LookupResult.t :=
  match tables with
  | [] => LookupResult.mk parentSymbol map None
  | table :: outer =>
      let result := lookupTable table category path in
      match LookupResult.symbol result with
      | Some _ => result
      | None =>
          if negb (notNull parentSymbol) && negb (notNull map)
             && (notNull (LookupResult.parentSymbol result)
                 || notNull (LookupResult.map result))
          then lookupTablesLoop outer category path
                 (LookupResult.parentSymbol result) (LookupResult.map result)
          else lookupTablesLoop outer category path parentSymbol map
      end
  end.

(** [lookupTables]: [tables] is ordered from global to the innermost block,
    and visited from the last one to the first. *)
Definition lookupTables (tables : list SymbolTable) (category : string)
  (path : list string) : LookupResult.t :=
  lookupTablesLoop (reverse tables) category path None None.

(** [isVisible], on a symbol reference. *)
Definition isVisible (h : Heap) (symbol : addr) (_uri : option string) : bool :=
  match h !! symbol ≫= visibility with
  | Some Restricted => false
  | _ => true
  end.

(** ** Trimming and partial invalidation *)

(** [l?.length] as a condition. *)
Definition hasLength {A} (l : option (list A)) : bool :=
  match l with Some (_ :: _) => true | _ => false end.

(** The condition of [trimMap]: no usage of any kind and a falsy
    [aliasAmount] ([undefined] or [0]). *)
Definition isTrimmable (s : Symbol) : bool :=
  negb (hasLength (declaration s)) && negb (hasLength (definition s))
  && negb (hasLength (implementation s)) && negb (hasLength (reference s))
  && negb (hasLength (typeDefinition s))
  && match aliasAmount s with Some n => bool_decide (n = 0%Z) | None => true end.

Definition isTrimmableAt (h : Heap) (a : addr) : bool :=
  match h !! a with Some s => isTrimmable s | None => true end.

(** [trimMap]: returns the map after the deletions. *)
Fixpoint trimMap (map : SymbolMap) (path : list string) (st : Store)
  : SymbolMap * Store :=
  match map with
  | map_empty => (map_empty, st)
  | map_entry identifier symbol members rest =>
      if isTrimmableAt (heap st) symbol then
        let st :=
          match aliasOfAt (heap st) symbol with
          | Some target =>
              modifySymbol target decrementAliasAmount st
          | None => st
          end in
        let st := trigger (symbolRemoved path symbol) st in
        trimMap rest path st
      else
        match members with
        | Some mm =>
            let '(mm, st) := trimMap mm (path ++ [identifier]) st in
            let '(rest, st) := trimMap rest path st in
            (map_entry identifier symbol
               (if mapIsEmpty mm then None else Some mm) rest, st)
        | None =>
            let '(rest, st) := trimMap rest path st in
            (map_entry identifier symbol None rest, st)
        end
  end.

(** [trim] *)
Fixpoint trim (table : SymbolTable) (st : Store) : SymbolTable * Store :=
  match table with
  | [] => ([], st)
  | (category, map) :: rest =>
      let '(map, st) := trimMap map [] st in
      let '(rest, st) := trim rest st in
      (if mapIsEmpty map then rest else (category, map) :: rest, st)
  end.

(** The body of the loop over [SymbolUsageTypes] in
    [removeLocationsFromMap]. *)
Definition removeLocationsOfType (predicate : SymbolLocation -> bool)
  (path : list string) (symbol : addr) (st : Store) (type : SymbolUsageType)
  : Store :=
  match heap st !! symbol ≫= usageGet type with
  | None => st
  | Some locations =>
      let st :=
        foldl (fun st location =>
                 if predicate location
                 then trigger (symbolLocationRemoved path symbol type location) st
                 else st)
          st locations in
      modifySymbol symbol
        (usageSet type
           (Some (List.filter (fun l => negb (predicate l)) locations)))
        st
  end.

(** [removeLocationsFromMap] *)
Fixpoint removeLocationsFromMap (map : SymbolMap)
  (predicate : SymbolLocation -> bool) (path : list string) (st : Store)
  : Store :=
  match map with
  | map_empty => st
  | map_entry identifier symbol members rest =>
      let st :=
        foldl (removeLocationsOfType predicate path symbol) st SymbolUsageTypes in
      let st :=
        match members with
        | Some mm => removeLocationsFromMap mm predicate (path ++ [identifier]) st
        | None => st
        end in
      removeLocationsFromMap rest predicate path st
  end.

(** [removeLocations] *)
Definition removeLocations (table : SymbolTable)
  (predicate : SymbolLocation -> bool) (st : Store) : SymbolTable * Store :=
  let st :=
    foldl (fun st entry => removeLocationsFromMap (snd entry) predicate [] st)
      st table in
  trim table st.

(** ** The [SymbolUtil] object *)

(** References to the arrays that hold the per-document stacks. *)
Abbreviation StackRef := nat (only parsing).

(** The state of a [SymbolUtil]: the global table, the [stacks] map from URIs
    to stack arrays, the arrays themselves, the object store with the events
    published through [#event], and the [isUriBinding] flag. *)
Record SymbolUtil := mkUtil {
  global : SymbolTable;
  stacks : gmap string StackRef;
  arrays : list SymbolStack;
  store : Store;
  isUriBinding : bool;
}.

(** The content of a stack array. *)
Definition stackAt (u : SymbolUtil) (r : StackRef) : SymbolStack :=
  default [] (arrays u !! r).

(** [getStack]: a document without a stack gets the one-frame stack [[{}]]. *)
Definition getStack (uri : string) (u : SymbolUtil) : SymbolUtil * StackRef :=
  match stacks u !! uri with
  | Some r => (u, r)
  | None =>
      let r := length (arrays u) in
      (mkUtil (global u) (<[uri := r]> (stacks u)) (arrays u ++ [[[]]])
         (store u) (isUriBinding u), r)
  end.

(** [setStack]: the given array is registered for the document. *)
Definition setStack (uri : string) (stack : SymbolStack) (u : SymbolUtil)
  : SymbolUtil :=
  mkUtil (global u) (<[uri := length (arrays u)]> (stacks u))
    (arrays u ++ [stack]) (store u) (isUriBinding u).

(** [this.removeLocations(this.global, predicate)] *)
Definition removeGlobalLocations (predicate : SymbolLocation -> bool)
  (u : SymbolUtil) : SymbolUtil :=
  let '(table, st) := removeLocations (global u) predicate (store u) in
  mkUtil table (stacks u) (arrays u) st (isUriBinding u).

(** [clear] *)
Definition clear (uri' : string) (u : SymbolUtil) : SymbolUtil :=
  let u :=
    mkUtil (global u) (delete uri' (stacks u)) (arrays u) (store u)
      (isUriBinding u) in
  removeGlobalLocations
    (fun loc => negb (isUriBound loc) && bool_decide (uri loc = uri')) u.

(** A string used as a condition: the empty string is falsy. *)
Definition truthy (s : string) : bool := negb (bool_decide (s = "")).

(** [lookup]: [uri ? this.getStack(uri) : []], then [lookupTables] over
    [[this.global, ...stack]]. *)
Definition lookup (category : string) (path : list string)
  (uri : option string) (u : SymbolUtil) : SymbolUtil * LookupResult.t :=
  match uri with
  | Some uri' =>
      if truthy uri' then
        let '(u, r) := getStack uri' u in
        (u, lookupTables (global u :: stackAt u r) category path)
      else (u, lookupTables [global u] category path)
  | None => (u, lookupTables [global u] category path)
  end.

(** The loop of [getVisibleSymbols]: the entries of [map] whose symbol is
    visible, in order. *)
Fixpoint visibleEntries (h : Heap) (uri : option string) (map : SymbolMap)
  : SymbolMap :=
  match map with
  | map_empty => map_empty
  | map_entry key symbol members rest =>
      if isVisible h symbol uri
      then map_entry key symbol members (visibleEntries h uri rest)
      else visibleEntries h uri rest
  end.

(** [getVisibleSymbols(param1, param2?)]: with a truthy [param2] the
    arguments are [(uri, category)], otherwise [param1] is the category. *)
Definition getVisibleSymbols (param1 : string) (param2 : option string)
  (u : SymbolUtil) : SymbolUtil * SymbolMap :=
  let '(uri, category) :=
    match param2 with
    | Some p2 => if truthy p2 then (Some param1, p2) else (None, param1)
    | None => (None, param1)
    end in
  let '(u, result) := lookup category [] uri u in
  match LookupResult.map result with
  | Some map => (u, visibleEntries (heap (store u)) uri map)
  | None => (u, map_empty)
  end.

(** Callbacks handed to [block] and [uriBinding]: arbitrary code that may
    read and change the [SymbolUtil], and that returns or throws. *)
Definition Callback : Type := SymbolUtil -> SymbolUtil * Completion unit.

(** A stack array after a [push] or a [pop]. *)
Definition setArray (r : StackRef) (stack : SymbolStack) (u : SymbolUtil)
  : SymbolUtil :=
  mkUtil (global u) (stacks u) (<[r := stack]> (arrays u)) (store u)
    (isUriBinding u).

(** [block]: the array fetched before the callback is the one inspected and
    popped in the [finally] clause; a throw there replaces the completion of
    the callback. *)
Definition block (uri : string) (callbackFn : Callback) (u : SymbolUtil)
  : SymbolUtil * Completion unit :=
  let '(u, stack) := getStack uri u in
  let u := setArray stack (stackAt u stack ++ [[]]) u in
  let '(u, completion) := callbackFn u in
  if Nat.leb (length (stackAt u stack)) 1 then (u, Throw UnableToPopBlock)
  else (setArray stack (removelast (stackAt u stack)) u, completion).

(** [this.isUriBinding = b] *)
Definition setUriBinding (b : bool) (u : SymbolUtil) : SymbolUtil :=
  mkUtil (global u) (stacks u) (arrays u) (store u) b.

(** The messages passed to [logger.error], oldest first. *)
Definition Logger : Type := list string.

(** [JSON.stringify(e)]: [Thrown] carries the JSON form of the thrown value;
    an [Error] object has no enumerable property. *)
Definition errorText (e : Error) : string :=
  match e with
  | Thrown value => value
  | CannotChangeVisibility _ _ => "{}"
  | UnableToPopBlock => "{}"
  end.

(** [uriBinding]: the flag is set, the URI-bound locations of the global
    table are removed, and the callback runs inside [try]; the [catch] clause
    logs, the [finally] clause resets the flag. *)
Definition uriBinding (logger : Logger) (fn : Callback) (u : SymbolUtil)
  : SymbolUtil * Logger * Completion unit :=
  let u := setUriBinding true u in
  let u := removeGlobalLocations isUriBound u in
  let '(u, completion) := fn u in
  let logger :=
    match completion with
    | Throw e => logger ++ [errorText e]
    | Normal _ => logger
    end in
  (setUriBinding false u, logger, Normal tt).

(** ** Descriptions of [lookupTables] *)

(** The results of [lookupTable] on each table, innermost table first. *)
Definition lookupResults (tables : list SymbolTable) (category : string)
  (path : list string) : list LookupResult.t :=
  map (fun table => lookupTable table category path) (reverse tables).

Definition resultFound (r : LookupResult.t) : bool :=
  notNull (LookupResult.symbol r).

Definition resultHasHandle (r : LookupResult.t) : bool :=
  notNull (LookupResult.parentSymbol r) || notNull (LookupResult.map r).

(** The result of the first table, innermost first, that holds the leaf;
    failing that, the parent symbol and map of the first table whose lookup
    yields either, with no symbol. *)
Definition lookupTablesByLeaf (tables : list SymbolTable) (category : string)
  (path : list string) : LookupResult.t :=
  let results := lookupResults tables category path in
  match List.find resultFound results with
  | Some r => r
  | None =>
      match List.find resultHasHandle results with
      | Some r =>
          LookupResult.mk (LookupResult.parentSymbol r) (LookupResult.map r) None
      | None => LookupResult.mk None None None
      end
  end.

(** A table contains a part of the path when it resolves its first segment. *)
Definition containsPathPart (category : string) (path : list string)
  (table : SymbolTable) : bool :=
  match path with
  | id :: _ => notNull (dictGet table category ≫= fun m => mapGet m id)
  | [] => false
  end.

(** The result of the first table, innermost first, that contains any part of
    the path, whether or not it holds the leaf. *)
Definition lookupTablesByAnyPart (tables : list SymbolTable) (category : string)
  (path : list string) : LookupResult.t :=
  match List.find (containsPathPart category path) (reverse tables) with
  | Some table => lookupTable table category path
  | None => LookupResult.mk None None None
  end.

(** The map of [category] in the innermost table that has one. *)
Definition innermostCategoryMap (tables : list SymbolTable) (category : string)
  : option SymbolMap :=
  head (omap (fun table => dictGet table category) (reverse tables)).

(** ** Retracted locations *)

(** The locations that [removeLocationsFromMap] keeps in a usage list. *)
Definition keptLocations (predicate : SymbolLocation -> bool)
  : list SymbolLocation -> list SymbolLocation :=
  List.filter (fun l => negb (predicate l)).

(** [symbol[type]] read through a reference. *)
Definition usageAt (h : Heap) (a : addr) (type : SymbolUsageType)
  : option (list SymbolLocation) :=
  h !! a ≫= usageGet type.

(** No location recorded for the symbol matches the predicate. *)
Definition retractedAt (predicate : SymbolLocation -> bool) (h : Heap)
  (a : addr) : Prop :=
  forall type locations location,
    usageAt h a type = Some locations -> location ∈ locations ->
    predicate location = false.

(** No location of a symbol of the table, members included, matches. *)
Definition retractedIn (predicate : SymbolLocation -> bool) (h : Heap)
  (table : SymbolTable) : Prop :=
  forall a, a ∈ tableSymbols table -> retractedAt predicate h a.

(** From [h] to [h'], every usage list is as it was or has lost the
    locations that match the predicate. *)
Definition shrinks (predicate : SymbolLocation -> bool) (h h' : Heap) : Prop :=
  forall a type,
    usageAt h' a type = usageAt h a type
    \/ usageAt h' a type
       = keptLocations predicate <$> usageAt h a type.

Definition usageView (s : Symbol) :=
  (declaration s, definition s, implementation s, reference s, typeDefinition s).

(** ** Operations on the global table *)

(** [new SymbolUtil({})] *)
Definition newSymbolUtil : SymbolUtil :=
  mkUtil [] ∅ [] (mkStore [] []) false.

(** [symbols.enterTable(symbols.global, category, [identifier], identifier,
    addition, doc, isUriBinding)], which is what
    [symbols.query(doc, category, identifier).enter(addition)] does for a
    top-level symbol when the addition has no [Block] or [File] visibility:
    the map is [global[category]], found by the lookup or created by
    [createMap]. *)
Definition enterGlobal (category identifier : string)
  (addition : SymbolAddition) (doc : TextDocument.t) (u : SymbolUtil)
  : SymbolUtil * Completion addr :=
  let '(table, st, completion) :=
    enterTable (global u) category [identifier] identifier addition doc
      (isUriBinding u) (store u) in
  (mkUtil table (stacks u) (arrays u) st (isUriBinding u), completion).

(** [symbols.trim(symbols.global)] *)
Definition trimGlobal (u : SymbolUtil) : SymbolUtil :=
  let '(table, st) := trim (global u) (store u) in
  mkUtil table (stacks u) (arrays u) st (isUriBinding u).

(** The calls that build and invalidate the table. *)
Inductive Operation :=
| Enter (category identifier : string) (addition : SymbolAddition)
        (doc : TextDocument.t)
| RemoveLocations (predicate : SymbolLocation -> bool)
| Trim
| Clear (uri : string).

Definition perform (u : SymbolUtil) (op : Operation) : SymbolUtil :=
  match op with
  | Enter category identifier addition doc =>
      fst (enterGlobal category identifier addition doc u)
  | RemoveLocations predicate => removeGlobalLocations predicate u
  | Trim => trimGlobal u
  | Clear uri => clear uri u
  end.

(** The state reached from a new [SymbolUtil] by a sequence of calls. *)
Definition run (ops : list Operation) : SymbolUtil :=
  foldl perform newSymbolUtil ops.

(** ** The alias invariant *)

(** The symbols currently present in the global table or in the stack of a
    document. *)
Definition presentSymbols (u : SymbolUtil) : list addr :=
  tableSymbols (global u)
  ++ concat (map (fun entry => concat (map tableSymbols (stackAt u (snd entry))))
               (map_to_list (stacks u))).

(** The number of present symbols whose [relations.aliasOf] is [target]. *)
Definition aliasCount (u : SymbolUtil) (target : addr) : nat :=
  length (List.filter
            (fun a => bool_decide (aliasOfAt (heap (store u)) a = Some target))
            (presentSymbols u)).

(** Every present symbol with a defined [aliasAmount] has as many aliases. *)
Definition aliasInvariant (u : SymbolUtil) : Prop :=
  forall s n,
    s ∈ presentSymbols u ->
    heap (store u) !! s ≫= aliasAmount = Some n ->
    n = Z.of_nat (aliasCount u s).

(** The sum of the alias counters of the store. *)
Definition amountSum (h : Heap) : Z :=
  foldr (fun s acc => (default 0 (aliasAmount s) + acc)%Z) 0%Z h.

(** ** Events of a call *)

(** [events] holds a [first] event, and no [second] event before it. *)
Fixpoint publishedBefore (first second : Event -> bool) (events : list Event)
  : bool :=
  match events with
  | [] => false
  | e :: events' =>
      if second e then false
      else if first e then true
      else publishedBefore first second events'
  end.

Definition isSymbolCreated (e : Event) : bool :=
  match e with symbolCreated _ _ => true | _ => false end.

Definition isLocationCreated (e : Event) : bool :=
  match e with symbolLocationCreated _ _ _ _ => true | _ => false end.

(** ** Views of a symbol *)

(** A value of the addition, when present, replaces the value of the
    symbol. *)
Definition overwrite {A} (new old : option A) : option A :=
  match new with Some x => Some x | None => old end.


(** [keeps proj f]: the store transformer [f] allocates and frees nothing and
    leaves the view [proj] of every symbol as it was. *)
Definition keeps {A} (proj : Symbol -> A) (f : Store -> Store) : Prop :=
  forall st a, proj <$> heap (f st) !! a = proj <$> heap st !! a.

(** What a failed change of visibility leaves alone. *)
Definition lifecycleView (s : Symbol) :=
  (category s, identifier s, visibility s, visibilityRestriction s,
   (declaration s, definition s, implementation s, reference s,
    typeDefinition s)).

(** The metadata an addition can overwrite. *)
Definition metadataView (s : Symbol) :=
  (desc s, subcategory s, visibility s, visibilityRestriction s).

(** The store after the first three steps of [amendSymbolMetadata]. *)
Definition amendBeforeVisibility (path : list string) (symbol : addr)
  (d : Data.t) (st : Store) : Store :=
  let st :=
    match Data.desc d with
    | Some v => modifySymbol symbol (set_desc (Some v)) st
    | None => st
    end in
  let st :=
    match Data.relations d with
    | Some (rel :: rels) =>
        foldl (amendRelation path symbol)
          (modifySymbol symbol
             (fun s => set_relations (Some (default [] (relations s))) s) st)
          (rel :: rels)
    | _ => st
    end in
  match Data.subcategory d with
  | Some v => modifySymbol symbol (set_subcategory (Some v)) st
  | None => st
  end.

(** * Example states *)

(** A symbol with no metadata and no usage. *)
Definition bareSymbol (category identifier : string) : Symbol :=
  mkSymbol category identifier None None None None None None
    None None None None None.

(** A bare symbol that is an alias of [target]. *)
Definition aliasSymbol (category identifier : string) (target : addr) : Symbol :=
  set_relations (Some [("aliasOf", target)]) (bareSymbol category identifier).

(** [B] is an alias of [A], which is an alias of [T]. *)
Definition aliasChainHeap : Heap :=
  [bareSymbol "type" "T"; aliasSymbol "type" "A" 0; aliasSymbol "type" "B" 1].

(** [X] is an alias of [Y] and [Y] an alias of [X]. *)
Definition aliasCycleHeap : Heap :=
  [aliasSymbol "type" "X" 1; aliasSymbol "type" "Y" 0].

(** The global table holds [a.b]; the file scope of a document holds its own
    [a], which has no member. *)
Definition shadowGlobal : SymbolTable :=
  [("type", map_entry "a" 0 (Some (map_entry "b" 1 None map_empty)) map_empty)].

Definition shadowFrame : SymbolTable :=
  [("type", map_entry "a" 2 None map_empty)].

(** A [SymbolUtil] whose global table holds the public type [G] and in which
    the file scope of [file:///a.nbtdoc] holds the type [F]. *)
Definition tiersUtil : SymbolUtil :=
  mkUtil [("type", map_entry "G" 0 None map_empty)]
    {["file:///a.nbtdoc" := 0]}
    [[[("type", map_entry "F" 1 None map_empty)]]]
    (mkStore [bareSymbol "type" "G";
              set_visibility (Some File) (bareSymbol "type" "F")] [])
    false.

(** The symbol [Foo], public, described and restricted to one root. *)
Definition fooSymbol : Symbol :=
  mkSymbol "type" "Foo" (Some "old") None (Some Public) (Some ["root/a"])
    None None None None None None None.

Definition fooMap : SymbolMap := map_entry "Foo" 0 None map_empty.

Definition fooStore : Store := mkStore [fooSymbol] [].

(** An addition that describes the symbol anew and makes it [Block]. *)
Definition toBlockAddition : SymbolAddition :=
  mkAddition (Some (Data.mk (Some "new") None None (Some Block) None)) None.

(** An addition that carries one more visibility restriction. *)
Definition restrictAddition : SymbolAddition :=
  mkAddition (Some (Data.mk None None None None (Some ["root/b"]))) None.

(** An addition with a declaration at [[0, 3)] and no metadata. *)
Definition declareAddition : SymbolAddition :=
  mkAddition None
    (Some (Usage.mk (Some UDeclaration) (Some (0, 3)) None None None)).

Definition fooDocument : TextDocument.t := TextDocument.mk "file:///foo.nbtdoc".

(** A callback that pushes a frame of its own onto the stack array 0 and
    returns without popping it: [() => { symbols.getStack(uri).push({}) }]
    for the document of [tiersUtil]. *)
Definition pushingCallback : Callback :=
  fun u => (setArray 0 (stackAt u 0 ++ [[]]) u, Normal tt).

(** A callback that changes nothing and throws. *)
Definition throwingCallback : Callback :=
  fun u => (u, Throw (Thrown "{}")).

(** An addition with a reference and no metadata. *)
Definition referenceAddition : SymbolAddition :=
  mkAddition None (Some (Usage.mk None None None None None)).

(** An addition with neither metadata nor usage. *)
Definition emptyAddition : SymbolAddition := mkAddition None None.

(** An addition that makes the symbol an alias of [target]. *)
Definition aliasAddition (target : addr) : SymbolAddition :=
  mkAddition (Some (Data.mk None (Some [("aliasOf", target)]) None None None))
    None.

Definition documentA : TextDocument.t := TextDocument.mk "file:///a.nbtdoc".
Definition documentB : TextDocument.t := TextDocument.mk "file:///b.nbtdoc".

(** [T] is referenced from document B, [A] from document A; [A] becomes an
    alias of [T]; then document A is cleared. *)
Definition aliasClearedOps : list Operation :=
  [Enter "type" "T" referenceAddition documentB;
   Enter "type" "A" referenceAddition documentA;
   Enter "type" "A" (aliasAddition 0) documentA;
   Clear "file:///a.nbtdoc"].

(** [T] and [A] are entered without usage, [B] with a reference; [A] and [B]
    become aliases of [T]. *)
Definition twoAliasesOps : list Operation :=
  [Enter "type" "T" emptyAddition documentA;
   Enter "type" "A" emptyAddition documentA;
   Enter "type" "B" referenceAddition documentB;
   Enter "type" "A" (aliasAddition 0) documentA;
   Enter "type" "B" (aliasAddition 0) documentB].

(** A table with one referenced symbol and one symbol without usage. *)
Definition plainTable : SymbolTable :=
  [("type", map_entry "Used" 0 None (map_entry "Unused" 1 None map_empty))].

Definition plainStore : Store :=
  mkStore
    [usageSet UReference
       (Some [mkLocation "file:///a.nbtdoc" None None false None None])
       (bareSymbol "type" "Used");
     bareSymbol "type" "Unused"] [].

(** [T] and [B] are referenced; [A] is created as an alias of [T]; [B]
    becomes an alias of [T]. *)
Definition createdAliasOps : list Operation :=
  [Enter "type" "T" referenceAddition documentB;
   Enter "type" "A"
     (mkAddition (data (aliasAddition 0)) (usage referenceAddition)) documentA;
   Enter "type" "B" referenceAddition documentB;
   Enter "type" "B" (aliasAddition 0) documentB].

(** * Further operations of [SymbolUtil] *)

(** ** Usage predicates *)

(** The object a reference designates, [null] included. *)
Definition symbolAt (h : Heap) (symbol : option addr) : option Symbol :=
  symbol ≫= fun a => h !! a.

(** [isDeclared] *)
Definition isDeclared (h : Heap) (symbol : option addr) : bool :=
  match symbolAt h symbol with
  | Some s => hasLength (declaration s) || hasLength (definition s)
  | None => false
  end.

(** [isDefined] *)
Definition isDefined (h : Heap) (symbol : option addr) : bool :=
  match symbolAt h symbol with
  | Some s =>
      hasLength (definition s)
      || (hasLength (definition s) && hasLength (implementation s))
  | None => false
  end.

(** [isImplemented] *)
Definition isImplemented (h : Heap) (symbol : option addr) : bool :=
  match symbolAt h symbol with
  | Some s => hasLength (implementation s) || hasLength (definition s)
  | None => false
  end.

(** [isReferenced] *)
Definition isReferenced (h : Heap) (symbol : option addr) : bool :=
  match symbolAt h symbol with
  | Some s => hasLength (reference s)
  | None => false
  end.

(** [isTypeDefined] *)
Definition isTypeDefined (h : Heap) (symbol : option addr) : bool :=
  match symbolAt h symbol with
  | Some s => hasLength (typeDefinition s)
  | None => false
  end.

(** [getDeclaredLocation]: [None] stands for the error the source throws
    when the symbol has neither a declaration nor a definition. *)
Definition getDeclaredLocation (h : Heap) (symbol : addr)
  : option SymbolLocation :=
  match h !! symbol with
  | Some s =>
      match declaration s ≫= head with
      | Some location => Some location
      | None => definition s ≫= head
      end
  | None => None
  end.

(** ** Descent along a path *)

(** The parent symbol and the map reached from [map] through the segments of
    [prefix]; [None] when a segment is missing. *)
Fixpoint descend (parentSymbol : option addr) (map : option SymbolMap)
  (prefix : list string) : option (option addr * option SymbolMap) :=
  match prefix with
  | [] => Some (parentSymbol, map)
  | id :: rest =>
      match map ≫= fun m => mapGet m id with
      | Some (symbol, members) => descend (Some symbol) members rest
      | None => None
      end
  end.

(** The identifiers of a map, in [Object.keys] order. *)
Fixpoint mapKeys (m : SymbolMap) : list string :=
  match m with
  | map_empty => []
  | map_entry k _ _ rest => k :: mapKeys rest
  end.

(** The symbols stored directly in a map. *)
Fixpoint mapValues (m : SymbolMap) : list addr :=
  match m with
  | map_empty => []
  | map_entry _ a _ rest => a :: mapValues rest
  end.

(** ** Views of the store *)

(** Every field of a symbol but [aliasAmount]. *)
Definition frozenView (s : Symbol) :=
  (category s, identifier s, desc s, subcategory s, visibility s,
   visibilityRestriction s, relations s, usageView s).

(** A view that reads neither the counter nor the metadata an addition can
    write. *)
Definition blindToMetadata {A} (proj : Symbol -> A) : Prop :=
  (forall v s, proj (set_desc v s) = proj s)
  /\ (forall v s, proj (set_relations v s) = proj s)
  /\ (forall v s, proj (set_subcategory v s) = proj s)
  /\ (forall v s, proj (set_visibility v s) = proj s)
  /\ (forall v s, proj (set_visibilityRestriction v s) = proj s).

(** [target.aliasAmount ??= 0; target.aliasAmount++] on the object. *)
Definition incrementAliasAmount (s : Symbol) : Symbol :=
  set_aliasAmount (Some (default 0 (aliasAmount s) + 1)%Z) s.

(** An addition whose only content is the relation [aliasOf]. *)
Definition aliasData (target : addr) : Data.t :=
  Data.mk None (Some [("aliasOf", target)]) None None None.

(** ** Shape of a trimmed map *)

(** No [members] property holds an empty object, at any depth. *)
Fixpoint noEmptyMembers (m : SymbolMap) : bool :=
  match m with
  | map_empty => true
  | map_entry _ _ members rest =>
      match members with
      | Some mm => negb (mapIsEmpty mm) && noEmptyMembers mm
      | None => true
      end
      && noEmptyMembers rest
  end.

(** The symbol has a location of some usage type. *)
Definition hasUsage (s : Symbol) : bool :=
  hasLength (declaration s) || hasLength (definition s)
  || hasLength (implementation s) || hasLength (reference s)
  || hasLength (typeDefinition s).

(** The events [trim] may publish for the symbols of [symbols], given the
    store [h] it started from: the removal of a symbol that has no usage, and
    the removal of an alias. *)
Definition isRemovalEvent (h : Heap) (symbols : list addr) (e : Event) : Prop :=
  match e with
  | symbolRemoved _ a => a ∈ symbols /\ hasUsage <$> h !! a <> Some true
  | symbolAliasRemoved target _ a =>
      a ∈ symbols /\ aliasOfAt h a = Some target
  | _ => False
  end.

(** What [trim] reads of a symbol to decide on an event, its counter
    apart. *)
Definition removalView (s : Symbol) := (hasUsage s, aliasOf s).

(** ** Predicates of the invalidation calls *)

(** The predicate [clear] hands to [removeLocations]. *)
Definition clearedBy (uri' : string) (loc : SymbolLocation) : bool :=
  negb (isUriBound loc) && bool_decide (uri loc = uri').

(** * Queries: [SymbolUtil.query] and [SymbolQuery] *)

(** A [SymbolQuery] keeps a reference to the map that holds its symbol, and
    [#createMap] closes over the container it will fill.  Maps are values of
    the ownership tree here, so a reference to a map is the way to it: the
    table, the category, and the identifiers of the symbols whose [members]
    lead to it.  Such a reference designates the object the source holds as
    long as the symbols on the way stay in place, which is the case from
    [query] to the calls made on the query it returns. *)

(** ** References to tables and maps *)

(** A table of a [SymbolUtil]: the global table or a frame of a stack. *)
Inductive TableRef :=
| GlobalRef
| FrameRef (stack : StackRef) (index : nat).

#[global] Instance TableRef_eq_dec : EqDecision TableRef.
Proof. solve_decision. Defined.

(** The table a reference designates; [None] is [undefined], the value of
    [stack[i]] outside the array. *)
Definition tableAt (u : SymbolUtil) (t : TableRef) : option SymbolTable :=
  match t with
  | GlobalRef => Some (global u)
  | FrameRef stack index => stackAt u stack !! index
  end.

(** The table after a mutation made through the reference. *)
Definition setTable (t : TableRef) (table : SymbolTable) (u : SymbolUtil)
  : SymbolUtil :=
  match t with
  | GlobalRef => mkUtil table (stacks u) (arrays u) (store u) (isUriBinding u)
  | FrameRef stack index =>
      setArray stack (<[index := table]> (stackAt u stack)) u
  end.

(** The object store after the calls made on it. *)
Definition setStore (st : Store) (u : SymbolUtil) : SymbolUtil :=
  mkUtil (global u) (stacks u) (arrays u) st (isUriBinding u).

(** [getTable], by reference: [stack.length - 1] is [0] on an empty stack
    here, where [stack[0]] is [undefined] as [stack[-1]] is. *)
Definition getTableRef (stack : StackRef) (u : SymbolUtil)
  (visibility : option SymbolVisibility) : TableRef :=
  match storageTier visibility with
  | InnermostFrame => FrameRef stack (length (stackAt u stack) - 1)
  | FileFrame => FrameRef stack 0
  | GlobalTable => GlobalRef
  end.

(** A map: the table, the category, and the owners from the map of the
    category down to the symbol whose [members] it is (none for the map of
    the category itself). *)
Record MapRef := mkMapRef {
  mapTable : TableRef;
  mapCategory : string;
  mapOwners : list string;
}.

(** The map a reference designates, if it exists. *)
Definition mapAt (u : SymbolUtil) (ref : MapRef) : option SymbolMap :=
  match tableAt u (mapTable ref) with
  | Some table =>
      match descend None (dictGet table (mapCategory ref)) (mapOwners ref) with
      | Some (_, map) => map
      | None => None
      end
  | None => None
  end.

(** [symbol.members = f(symbol.members)] for the symbol stored under [id]. *)
Fixpoint alterMembers (f : option SymbolMap -> option SymbolMap)
  (m : SymbolMap) (id : string) : SymbolMap :=
  match m with
  | map_empty => map_empty
  | map_entry k a members rest =>
      if decide (k = id) then map_entry k a (f members) rest
      else map_entry k a members (alterMembers f rest id)
  end.

(** The map [m] after the map reached through [owners] has become [new]. *)
Fixpoint setMembersAt (m : SymbolMap) (owners : list string) (new : SymbolMap)
  {struct owners} : SymbolMap :=
  match owners with
  | [] => new
  | id :: rest =>
      alterMembers
        (fun members =>
           match rest, members with
           | [], _ => Some new
           | _ :: _, Some mm => Some (setMembersAt mm rest new)
           | _ :: _, None => None
           end)
        m id
  end.

Definition setMapInTable (table : SymbolTable) (category : string)
  (owners : list string) (new : SymbolMap) : SymbolTable :=
  match owners with
  | [] => dictSet table category new
  | _ :: _ =>
      match dictGet table category with
      | Some m => dictSet table category (setMembersAt m owners new)
      | None => table
      end
  end.

(** The state after the map behind the reference has become [new]: the
    container that had no map gets one, as [container[key] ??= {}] does. *)
Definition setMapAt (ref : MapRef) (new : SymbolMap) (u : SymbolUtil)
  : SymbolUtil :=
  match tableAt u (mapTable ref) with
  | Some table =>
      setTable (mapTable ref)
        (setMapInTable table (mapCategory ref) (mapOwners ref) new) u
  | None => u
  end.

(** ** Lookup, with the table the result is read from *)

(** [[this.global, ...stack]], by reference. *)
Definition tableRefs (u : SymbolUtil) (stack : option StackRef)
  : list TableRef :=
  GlobalRef
    :: match stack with
       | Some r => FrameRef r <$> seq 0 (length (stackAt u r))
       | None => []
       end.

(** The loop of [lookupTables] on references: next to the result, the table
    whose [parentSymbol] and [map] it holds. *)
Fixpoint lookupRefsLoop (u : SymbolUtil) (refs : list TableRef)
  (category : string) (path : list string) (parentSymbol : option addr)
  (map : option SymbolMap) (from : option TableRef)
  : option TableRef * LookupResult.t :=
  match refs with
  | [] => (from, LookupResult.mk parentSymbol map None)
  | ref :: outer =>
      let result := lookupTable (default [] (tableAt u ref)) category path in
      match LookupResult.symbol result with
      | Some _ => (Some ref, result)
      | None =>
          if negb (notNull parentSymbol) && negb (notNull map)
             && (notNull (LookupResult.parentSymbol result)
                 || notNull (LookupResult.map result))
          then lookupRefsLoop u outer category path
                 (LookupResult.parentSymbol result) (LookupResult.map result)
                 (Some ref)
          else lookupRefsLoop u outer category path parentSymbol map from
      end
  end.

(** [lookup], with the table of the result. *)
Definition lookupFrom (category : string) (path : list string)
  (uri : option string) (u : SymbolUtil)
  : SymbolUtil * (option TableRef * LookupResult.t) :=
  match uri with
  | Some uri' =>
      if truthy uri' then
        let '(u, r) := getStack uri' u in
        (u, lookupRefsLoop u (reverse (tableRefs u (Some r))) category path
              None None None)
      else
        (u, lookupRefsLoop u (reverse (tableRefs u None)) category path
              None None None)
  | None =>
      (u, lookupRefsLoop u (reverse (tableRefs u None)) category path
            None None None)
  end.

(** ** The query object *)

(** [TextDocument | string] *)
Inductive DocumentOrUri :=
| ofDocument (doc : TextDocument.t)
| ofUri (uri : string).

(** [toUri] *)
Definition toUri (uri : DocumentOrUri) : string :=
  match uri with
  | ofUri uri' => uri'
  | ofDocument doc => TextDocument.uri doc
  end.

(** The two closures [query] builds for [#createMap]. *)
Inductive CreateMap :=
| createInTable (stack : StackRef)
    (* addition => getTable(stack, this.global, addition.data?.visibility)[category] ??= {} *)
| createMembers (table : TableRef) (owners : list string).
    (* _ => parentSymbol.members ??= {} *)

Module SymbolQuery.
Record t := mk {
  category : string;
  path : list string;
  doc : TextDocument.t;
  createdWithUri : bool;
  createMap : option CreateMap;
  isUriBinding : bool;
  hasTriggeredIf : bool;
  map : option MapRef;
  symbol : option addr;
}.

Definition set_hasTriggeredIf (b : bool) (q : t) : t :=
  mk (category q) (path q) (doc q) (createdWithUri q) (createMap q)
    (isUriBinding q) b (map q) (symbol q).

Definition set_map (m : option MapRef) (q : t) : t :=
  mk (category q) (path q) (doc q) (createdWithUri q) (createMap q)
    (isUriBinding q) (hasTriggeredIf q) m (symbol q).

Definition set_symbol (s : option addr) (q : t) : t :=
  mk (category q) (path q) (doc q) (createdWithUri q) (createMap q)
    (isUriBinding q) (hasTriggeredIf q) (map q) s.
End SymbolQuery.

(** [query]: the constructor of [SymbolQuery] turns a string URI into the
    document [TextDocument.create(doc, '', 0, '')]. *)
Definition query (doc : DocumentOrUri) (category : string) (path : list string)
  (u : SymbolUtil) : SymbolUtil * SymbolQuery.t :=
  let uri := toUri doc in
  let '(u, stack) := getStack uri u in
  let '(u, (from, result)) := lookupFrom category path (Some uri) u in
  let createMap :=
    if decide (length path = 1) then Some (createInTable stack)
    else
      match LookupResult.parentSymbol result, from with
      | Some _, Some table => Some (createMembers table (removelast path))
      | _, _ => None
      end in
  let visible :=
    match LookupResult.symbol result with
    | Some symbol => isVisible (heap (store u)) symbol (Some uri)
    | None => false
    end in
  let map :=
    match LookupResult.map result, from with
    | Some _, Some table => Some (mkMapRef table category (removelast path))
    | _, _ => None
    end in
  (u,
   SymbolQuery.mk category path
     match doc with
     | ofDocument doc' => doc'
     | ofUri uri' => TextDocument.mk uri'
     end
     match doc with ofDocument _ => false | ofUri _ => true end
     createMap (isUriBinding u) false
     (if visible then map else None)
     (if visible then LookupResult.symbol result else None)).

(** ** The methods of [SymbolQuery] *)

(** The errors of a call on a query: those of [SymbolQuery], the type error
    of a property read on [undefined], a recursion that has not returned, and
    the errors of [SymbolUtil]. *)
Inductive QueryError :=
| CannotEnter (path : list string)
| PropertyOfUndefined
| RecursionNotReturned
| Raised (e : Error).

Inductive Outcome (A : Type) :=
| Returned (a : A)
| Failed (e : QueryError).
Arguments Returned {A} a.
Arguments Failed {A} e.

(** What a method of a query acts on: the query object and its [#util]. *)
Record World := mkWorld { this : SymbolQuery.t; util : SymbolUtil }.

(** A method or a callback: it changes the query and the [SymbolUtil], and
    returns or throws. *)
Definition Action (A : Type) : Type := World -> World * Outcome A.

#[global] Instance Action_ret : MRet Action :=
  fun A (a : A) w => (w, Returned a).

(** Sequencing: a throw leaves the rest undone. *)
#[global] Instance Action_bind : MBind Action :=
  fun A B (k : A -> Action B) (m : Action A) w =>
    match m w with
    | (w, Returned a) => k a w
    | (w, Failed e) => (w, Failed e)
    end.

(** [this.#hasTriggeredIf = true] *)
Definition setTriggered : Action unit :=
  fun w =>
    (mkWorld (SymbolQuery.set_hasTriggeredIf true (this w)) (util w),
     Returned tt).

(** [this.#symbol] *)
Definition getSymbol : Action (option addr) :=
  fun w => (w, Returned (SymbolQuery.symbol (this w))).

(** A [QueryCallback]: it is called with the query as [this] and with
    [this.#symbol]. *)
Definition QueryCallback (A : Type) : Type := option addr -> Action A.

(** A predicate that only reads the symbol. *)
Definition reads (p : Heap -> option addr -> bool) : QueryCallback bool :=
  fun symbol w => (w, Returned (p (heap (store (util w))) symbol)).

(** [if] *)
Definition if_ (predicate : QueryCallback bool) (fn : QueryCallback unit)
  : Action unit :=
  symbol ← getSymbol;
  holds ← predicate symbol;
  if holds : bool then
    symbol ← getSymbol;
    fn symbol;;
    setTriggered
  else mret tt.

(** [ifUnknown] *)
Definition ifUnknown (fn : QueryCallback unit) : Action unit :=
  if_ (reads (fun _ s => negb (notNull s))) fn.

(** [ifKnown] *)
Definition ifKnown (fn : QueryCallback unit) : Action unit :=
  if_ (reads (fun _ s => notNull s)) fn.

(** [ifDeclared] *)
Definition ifDeclared (fn : QueryCallback unit) : Action unit :=
  if_ (reads isDeclared) fn.

(** [ifDefined] *)
Definition ifDefined (fn : QueryCallback unit) : Action unit :=
  if_ (reads isDefined) fn.

(** [ifImplemented] *)
Definition ifImplemented (fn : QueryCallback unit) : Action unit :=
  if_ (reads isImplemented) fn.

(** [ifReferenced] *)
Definition ifReferenced (fn : QueryCallback unit) : Action unit :=
  if_ (reads isReferenced) fn.

(** [ifTypeDefined] *)
Definition ifTypeDefined (fn : QueryCallback unit) : Action unit :=
  if_ (reads isTypeDefined) fn.

(** [else] *)
Definition else_ (fn : QueryCallback unit) : Action unit :=
  fun w =>
    if SymbolQuery.hasTriggeredIf (this w) then (w, Returned tt)
    else fn (SymbolQuery.symbol (this w)) w.

(** The argument of [enter]: the addition, and whether its usage is given by
    [node] rather than by [range] (in both cases [Usage.range] holds the
    range). *)
Record QueryAddition := mkQueryAddition {
  addition : SymbolAddition;
  usageByNode : bool;
}.

(** [SymbolAdditionUsageWithRange.is] *)
Definition usageWithRange (a : QueryAddition) : bool :=
  negb (usageByNode a) && notNull (usage (addition a) ≫= Usage.range).

(** [addition.usage.range = Range.create(0, 0)] *)
Definition resetRange (a : SymbolAddition) : SymbolAddition :=
  mkAddition (data a)
    ((fun u => Usage.mk (Usage.type u) (Some (0, 0)) (Usage.fullRange u)
                 (Usage.accessType u) (Usage.fromDefaultLibrary u))
     <$> usage a).

(** A call of [#createMap]: the map it returns, by reference; [None] is the
    type error of [undefined[category]]. *)
Definition runCreateMap (create : CreateMap) (category : string)
  (a : SymbolAddition) (u : SymbolUtil) : option MapRef :=
  match create with
  | createInTable stack =>
      let table := getTableRef stack u (data a ≫= Data.visibility) in
      match tableAt u table with
      | Some _ => Some (mkMapRef table category [])
      | None => None
      end
  | createMembers table owners => Some (mkMapRef table category owners)
  end.

(** [this.path[this.path.length - 1]] as a property key: [undefined] is the
    key ["undefined"]. *)
Definition lastOfPath (path : list string) : string :=
  default "undefined" (last path).

(** The addition [enter] hands to [enterMap]. *)
Definition enteredAddition (q : SymbolQuery.t) (a : QueryAddition)
  : SymbolAddition :=
  if SymbolQuery.createdWithUri q && usageWithRange a
  then resetRange (addition a) else addition a.

(** [enter]; the assignment to [addition.usage.node.symbol] writes the syntax
    tree, which is no part of the state here. *)
Definition enter (a : QueryAddition) : Action unit :=
  fun w =>
    let q := this w in
    let u := util w in
    match SymbolQuery.createMap q with
    | None => (w, Failed (CannotEnter (SymbolQuery.path q)))
    | Some create =>
        let a' := enteredAddition q a in
        match
          match SymbolQuery.map q with
          | Some ref => Some ref
          | None => runCreateMap create (SymbolQuery.category q) a' u
          end
        with
        | None => (w, Failed PropertyOfUndefined)
        | Some ref =>
            let q := SymbolQuery.set_map (Some ref) q in
            let '(map, st, completion) :=
              enterMap (default map_empty (mapAt u ref))
                (SymbolQuery.category q) (SymbolQuery.path q)
                (lastOfPath (SymbolQuery.path q)) a' (SymbolQuery.doc q)
                (SymbolQuery.isUriBinding q) (store u) in
            let u := setMapAt ref map (setStore st u) in
            match completion with
            | Normal symbol =>
                (mkWorld (SymbolQuery.set_symbol (Some symbol) q) u,
                 Returned tt)
            | Throw e => (mkWorld q u, Failed (Raised e))
            end
        end
    end.

(** [elseEnter] *)
Definition elseEnter (a : QueryAddition) : Action unit :=
  else_ (fun _ => enter a).

(** [amend] *)
Definition amend (a : QueryAddition) : Action unit :=
  ifKnown (fun _ => enter a).

(** [SymbolQuery.resolveAlias], within [fuel] recursive calls of
    [SymbolUtil.resolveAlias]. *)
Definition resolveQueryAlias (fuel : nat) : Action unit :=
  fun w =>
    match SymbolQuery.symbol (this w) with
    | Some symbol =>
        match resolveAlias fuel (heap (store (util w))) symbol with
        | Some target =>
            (mkWorld (SymbolQuery.set_symbol (Some target) (this w)) (util w),
             Returned tt)
        | None => (w, Failed RecursionNotReturned)
        end
    | None => (w, Returned tt)
    end.

(** [elseResolveAlias] *)
Definition elseResolveAlias (fuel : nat) : Action unit :=
  else_ (fun _ => resolveQueryAlias fuel).

(** [onEach] *)
Definition onEach {T} (values : list T) (fn : T -> Action unit) : Action unit :=
  foldr (fun value rest => fn value;; rest) (mret tt) values.

(** A reference that leads somewhere: its table exists and its owners
    resolve in the map of the category. *)
Definition leadsToMap (u : SymbolUtil) (ref : MapRef) : Prop :=
  exists table,
    tableAt u (mapTable ref) = Some table
    /\ (mapOwners ref = []
        \/ is_Some (descend None (dictGet table (mapCategory ref))
                      (mapOwners ref))).

(** An addition that declares a symbol of [File] visibility. *)
Definition fileAddition : SymbolAddition :=
  mkAddition (Some (Data.mk None None None (Some File) None))
    (Some (Usage.mk (Some UDeclaration) (Some (0, 3)) None None None)).

(** * The nbtdoc checker ([packages/nbtdoc/src/checker/entry.ts]) *)

(** The checker finds the module of a document in the global category
    ["nbtdoc"].  [Segments], [identifierToSeg] and [segToIdentifier] belong
    to the binder of the package; the two functions below are embedded for
    any such conversion. *)
Section Entry.
Context {Segments : Type}.
Variable identifierToSeg : string -> Segments.
Variable segToIdentifier : Segments -> string.

(** The callback of [find] in [uriToSeg]:
    [symbol.subcategory === 'module' &&
     symbol.implementation?.some(loc => loc.uri === uri)]
    for the symbol stored under [identifier]. *)
Definition implementsModule (u : SymbolUtil) (nbtdoc : SymbolMap)
  (uri' identifier : string) : bool :=
  match mapGet nbtdoc identifier with
  | Some (symbol, _) =>
      match heap (store u) !! symbol with
      | Some s =>
          bool_decide (subcategory s = Some "module")
          && match implementation s with
             | Some locations =>
                 existsb (fun loc => bool_decide (uri loc = uri')) locations
             | None => false
             end
      | None => false
      end
  | None => false
  end.

(** [uriToSeg]: an identifier that is the empty string is falsy. *)
Definition uriToSeg (uri' : string) (u : SymbolUtil) : option Segments :=
  let nbtdoc := default map_empty (dictGet (global u) "nbtdoc") in
  match List.find (implementsModule u nbtdoc uri') (mapKeys nbtdoc) with
  | Some identifier =>
      if truthy identifier then Some (identifierToSeg identifier) else None
  | None => None
  end.

(** [segToUri] *)
Definition segToUri (seg : Segments) (u : SymbolUtil) : option string :=
  let identifier := segToIdentifier seg in
  match dictGet (global u) "nbtdoc" ≫= (fun m => mapGet m identifier) with
  | Some (symbol, _) =>
      uri <$> ((heap (store u) !! symbol ≫= implementation) ≫= head)
  | None => None
  end.
End Entry.

(** A module implemented by two documents, and a [SymbolUtil] that holds
    it. *)
Definition moduleSymbol : Symbol :=
  mkSymbol "nbtdoc" "::minecraft" None (Some "module") None None None None
    None None
    (Some [mkLocation "file:///minecraft/mod.nbtdoc" None None false None None;
           mkLocation "file:///minecraft.nbtdoc" None None false None None])
    None None.

Definition moduleUtil : SymbolUtil :=
  mkUtil [("nbtdoc", map_entry "::minecraft" 0 None map_empty)] ∅ []
    (mkStore [moduleSymbol] []) false.

(** * Properties *)

(** ** Alias resolution *)

Section ResolveAlias.
Variable h : Heap.

Lemma followAlias_step n a b :
  aliasOfAt h a = Some b -> followAlias h (S n) a = followAlias h n b.
Proof. intros Hab. simpl. now rewrite Hab. Qed.

Lemma followAlias_end n a :
  aliasOfAt h a = None -> followAlias h (S n) a = None.
Proof. intros Ha. simpl. now rewrite Ha. Qed.

Lemma followAlias_add n m a :
  followAlias h (n + m) a = followAlias h n a ≫= followAlias h m.
Proof.
  revert a. induction n as [|n IH]; intros a; [reflexivity|].
  simpl. destruct (aliasOfAt h a); [apply IH|reflexivity].
Qed.

(** Following links is deterministic, so a chain has one end at most. *)
Lemma aliasFixedPoint_unique s t t' :
  aliasFixedPoint h s t -> aliasFixedPoint h s t' -> t' = t.
Proof.
  intros [[n Hn] Ht] [[m Hm] Ht']. revert s m Hn Hm.
  induction n as [|n IH]; intros s m Hn Hm.
  - simpl in Hn. injection Hn as ->. destruct m as [|m].
    + simpl in Hm. now injection Hm.
    + rewrite followAlias_end in Hm by assumption. discriminate.
  - destruct (aliasOfAt h s) as [b|] eqn:Hs.
    + rewrite (followAlias_step _ _ _ Hs) in Hn.
      destruct m as [|m].
      * simpl in Hm. injection Hm as <-. congruence.
      * rewrite (followAlias_step _ _ _ Hs) in Hm. eauto.
    + rewrite followAlias_end in Hn by assumption. discriminate.
Qed.

(** Enough fuel lets the recursion reach the end of the chain. *)
Lemma resolveAlias_reaches n s t :
  followAlias h n s = Some t -> aliasOfAt h t = None ->
  forall fuel, n < fuel -> resolveAlias fuel h s = Some t.
Proof.
  revert s. induction n as [|n IH]; intros s Hn Ht fuel Hfuel.
  - simpl in Hn. injection Hn as ->. destruct fuel; [lia|].
    simpl. now rewrite Ht.
  - destruct fuel as [|fuel]; [lia|]. simpl in *.
    destruct (aliasOfAt h s) as [b|]; [|discriminate].
    apply IH; [assumption..|lia].
Qed.

Lemma aliasChainFinite_end s :
  aliasChainFinite h s -> exists t, aliasFixedPoint h s t.
Proof.
  induction 1 as [s _ IH].
  destruct (aliasOfAt h s) as [b|] eqn:Hs.
  - destruct (IH b Hs) as (t & [n Hn] & Ht).
    exists t. split; [|assumption].
    exists (S n). now rewrite (followAlias_step _ _ _ Hs).
  - exists s. split; [now exists 0|assumption].
Qed.

(** On a cycle every symbol met lies on the cycle. *)
Lemma aliasCycle_next s b :
  aliasCycle h s -> aliasOfAt h s = Some b -> aliasCycle h b.
Proof.
  intros [n Hn] Hs. exists n.
  rewrite (followAlias_step _ _ _ Hs) in Hn.
  replace (S n) with (n + 1) by lia.
  rewrite followAlias_add, Hn. simpl. now rewrite Hs.
Qed.

Lemma aliasCycle_is_alias s : aliasCycle h s -> is_Some (aliasOfAt h s).
Proof.
  intros [n Hn]. simpl in Hn. destruct (aliasOfAt h s); [eauto|discriminate].
Qed.

Lemma resolveAlias_cycle fuel s :
  aliasCycle h s -> resolveAlias fuel h s = None.
Proof.
  revert s. induction fuel as [|fuel IH]; intros s Hc; [reflexivity|].
  simpl. destruct (aliasCycle_is_alias s Hc) as [b Hb]. rewrite Hb.
  apply IH. eapply aliasCycle_next; eassumption.
Qed.
End ResolveAlias.

(** C9. For a symbol whose chain of [relations.aliasOf] links is finite and
    acyclic, [resolveAlias] returns (with any sufficient recursion depth) the
    fixed point of the chain: the unique symbol reached by following the
    links that has no [aliasOf] relation itself.  For a symbol on an alias
    cycle, direct or mutual, the recursion returns at no depth. *)
Theorem resolveAlias_fixed_point (h : Heap) (s : addr) :
  (aliasChainFinite h s ->
   exists t,
     aliasFixedPoint h s t
     /\ (forall t', aliasFixedPoint h s t' -> t' = t)
     /\ exists depth, forall fuel, depth < fuel -> resolveAlias fuel h s = Some t)
  /\ (aliasCycle h s -> forall fuel, resolveAlias fuel h s = None).
Proof.
  split.
  - intros Hfin. destruct (aliasChainFinite_end h s Hfin) as [t Ht].
    exists t. split; [assumption|]. split.
    + intros t' Ht'. eapply aliasFixedPoint_unique; eassumption.
    + destruct Ht as [[n Hn] Hend]. exists n. intros fuel Hfuel.
      eapply resolveAlias_reaches; eassumption.
  - intros Hc fuel. now apply resolveAlias_cycle.
Qed.

Lemma resolveAlias_fixed_point_witness :
  (exists t,
     aliasFixedPoint aliasChainHeap 2 t
     /\ (forall t', aliasFixedPoint aliasChainHeap 2 t' -> t' = t)
     /\ exists depth,
         forall fuel, depth < fuel -> resolveAlias fuel aliasChainHeap 2 = Some t)
  /\ (forall fuel, resolveAlias fuel aliasCycleHeap 0 = None).
Proof.
  split.
  - apply (resolveAlias_fixed_point aliasChainHeap 2).
    constructor. intros a Ha. compute in Ha. injection Ha as <-.
    constructor. intros b Hb. compute in Hb. injection Hb as <-.
    constructor. intros c Hc. compute in Hc. discriminate.
  - apply (resolveAlias_fixed_point aliasCycleHeap 0).
    exists 1. reflexivity.
Defined.

(** ** Lookup *)

Section LookupTables.
Variables (category : string) (path : list string).

(** Once a parent symbol or a map is remembered, the loop can only replace
    it by the result of a table that holds the leaf. *)
Lemma lookupTablesLoop_remembered tables parentSymbol map :
  notNull parentSymbol || notNull map = true ->
  lookupTablesLoop tables category path parentSymbol map =
  match List.find resultFound
          (List.map (fun table => lookupTable table category path) tables) with
  | Some r => r
  | None => LookupResult.mk parentSymbol map None
  end.
Proof.
  intros Hrem. induction tables as [|table outer IH]; [reflexivity|].
  simpl. unfold resultFound at 1.
  destruct (LookupResult.symbol (lookupTable table category path)) eqn:Hsym;
    simpl; [reflexivity|].
  rewrite <- negb_orb, Hrem. simpl. apply IH.
Qed.

Lemma lookupTablesLoop_fresh tables :
  lookupTablesLoop tables category path None None =
  let results := List.map (fun table => lookupTable table category path) tables in
  match List.find resultFound results with
  | Some r => r
  | None =>
      match List.find resultHasHandle results with
      | Some r =>
          LookupResult.mk (LookupResult.parentSymbol r) (LookupResult.map r) None
      | None => LookupResult.mk None None None
      end
  end.
Proof.
  induction tables as [|table outer IH]; [reflexivity|].
  simpl. unfold resultFound at 1.
  destruct (LookupResult.symbol (lookupTable table category path)) eqn:Hsym;
    simpl; [reflexivity|].
  fold (resultHasHandle (lookupTable table category path)).
  destruct (resultHasHandle (lookupTable table category path)) eqn:Hh.
  - rewrite lookupTablesLoop_remembered by exact Hh. reflexivity.
  - exact IH.
Qed.
End LookupTables.

(** C2 (amended). [lookupTables] visits the tables from the most deeply nested
    to the least nested and returns the result of the first one in which the
    leaf symbol is found; only when no table holds the leaf does it hand back,
    with no symbol, the parent symbol and enclosing map of the first table
    whose own lookup yields either. *)
Theorem lookupTables_by_leaf (tables : list SymbolTable) (category : string)
  (path : list string) :
  lookupTables tables category path = lookupTablesByLeaf tables category path.
Proof.
  unfold lookupTables, lookupTablesByLeaf, lookupResults.
  rewrite lookupTablesLoop_fresh. reflexivity.
Qed.

(** C2 as stated fails: the file scope contains the part [a] of the path
    [a.b] and is visited first, yet the result comes from the global table,
    where the leaf [b] is found. *)
Lemma lookupTables_not_by_any_part :
  containsPathPart "type" ["a"; "b"] shadowFrame = true
  /\ lookupTables [shadowGlobal; shadowFrame] "type" ["a"; "b"]
     <> lookupTablesByAnyPart [shadowGlobal; shadowFrame] "type" ["a"; "b"].
Proof. split; [reflexivity|]. vm_compute. discriminate. Qed.

Lemma lookupTablesLoop_no_path_remembered tables category map :
  lookupTablesLoop tables category [] None (Some map) =
  LookupResult.mk None (Some map) None.
Proof. induction tables as [|table outer IH]; [reflexivity|exact IH]. Qed.

Lemma lookupTablesLoop_no_path tables category :
  lookupTablesLoop tables category [] None None =
  LookupResult.mk None
    (head (omap (fun table => dictGet table category) tables)) None.
Proof.
  induction tables as [|table outer IH]; [reflexivity|].
  simpl. unfold lookupTable. simpl.
  destruct (dictGet table category) as [m|]; simpl.
  - apply lookupTablesLoop_no_path_remembered.
  - exact IH.
Qed.



(** ** Field preservation *)

Section Keeps.
Context {A : Type} (proj : Symbol -> A).

Lemma keeps_id : keeps proj (fun st => st).
Proof. intros st a. reflexivity. Qed.

Lemma keeps_compose f g : keeps proj f -> keeps proj g ->
  keeps proj (fun st => g (f st)).
Proof. intros Hf Hg st a. now rewrite Hg, Hf. Qed.

Lemma keeps_publish e : keeps proj (publish e).
Proof. intros st a. reflexivity. Qed.

Lemma keeps_modifySymbol b g :
  (forall s, proj (g s) = proj s) -> keeps proj (modifySymbol b g).
Proof.
  intros Hg st a. unfold modifySymbol. simpl.
  destruct (decide (b = a)) as [->|Hne].
  - rewrite list_lookup_alter_eq. destruct (heap st !! a); simpl; [|reflexivity].
    now rewrite Hg.
  - now rewrite list_lookup_alter_ne.
Qed.

Lemma keeps_foldl {B} (f : Store -> B -> Store) (l : list B) :
  (forall b, keeps proj (fun st => f st b)) ->
  keeps proj (fun st => foldl f st l).
Proof.
  intros Hf. induction l as [|b l IH]; intros st a; [reflexivity|].
  simpl. rewrite IH. apply Hf.
Qed.

(** A view that does not read [aliasAmount] is blind to the counters. *)
Hypothesis proj_aliasAmount : forall v s, proj (set_aliasAmount v s) = proj s.

Lemma keeps_onSymbolAliasCreated t : keeps proj (onSymbolAliasCreated t).
Proof. apply keeps_modifySymbol. intros s. apply proj_aliasAmount. Qed.

Lemma keeps_onSymbolAliasRemoved t : keeps proj (onSymbolAliasRemoved t).
Proof.
  apply keeps_modifySymbol. intros s. unfold decrementAliasAmount.
  destruct (aliasAmount s); [apply proj_aliasAmount|reflexivity].
Qed.

Lemma keeps_trigger e : keeps proj (trigger e).
Proof.
  intros st a. unfold trigger.
  destruct e; try reflexivity.
  - destruct (aliasOfAt _ _); [|reflexivity].
    now rewrite keeps_onSymbolAliasRemoved.
  - now rewrite keeps_onSymbolAliasCreated.
  - now rewrite keeps_onSymbolAliasRemoved.
Qed.

(** A view that reads neither [relations] nor [aliasAmount] is blind to the
    loop over the relations of an addition. *)
Hypothesis proj_relations : forall v s, proj (set_relations v s) = proj s.

Lemma keeps_amendRelation path symbol rel :
  keeps proj (fun st => amendRelation path symbol st rel).
Proof.
  intros st a. destruct rel as [relationship target]. unfold amendRelation.
  rewrite keeps_modifySymbol by (intros; apply proj_relations).
  destruct (decide (relationship = "aliasOf")); [|reflexivity].
  destruct (decide (_ = _)); [reflexivity|].
  rewrite keeps_trigger. destruct (aliasOfAt _ _); [|reflexivity].
  apply keeps_trigger.
Qed.
End Keeps.


Lemma keeps_lookup {A} (proj : Symbol -> A) f st a s :
  keeps proj f -> heap st !! a = Some s ->
  exists s', heap (f st) !! a = Some s' /\ proj s' = proj s.
Proof.
  intros Hf Hs. specialize (Hf st a). rewrite Hs in Hf.
  destruct (heap (f st) !! a) as [s'|]; [|discriminate].
  exists s'. split; [reflexivity|]. now injection Hf.
Qed.

Lemma modifySymbol_lookup a g st s :
  heap st !! a = Some s -> heap (modifySymbol a g st) !! a = Some (g s).
Proof.
  intros Hs. unfold modifySymbol. simpl.
  now rewrite list_lookup_alter_eq, Hs.
Qed.

(** The loop over the relations of an addition, with the [??=] before it. *)
Lemma keeps_relations_step {A} (proj : Symbol -> A) path symbol rels :
  (forall v s, proj (set_aliasAmount v s) = proj s) ->
  (forall v s, proj (set_relations v s) = proj s) ->
  keeps proj (fun st =>
    foldl (amendRelation path symbol)
      (modifySymbol symbol
         (fun s => set_relations (Some (default [] (relations s))) s) st) rels).
Proof.
  intros Ha Hr.
  apply (keeps_compose proj
           (modifySymbol symbol
              (fun s => set_relations (Some (default [] (relations s))) s))
           (fun st => foldl (amendRelation path symbol) st rels)).
  - apply keeps_modifySymbol. intros s. apply Hr.
  - apply keeps_foldl. intros rel. now apply keeps_amendRelation.
Qed.

Lemma amendSymbolMetadata_unfold path symbol d st :
  amendSymbolMetadata path symbol (Some d) st =
  let st := amendBeforeVisibility path symbol d st in
  match Data.visibility d with
  | Some v =>
      let old := heap st !! symbol ≫= visibility in
      if bool_decide (old = Some v)
         || (inGlobalTable old && inGlobalTable (Some v))
      then (amendVisibilityRestriction symbol d
              (modifySymbol symbol (set_visibility (Some v)) st), Normal tt)
      else (st, Throw (CannotChangeVisibility old v))
  | None => (amendVisibilityRestriction symbol d st, Normal tt)
  end.
Proof. reflexivity. Qed.

Lemma amendBeforeVisibility_keeps {A} (proj : Symbol -> A) path symbol d :
  (forall v s, proj (set_aliasAmount v s) = proj s) ->
  (forall v s, proj (set_relations v s) = proj s) ->
  (forall v s, proj (set_desc v s) = proj s) ->
  (forall v s, proj (set_subcategory v s) = proj s) ->
  keeps proj (amendBeforeVisibility path symbol d).
Proof.
  intros Ha Hr Hd Hs st a. unfold amendBeforeVisibility.
  set (st1 := match Data.desc d with
              | Some v => modifySymbol symbol (set_desc (Some v)) st
              | None => st
              end).
  assert (H1 : proj <$> heap st1 !! a = proj <$> heap st !! a).
  { subst st1. destruct (Data.desc d); [|reflexivity].
    apply keeps_modifySymbol. intros s0. apply Hd. }
  set (st2 := match Data.relations d with
              | Some (rel :: rels) => _
              | _ => st1
              end).
  assert (H2 : proj <$> heap st2 !! a = proj <$> heap st1 !! a).
  { subst st2. destruct (Data.relations d) as [[|rel rels]|]; try reflexivity.
    exact (keeps_relations_step proj path symbol (rel :: rels) Ha Hr st1 a). }
  rewrite <- H1, <- H2.
  destruct (Data.subcategory d); [|reflexivity].
  apply keeps_modifySymbol. intros s0. apply Hs.
Qed.

(** The test of [amendSymbolMetadata] accepts a visibility exactly when it
    selects the storage tier of the current one. *)
Lemma visibility_accepted_iff old v :
  bool_decide (old = Some v) || (inGlobalTable old && inGlobalTable (Some v))
  = bool_decide (storageTier (Some v) = storageTier old).
Proof. destruct old as [[]|], v; reflexivity. Qed.

(** C3 (amended). When an [enter] or [amend] reaches an existing symbol with
    an addition whose visibility selects another storage tier than the
    symbol's current visibility, the call throws; the symbol keeps its
    category, identifier, visibility, visibility restriction and every usage
    location, and the map is not changed.  When the addition carries no
    description, no subcategory and no relation, nothing at all is changed. *)
Theorem enterMap_visibility_tier_change
  (map : SymbolMap) (category : string) (path : list string)
  (identifier : string) (addition : SymbolAddition) (doc : TextDocument.t)
  (isUriBinding : bool) (st : Store)
  (target : addr) (members : option SymbolMap) (d : Data.t)
  (v : SymbolVisibility) (s : Symbol) :
  mapGet map identifier = Some (target, members) ->
  heap st !! target = Some s ->
  data addition = Some d ->
  Data.visibility d = Some v ->
  storageTier (Some v) <> storageTier (visibility s) ->
  exists st' s',
    enterMap map category path identifier addition doc isUriBinding st
    = (map, st', Throw (CannotChangeVisibility (visibility s) v))
    /\ heap st' !! target = Some s'
    /\ lifecycleView s' = lifecycleView s
    /\ (Data.desc d = None -> Data.subcategory d = None ->
        default [] (Data.relations d) = [] -> st' = st).
Proof.
  intros Hget Hs Hd Hv Htier.
  destruct (keeps_lookup lifecycleView (amendBeforeVisibility path target d)
              st target s) as (s' & Hs' & Hview); [|assumption|].
  { apply amendBeforeVisibility_keeps; reflexivity. }
  exists (amendBeforeVisibility path target d st), s'.
  assert (Hvis : visibility s' = visibility s).
  { unfold lifecycleView in Hview. congruence. }
  split; [|split; [assumption|split; [assumption|]]].
  - unfold enterMap, amendSymbol. rewrite Hget, Hd.
    rewrite amendSymbolMetadata_unfold. cbv zeta. rewrite Hv, Hs'. simpl.
    rewrite visibility_accepted_iff, Hvis.
    now rewrite bool_decide_eq_false_2.
  - intros Hdesc Hsub Hrel. unfold amendBeforeVisibility.
    rewrite Hdesc, Hsub.
    destruct (Data.relations d) as [[|rel rels]|]; try reflexivity.
    discriminate.
Qed.

Lemma enterMap_visibility_tier_change_witness :
  exists st' s',
    enterMap fooMap "type" ["Foo"] "Foo" toBlockAddition fooDocument false
      fooStore
    = (fooMap, st', Throw (CannotChangeVisibility (Some Public) Block))
    /\ heap st' !! 0 = Some s'
    /\ lifecycleView s' = lifecycleView fooSymbol.
Proof.
  destruct (enterMap_visibility_tier_change fooMap "type" ["Foo"] "Foo"
              toBlockAddition fooDocument false fooStore 0 None
              (Data.mk (Some "new") None None (Some Block) None) Block fooSymbol)
    as (st' & s' & Hrun & Hs' & Hview & _).
  - reflexivity.
  - reflexivity.
  - reflexivity.
  - reflexivity.
  - discriminate.
  - exists st', s'. split; [exact Hrun|]. split; [exact Hs'|exact Hview].
Defined.

(** C3 as stated fails: the rejected change of [Foo] from [Public] to [Block]
    has already replaced the description of the symbol. *)
Lemma enterMap_visibility_tier_change_modifies :
  let '(_, st', completion) :=
    enterMap fooMap "type" ["Foo"] "Foo" toBlockAddition fooDocument false
      fooStore in
  completion = Throw (CannotChangeVisibility (Some Public) Block)
  /\ desc <$> heap fooStore !! 0 = Some (Some "old")
  /\ desc <$> heap st' !! 0 = Some (Some "new").
Proof. vm_compute. auto. Qed.

(** The metadata of the symbol after the first three steps. *)
Lemma amendBeforeVisibility_lookup path symbol d st s :
  heap st !! symbol = Some s ->
  exists s1,
    heap (amendBeforeVisibility path symbol d st) !! symbol = Some s1
    /\ metadataView s1 =
       (match Data.desc d with Some x => Some x | None => desc s end,
        match Data.subcategory d with Some x => Some x | None => subcategory s end,
        visibility s, visibilityRestriction s).
Proof.
  intros Hs. unfold amendBeforeVisibility.
  set (st1 := match Data.desc d with
              | Some v => modifySymbol symbol (set_desc (Some v)) st
              | None => st
              end).
  assert (H1 : exists sa, heap st1 !! symbol = Some sa
                 /\ metadataView sa =
                    (match Data.desc d with Some x => Some x | None => desc s end,
                     subcategory s, visibility s, visibilityRestriction s)).
  { subst st1. destruct (Data.desc d) as [x|].
    - eexists. split; [apply modifySymbol_lookup; eassumption|reflexivity].
    - exists s. split; [assumption|reflexivity]. }
  destruct H1 as (sa & Hsa & Hva).
  set (st2 := match Data.relations d with
              | Some (rel :: rels) => _
              | _ => st1
              end).
  assert (H2 : exists sb, heap st2 !! symbol = Some sb
                 /\ metadataView sb = metadataView sa).
  { subst st2. destruct (Data.relations d) as [[|rel rels]|];
      try (exists sa; split; [assumption|reflexivity]).
    apply (keeps_lookup metadataView
             (fun st => foldl (amendRelation path symbol)
                          (modifySymbol symbol
                             (fun s => set_relations
                                         (Some (default [] (relations s))) s) st)
                          (rel :: rels))); [|assumption].
    apply keeps_relations_step; reflexivity. }
  destruct H2 as (sb & Hsb & Hvb).
  destruct (Data.subcategory d) as [x|].
  - eexists. split; [apply modifySymbol_lookup; eassumption|].
    unfold metadataView in *. simpl. congruence.
  - exists sb. split; [assumption|]. congruence.
Qed.

(** The merge of [amendSymbolMetadata] for a visibility of the same tier. *)
Lemma amendSymbolMetadata_merge
  (path : list string) (symbol : addr) (d : Data.t) (st : Store) (s : Symbol) :
  heap st !! symbol = Some s ->
  (forall v, Data.visibility d = Some v ->
             storageTier (Some v) = storageTier (visibility s)) ->
  exists st' s',
    amendSymbolMetadata path symbol (Some d) st = (st', Normal tt)
    /\ heap st' !! symbol = Some s'
    /\ desc s' = match Data.desc d with Some x => Some x | None => desc s end
    /\ subcategory s' =
       match Data.subcategory d with Some x => Some x | None => subcategory s end
    /\ visibility s' =
       match Data.visibility d with Some x => Some x | None => visibility s end
    /\ visibilityRestriction s' =
       match Data.visibilityRestriction d with
       | Some (r :: rs) => Some (default [] (visibilityRestriction s) ++ r :: rs)
       | _ => visibilityRestriction s
       end.
Proof.
  intros Hs Htier.
  destruct (amendBeforeVisibility_lookup path symbol d st s Hs)
    as (s1 & Hs1 & Hview).
  unfold metadataView in Hview.
  injection Hview as Hdesc1 Hsub1 Hvis1 Hres1.
  rewrite amendSymbolMetadata_unfold. cbv zeta.
  set (st1 := amendBeforeVisibility path symbol d st) in *.
  assert (Hrestrict : forall st2 s2,
    heap st2 !! symbol = Some s2 ->
    exists s',
      heap (amendVisibilityRestriction symbol d st2) !! symbol = Some s'
      /\ desc s' = desc s2 /\ subcategory s' = subcategory s2
      /\ visibility s' = visibility s2
      /\ visibilityRestriction s' =
         match Data.visibilityRestriction d with
         | Some (r :: rs) =>
             Some (default [] (visibilityRestriction s2) ++ r :: rs)
         | _ => visibilityRestriction s2
         end).
  { intros st2 s2 Hs2. unfold amendVisibilityRestriction.
    destruct (Data.visibilityRestriction d) as [[|r rs]|];
      try (exists s2; repeat split; assumption).
    eexists. split; [apply modifySymbol_lookup; eassumption|]. repeat split. }
  destruct (Data.visibility d) as [v|] eqn:Hv.
  - rewrite Hs1. simpl. rewrite visibility_accepted_iff, Hvis1.
    rewrite bool_decide_eq_true_2 by now apply Htier.
    destruct (Hrestrict (modifySymbol symbol (set_visibility (Some v)) st1)
                (set_visibility (Some v) s1))
      as (s' & Hs' & Hd & Hsub & Hvis & Hres);
      [apply modifySymbol_lookup; eassumption|].
    eexists _, s'. split; [reflexivity|]. split; [assumption|].
    simpl in *. rewrite Hd, Hsub, Hvis, Hres, Hdesc1, Hsub1, Hres1. auto.
  - destruct (Hrestrict st1 s1 Hs1) as (s' & Hs' & Hd & Hsub & Hvis & Hres).
    eexists _, s'. split; [reflexivity|]. split; [assumption|].
    rewrite Hd, Hsub, Hvis, Hres, Hdesc1, Hsub1, Hvis1, Hres1. auto.
Qed.

Lemma amendSymbolUsage_keeps_metadata path symbol addition doc isUriBinding :
  keeps metadataView (amendSymbolUsage path symbol addition doc isUriBinding).
Proof.
  intros st a. unfold amendSymbolUsage. destruct addition as [u|]; [|reflexivity].
  rewrite keeps_trigger by reflexivity.
  apply keeps_modifySymbol. reflexivity.
Qed.

(** C6 (amended). When an [enter] or [amend] reaches an existing symbol and
    the visibility of the addition, if any, selects the storage tier of the
    current one, the call succeeds: a description, a subcategory and a
    visibility present in the addition overwrite those of the symbol, and are
    kept otherwise; a non-empty visibility restriction of the addition is
    appended to the restriction list of the symbol. *)
Theorem enterMap_merges_metadata
  (map : SymbolMap) (category : string) (path : list string)
  (identifier : string) (addition : SymbolAddition) (doc : TextDocument.t)
  (isUriBinding : bool) (st : Store)
  (target : addr) (members : option SymbolMap) (s : Symbol) :
  mapGet map identifier = Some (target, members) ->
  heap st !! target = Some s ->
  (forall v, data addition ≫= Data.visibility = Some v ->
             storageTier (Some v) = storageTier (visibility s)) ->
  exists st' s',
    enterMap map category path identifier addition doc isUriBinding st
    = (map, st', Normal target)
    /\ heap st' !! target = Some s'
    /\ desc s' = overwrite (data addition ≫= Data.desc) (desc s)
    /\ subcategory s' =
       overwrite (data addition ≫= Data.subcategory) (subcategory s)
    /\ visibility s' =
       overwrite (data addition ≫= Data.visibility) (visibility s)
    /\ visibilityRestriction s' =
       match data addition ≫= Data.visibilityRestriction with
       | Some (r :: rs) => Some (default [] (visibilityRestriction s) ++ r :: rs)
       | _ => visibilityRestriction s
       end.
Proof.
  intros Hget Hs Htier. unfold enterMap, amendSymbol. rewrite Hget.
  assert (Hmeta : exists st1 s1,
    amendSymbolMetadata path target (data addition) st = (st1, Normal tt)
    /\ heap st1 !! target = Some s1
    /\ metadataView s1 =
       (overwrite (data addition ≫= Data.desc) (desc s),
        overwrite (data addition ≫= Data.subcategory) (subcategory s),
        overwrite (data addition ≫= Data.visibility) (visibility s),
        match data addition ≫= Data.visibilityRestriction with
        | Some (r :: rs) =>
            Some (default [] (visibilityRestriction s) ++ r :: rs)
        | _ => visibilityRestriction s
        end)).
  { destruct (data addition) as [d|]; simpl in *.
    - destruct (amendSymbolMetadata_merge path target d st s Hs Htier)
        as (st1 & s1 & Hrun & Hs1 & Hd & Hsub & Hvis & Hres).
      exists st1, s1. split; [exact Hrun|]. split; [exact Hs1|].
      unfold metadataView, overwrite. now rewrite Hd, Hsub, Hvis, Hres.
    - exists st, s. repeat split. exact Hs. }
  destruct Hmeta as (st1 & s1 & Hrun & Hs1 & Hview). rewrite Hrun.
  destruct (keeps_lookup metadataView
              (amendSymbolUsage path target (usage addition) doc isUriBinding)
              st1 target s1) as (s2 & Hs2 & Hview2);
    [apply amendSymbolUsage_keeps_metadata|exact Hs1|].
  eexists _, s2. split; [reflexivity|].
  split.
  - unfold trigger. simpl. exact Hs2.
  - rewrite Hview in Hview2. unfold metadataView in Hview2.
    injection Hview2 as -> -> -> ->. auto.
Qed.

Lemma enterMap_merges_metadata_witness :
  exists st' s',
    enterMap fooMap "type" ["Foo"] "Foo" restrictAddition fooDocument false
      fooStore
    = (fooMap, st', Normal 0)
    /\ heap st' !! 0 = Some s'
    /\ desc s' = Some "old"
    /\ visibilityRestriction s' = Some ["root/a"; "root/b"].
Proof.
  destruct (enterMap_merges_metadata fooMap "type" ["Foo"] "Foo"
              restrictAddition fooDocument false fooStore 0 None fooSymbol)
    as (st' & s' & Hrun & Hs' & Hd & _ & _ & Hres).
  - reflexivity.
  - reflexivity.
  - intros v Hv. discriminate Hv.
  - exists st', s'. repeat split; assumption.
Defined.

(** C6 as stated fails for the visibility restriction: the restriction of the
    addition does not replace the list of the symbol, it extends it. *)
Lemma enterMap_restriction_not_overwritten :
  let '(_, st', completion) :=
    enterMap fooMap "type" ["Foo"] "Foo" restrictAddition fooDocument false
      fooStore in
  completion = Normal 0
  /\ data restrictAddition ≫= Data.visibilityRestriction = Some ["root/b"]
  /\ visibilityRestriction <$> heap st' !! 0 = Some (Some ["root/a"; "root/b"])
  /\ visibilityRestriction <$> heap st' !! 0
     <> Some (data restrictAddition ≫= Data.visibilityRestriction).
Proof. vm_compute. repeat split; discriminate. Qed.

(** ** Order of the events of a creation *)

(** C5 (amended). When [enter] reaches a map with no symbol under the
    identifier, the new symbol object receives the usage location first and
    the location-created event is published (when the addition carries a
    usage); only then is the symbol inserted into the map and the
    symbol-created event published. *)
Theorem enterMap_creation_order
  (map : SymbolMap) (category : string) (path : list string)
  (identifier : string) (addition : SymbolAddition) (doc : TextDocument.t)
  (isUriBinding : bool) (st : Store) :
  mapGet map identifier = None ->
  let symbol := length (heap st) in
  exists st',
    enterMap map category path identifier addition doc isUriBinding st
    = (mapSet map identifier symbol, st', Normal symbol)
    /\ published st' =
       published st
       ++ match usage addition with
          | Some u =>
              [symbolLocationCreated path symbol (usageType u)
                 (usageLocation u doc isUriBinding)]
          | None => []
          end
       ++ [symbolCreated path symbol]
    /\ forall u, usage addition = Some u ->
         heap st' !! symbol ≫= usageGet (usageType u)
         = Some [usageLocation u doc isUriBinding].
Proof.
  intros Hget symbol. unfold enterMap, createSymbol. rewrite Hget.
  eexists. split; [reflexivity|].
  destruct (usage addition) as [u|]; simpl.
  - split.
    + now rewrite <- app_assoc.
    + intros u' [= <-]. fold symbol.
      rewrite list_lookup_alter_eq.
      rewrite lookup_app_r by reflexivity.
      replace (symbol - length (heap st)) with 0 by (subst symbol; lia).
      simpl. destruct (usageType u); reflexivity.
  - split; [reflexivity|]. intros u' [=].
Qed.

Lemma enterMap_creation_order_witness :
  exists st',
    enterMap map_empty "type" ["Foo"] "Foo" declareAddition fooDocument false
      (mkStore [] [])
    = (map_entry "Foo" 0 None map_empty, st', Normal 0)
    /\ publishedBefore isLocationCreated isSymbolCreated (published st') = true.
Proof.
  destruct (enterMap_creation_order map_empty "type" ["Foo"] "Foo"
              declareAddition fooDocument false (mkStore [] []))
    as (st' & Hrun & Hpub & _).
  - reflexivity.
  - exists st'. split; [exact Hrun|]. rewrite Hpub. reflexivity.
Defined.

(** C5 as stated fails: on an empty map, the symbol-created event is not
    published before the location-created event. *)
Lemma enterMap_created_not_first :
  let '(_, st', _) :=
    enterMap map_empty "type" ["Foo"] "Foo" declareAddition fooDocument false
      (mkStore [] []) in
  publishedBefore isSymbolCreated isLocationCreated (published st') = false.
Proof. vm_compute. reflexivity. Qed.

(** ** Blocks *)

Lemma stackAt_setArray r stack u :
  r < length (arrays u) -> stackAt (setArray r stack u) r = stack.
Proof.
  intros Hr. unfold stackAt, setArray. simpl.
  now rewrite list_lookup_insert_eq.
Qed.

Lemma stackAt_valid u r : 1 <= length (stackAt u r) -> r < length (arrays u).
Proof.
  unfold stackAt. intros Hlen.
  destruct (arrays u !! r) eqn:Hr; [now apply lookup_lt_Some in Hr|].
  simpl in Hlen. lia.
Qed.

Lemma length_removelast {A} (l : list A) : length (removelast l) = length l - 1.
Proof.
  induction l as [|x [|y l] IH]; try reflexivity.
  change (removelast (x :: y :: l)) with (x :: removelast (y :: l)).
  simpl length in *. rewrite IH. lia.
Qed.

(** C7 (amended). [block(uri, fn)] pushes exactly one new frame onto the
    stack of the document before it runs [fn].  When [fn] exits, normally or
    by an error, with more than one frame in that stack, the last frame is
    popped and the block completes as [fn] did; so when [fn] leaves the stack
    with as many frames as it received, the length after the block is the
    length before.  When [fn] exits with at most one frame left, so that the
    pop would remove frame 0, the fatal error is thrown instead and no frame
    is popped. *)
Theorem block_pushes_and_pops
  (uri : string) (callbackFn : Callback) (u u1 u2 : SymbolUtil)
  (stack : StackRef) (completion : Completion unit) :
  getStack uri u = (u1, stack) ->
  1 <= length (stackAt u1 stack) ->
  let entered := setArray stack (stackAt u1 stack ++ [[]]) u1 in
  callbackFn entered = (u2, completion) ->
  stackAt entered stack = stackAt u1 stack ++ [[]]
  /\ (length (stackAt u2 stack) <= 1 ->
      block uri callbackFn u = (u2, Throw UnableToPopBlock))
  /\ (1 < length (stackAt u2 stack) ->
      exists u',
        block uri callbackFn u = (u', completion)
        /\ stackAt u' stack = removelast (stackAt u2 stack)
        /\ (length (stackAt u2 stack) = length (stackAt entered stack) ->
            length (stackAt u' stack) = length (stackAt u1 stack))).
Proof.
  intros Hget Hlen entered Hrun.
  assert (Hentered : stackAt entered stack = stackAt u1 stack ++ [[]]).
  { apply stackAt_setArray. now apply stackAt_valid. }
  split; [exact Hentered|]. unfold block. rewrite Hget. fold entered.
  rewrite Hrun. split.
  - intros Hafter. now rewrite (leb_correct _ _ Hafter).
  - intros Hafter. rewrite leb_correct_conv by exact Hafter.
    eexists. split; [reflexivity|].
    assert (Hpop : stackAt (setArray stack (removelast (stackAt u2 stack)) u2)
                     stack = removelast (stackAt u2 stack)).
    { apply stackAt_setArray. apply stackAt_valid. lia. }
    split; [exact Hpop|].
    intros Hsame. rewrite Hpop, length_removelast, Hsame, Hentered.
    rewrite length_app. simpl. lia.
Qed.

Lemma block_pushes_and_pops_witness :
  exists u',
    block "file:///a.nbtdoc" throwingCallback tiersUtil
    = (u', Throw (Thrown "{}"))
    /\ length (stackAt u' 0) = length (stackAt tiersUtil 0).
Proof.
  destruct (block_pushes_and_pops "file:///a.nbtdoc" throwingCallback tiersUtil
              tiersUtil
              (setArray 0 (stackAt tiersUtil 0 ++ [[]]) tiersUtil)
              0 (Throw (Thrown "{}")))
    as (_ & _ & Hpop).
  - reflexivity.
  - simpl. lia.
  - reflexivity.
  - destruct Hpop as (u' & Hrun & _ & Hlen).
    + simpl. lia.
    + exists u'. split; [exact Hrun|]. apply Hlen. reflexivity.
Defined.

(** C7 as stated fails: after a callback that pushes a frame and returns, the
    stack of the document is one frame longer than before the block. *)
Lemma block_length_not_restored :
  let '(u', completion) := block "file:///a.nbtdoc" pushingCallback tiersUtil in
  completion = Normal tt
  /\ length (stackAt tiersUtil 0) = 1
  /\ length (stackAt u' 0) = 2.
Proof. vm_compute. auto. Qed.

(** ** Partial invalidation *)

Lemma usageGet_usageSet t t' v s :
  usageGet t' (usageSet t v s) = if decide (t = t') then v else usageGet t' s.
Proof. destruct t, t'; reflexivity. Qed.

Lemma usageGet_usageView t s s' :
  usageView s = usageView s' -> usageGet t s = usageGet t s'.
Proof. unfold usageView. intros [=]. destruct t; assumption. Qed.

Lemma keeps_usageAt f :
  keeps usageView f -> forall st a t, usageAt (heap (f st)) a t = usageAt (heap st) a t.
Proof.
  intros Hf st a t. specialize (Hf st a). unfold usageAt.
  destruct (heap (f st) !! a) as [s'|], (heap st !! a) as [s|];
    try discriminate; [|reflexivity].
  simpl in *. apply usageGet_usageView. congruence.
Qed.

Section RemoveLocations.
Variable predicate : SymbolLocation -> bool.

Lemma kept_kept l : keptLocations predicate (keptLocations predicate l) = keptLocations predicate l.
Proof.
  unfold keptLocations. induction l as [|x l IH]; [reflexivity|].
  simpl. destruct (negb (predicate x)) eqn:Hx; [|exact IH].
  simpl. now rewrite Hx, IH.
Qed.

Lemma kept_retracted l x : x ∈ keptLocations predicate l -> predicate x = false.
Proof.
  unfold keptLocations. rewrite list_elem_of_In, filter_In. intros [_ Hx].
  now destruct (predicate x).
Qed.

Lemma shrinks_refl h : shrinks predicate h h.
Proof. intros a t. now left. Qed.

Lemma shrinks_trans h1 h2 h3 :
  shrinks predicate h1 h2 -> shrinks predicate h2 h3 -> shrinks predicate h1 h3.
Proof.
  intros H12 H23 a t.
  destruct (H12 a t) as [E12|E12], (H23 a t) as [E23|E23];
    rewrite E23, E12; auto.
  right. destruct (usageAt h1 a t); [|reflexivity].
  simpl. f_equal. apply kept_kept.
Qed.

Lemma shrinks_retractedAt h h' a :
  shrinks predicate h h' -> retractedAt predicate h a ->
  retractedAt predicate h' a.
Proof.
  intros Hsh Hret t locs l Hlocs Hl.
  destruct (Hsh a t) as [E|E]; rewrite E in Hlocs.
  - eapply Hret; eassumption.
  - destruct (usageAt h a t) as [locs0|]; [|discriminate].
    simpl in Hlocs. injection Hlocs as <-. eapply kept_retracted, Hl.
Qed.

Lemma heap_foldl_locationRemoved path symbol type locations st :
  heap (foldl (fun st location =>
                 if predicate location
                 then trigger (symbolLocationRemoved path symbol type location) st
                 else st) st locations) = heap st.
Proof.
  revert st. induction locations as [|l locations IH]; intros st; [reflexivity|].
  simpl. rewrite IH. now destruct (predicate l).
Qed.

(** One usage list of one symbol loses its matching locations. *)
Lemma removeLocationsOfType_usageAt path symbol st type a t :
  usageAt (heap (removeLocationsOfType predicate path symbol st type)) a t =
  if decide (symbol = a /\ type = t)
  then keptLocations predicate <$> usageAt (heap st) a t
  else usageAt (heap st) a t.
Proof.
  unfold removeLocationsOfType. fold (usageAt (heap st) symbol type).
  destruct (usageAt (heap st) symbol type) as [locs|] eqn:Hlocs.
  - unfold modifySymbol. cbn [heap]. rewrite heap_foldl_locationRemoved.
    unfold usageAt in *.
    destruct (decide (symbol = a)) as [->|Hne].
    + rewrite list_lookup_alter_eq.
      destruct (heap st !! a) as [s|]; [|discriminate]. simpl in *.
      rewrite usageGet_usageSet.
      destruct (decide (type = t)) as [->|Hnt].
      * rewrite decide_True by auto. now rewrite Hlocs.
      * rewrite decide_False by tauto. reflexivity.
    + rewrite list_lookup_alter_ne by assumption.
      rewrite decide_False by tauto. reflexivity.
  - destruct (decide _) as [[-> ->]|_]; [|reflexivity]. now rewrite Hlocs.
Qed.

Lemma removeLocationsOfType_shrinks path symbol st type :
  shrinks predicate (heap st)
    (heap (removeLocationsOfType predicate path symbol st type)).
Proof.
  intros a t. rewrite removeLocationsOfType_usageAt.
  destruct (decide _); auto.
Qed.

Lemma removeLocationsOfType_retracted path symbol st type locs l :
  usageAt (heap (removeLocationsOfType predicate path symbol st type))
    symbol type = Some locs ->
  l ∈ locs -> predicate l = false.
Proof.
  rewrite removeLocationsOfType_usageAt, decide_True by auto.
  destruct (usageAt (heap st) symbol type); [|discriminate].
  simpl. intros [= <-]. apply kept_retracted.
Qed.

(** The loop over the usage types retracts every list of the symbol. *)
Lemma removeLocationsOfTypes_spec path symbol types st :
  let st' := foldl (removeLocationsOfType predicate path symbol) st types in
  shrinks predicate (heap st) (heap st')
  /\ forall t, t ∈ types ->
       forall locs l, usageAt (heap st') symbol t = Some locs -> l ∈ locs ->
                      predicate l = false.
Proof.
  revert st. induction types as [|type types IH]; intros st.
  - split; [apply shrinks_refl|]. intros t Ht. now apply elem_of_nil in Ht.
  - simpl. destruct (IH (removeLocationsOfType predicate path symbol st type))
      as [Hsh Hret].
    split.
    + eapply shrinks_trans; [apply removeLocationsOfType_shrinks|exact Hsh].
    + intros t Ht locs l Hlocs Hl.
      apply elem_of_cons in Ht as [->|Ht]; [|eapply Hret; eassumption].
      destruct (Hsh symbol type) as [E|E]; rewrite E in Hlocs.
      * eapply removeLocationsOfType_retracted; eassumption.
      * destruct (usageAt _ symbol type); [|discriminate].
        simpl in Hlocs. injection Hlocs as <-. eapply kept_retracted, Hl.
Qed.

Lemma removeLocationsFromMap_spec map path st :
  let st' := removeLocationsFromMap map predicate path st in
  shrinks predicate (heap st) (heap st')
  /\ forall a, a ∈ mapSymbols map -> retractedAt predicate (heap st') a.
Proof.
  revert path st.
  induction map as [|id a rest IHrest|id a mm rest IHmm IHrest]
    using SymbolMap_tree_ind;
    intros path st.
  - split; [apply shrinks_refl|]. intros a Ha. now apply elem_of_nil in Ha.
  - simpl.
    destruct (removeLocationsOfTypes_spec path a SymbolUsageTypes st)
      as [Hsh1 Hret1].
    destruct (IHrest path
                (foldl (removeLocationsOfType predicate path a) st
                   SymbolUsageTypes)) as [Hsh2 Hret2].
    split; [eapply shrinks_trans; eassumption|].
    intros b Hb. apply elem_of_cons in Hb as [->|Hb]; [|now apply Hret2].
    eapply shrinks_retractedAt; [exact Hsh2|].
    intros t locs l. apply Hret1. destruct t; repeat constructor.
  - simpl.
    destruct (removeLocationsOfTypes_spec path a SymbolUsageTypes st)
      as [Hsh1 Hret1].
    set (st1 := foldl (removeLocationsOfType predicate path a) st
                  SymbolUsageTypes) in *.
    destruct (IHmm (path ++ [id]) st1) as [Hsh2 Hret2].
    set (st2 := removeLocationsFromMap mm predicate (path ++ [id]) st1) in *.
    destruct (IHrest path st2) as [Hsh3 Hret3].
    split.
    { eapply shrinks_trans; [exact Hsh1|].
      eapply shrinks_trans; eassumption. }
    intros b Hb. apply elem_of_cons in Hb as [->|Hb].
    + eapply shrinks_retractedAt; [exact Hsh3|].
      eapply shrinks_retractedAt; [exact Hsh2|].
      intros t locs l. apply Hret1. destruct t; repeat constructor.
    + apply elem_of_app in Hb as [Hb|Hb]; [|now apply Hret3].
      eapply shrinks_retractedAt; [exact Hsh3|]. now apply Hret2.
Qed.

Lemma removeLocationsFromTable_spec (table : SymbolTable) st :
  let st' :=
    foldl (fun st entry => removeLocationsFromMap (snd entry) predicate [] st)
      st table in
  shrinks predicate (heap st) (heap st')
  /\ retractedIn predicate (heap st') table.
Proof.
  revert st. induction table as [|[category map] table IH]; intros st.
  - split; [apply shrinks_refl|]. intros a Ha. now apply elem_of_nil in Ha.
  - simpl. destruct (removeLocationsFromMap_spec map [] st) as [Hsh1 Hret1].
    destruct (IH (removeLocationsFromMap map predicate [] st)) as [Hsh2 Hret2].
    split; [eapply shrinks_trans; eassumption|].
    intros a Ha. unfold tableSymbols in Ha. simpl in Ha.
    apply elem_of_app in Ha as [Ha|Ha]; [|now apply Hret2].
    eapply shrinks_retractedAt; [exact Hsh2|]. now apply Hret1.
Qed.
End RemoveLocations.

(** ** Trimming *)

Section TrimKeeps.
Context {A : Type} (proj : Symbol -> A).
Hypothesis proj_aliasAmount : forall v s, proj (set_aliasAmount v s) = proj s.

(** Trimming writes no field of a symbol but [aliasAmount]. *)
Lemma trimMap_keeps map path st a :
  proj <$> heap (snd (trimMap map path st)) !! a = proj <$> heap st !! a.
Proof.
  revert path st.
  induction map as [|id b rest IHrest|id b mm rest IHmm IHrest]
    using SymbolMap_tree_ind; intros path st; [reflexivity|..];
    cbn [trimMap].
  - destruct (isTrimmableAt (heap st) b).
    + rewrite IHrest, keeps_trigger by assumption.
      destruct (aliasOfAt (heap st) b); [|reflexivity].
      apply keeps_modifySymbol. intros s. unfold decrementAliasAmount.
      destruct (aliasAmount s); [apply proj_aliasAmount|reflexivity].
    + specialize (IHrest path st).
      destruct (trimMap rest path st) as [rest' st']. exact IHrest.
  - destruct (isTrimmableAt (heap st) b).
    + rewrite IHrest, keeps_trigger by assumption.
      destruct (aliasOfAt (heap st) b); [|reflexivity].
      apply keeps_modifySymbol. intros s. unfold decrementAliasAmount.
      destruct (aliasAmount s); [apply proj_aliasAmount|reflexivity].
    + specialize (IHmm (path ++ [id]) st).
      destruct (trimMap mm (path ++ [id]) st) as [mm' st1].
      specialize (IHrest path st1).
      destruct (trimMap rest path st1) as [rest' st2].
      simpl in *. now rewrite IHrest.
Qed.

Lemma trim_keeps (table : SymbolTable) st a :
  proj <$> heap (snd (trim table st)) !! a = proj <$> heap st !! a.
Proof.
  revert st. induction table as [|[category map] table IH]; intros st;
    [reflexivity|]. simpl.
  pose proof (trimMap_keeps map [] st a) as Hmap.
  destruct (trimMap map [] st) as [map' st1].
  specialize (IH st1). destruct (trim table st1) as [table' st2].
  simpl in *. now rewrite IH.
Qed.
End TrimKeeps.

(** Trimming adds no symbol to a map. *)
Lemma trimMap_symbols map path st a :
  a ∈ mapSymbols (fst (trimMap map path st)) -> a ∈ mapSymbols map.
Proof.
  revert path st.
  induction map as [|id b rest IHrest|id b mm rest IHmm IHrest]
    using SymbolMap_tree_ind; intros path st; [auto|..]; simpl.
  - destruct (isTrimmableAt (heap st) b).
    + intros Ha. apply elem_of_cons. right. eapply IHrest, Ha.
    + specialize (IHrest path st).
      destruct (trimMap rest path st) as [rest' st']. simpl in *.
      rewrite !elem_of_cons. intros [->|Ha]; auto.
  - destruct (isTrimmableAt (heap st) b).
    + intros Ha. apply elem_of_cons. right. apply elem_of_app. right.
      eapply IHrest, Ha.
    + specialize (IHmm (path ++ [id]) st).
      destruct (trimMap mm (path ++ [id]) st) as [mm' st1].
      specialize (IHrest path st1).
      destruct (trimMap rest path st1) as [rest' st2]. simpl in *.
      rewrite !elem_of_cons, !elem_of_app. intros [->|[Ha|Ha]]; auto.
      right. left. apply IHmm. now destruct (mapIsEmpty mm').
Qed.

Lemma trim_symbols (table : SymbolTable) st a :
  a ∈ tableSymbols (fst (trim table st)) -> a ∈ tableSymbols table.
Proof.
  revert st. induction table as [|[category map] table IH]; intros st;
    [auto|]. simpl.
  pose proof (trimMap_symbols map [] st a) as Hmap.
  destruct (trimMap map [] st) as [map' st1].
  specialize (IH st1). destruct (trim table st1) as [table' st2].
  unfold tableSymbols in *. simpl in *.
  rewrite elem_of_app. destruct (mapIsEmpty map'); simpl; [auto|].
  rewrite elem_of_app. intros [Ha|Ha]; auto.
Qed.

(** After [removeLocations], no location of the table matches the
    predicate. *)
Lemma removeLocations_retracted predicate (table : SymbolTable) st :
  retractedIn predicate (heap (snd (removeLocations table predicate st)))
    (fst (removeLocations table predicate st)).
Proof.
  unfold removeLocations.
  destruct (removeLocationsFromTable_spec predicate table st) as [_ Hret].
  set (st1 := foldl _ st table) in *.
  intros a Ha t locs l Hlocs Hl.
  apply trim_symbols in Ha.
  unfold usageAt in Hlocs.
  pose proof (trim_keeps usageView (fun _ _ => eq_refl) table st1 a) as Hkeep.
  apply (Hret a Ha t locs l); [|exact Hl].
  unfold usageAt.
  destruct (heap (snd (trim table st1)) !! a) as [s'|]; [|discriminate].
  destruct (heap st1 !! a) as [s|]; [|discriminate].
  simpl in *. rewrite <- Hlocs. apply usageGet_usageView. congruence.
Qed.

(** ** URI binding *)


(** ** Idempotence of trimming *)

Lemma keeps_aliasOfAt f st a :
  keeps aliasOf f -> aliasOfAt (heap (f st)) a = aliasOfAt (heap st) a.
Proof.
  intros Hf. specialize (Hf st a). unfold aliasOfAt.
  destruct (heap (f st) !! a), (heap st !! a); simpl in *; congruence.
Qed.

Lemma keeps_decrement {A} (proj : Symbol -> A) t :
  (forall v s, proj (set_aliasAmount v s) = proj s) ->
  keeps proj (modifySymbol t decrementAliasAmount).
Proof.
  intros Hproj. apply keeps_modifySymbol. intros s.
  unfold decrementAliasAmount. destruct (aliasAmount s); [apply Hproj|].
  reflexivity.
Qed.

(** A decrement leaves the store as it is (the target has no counter) or
    takes one from the sum of the counters. *)
Lemma decrement_cases t (h : Heap) :
  alter decrementAliasAmount t h = h
  \/ amountSum (alter decrementAliasAmount t h) = (amountSum h - 1)%Z.
Proof.
  revert t. induction h as [|s h IH]; intros t; [now left|].
  destruct t as [|t].
  - change (alter decrementAliasAmount 0 (s :: h))
      with (decrementAliasAmount s :: h).
    unfold decrementAliasAmount. destruct (aliasAmount s) as [n|] eqn:Hn.
    + right. simpl. rewrite Hn. simpl. lia.
    + now left.
  - change (alter decrementAliasAmount (S t) (s :: h))
      with (s :: alter decrementAliasAmount t h).
    destruct (IH t) as [->|Hsum]; [now left|].
    right. simpl. rewrite Hsum. lia.
Qed.

Lemma decrement_sum t (h : Heap) :
  (amountSum (alter decrementAliasAmount t h) <= amountSum h)%Z
  /\ (amountSum (alter decrementAliasAmount t h) = amountSum h ->
      alter decrementAliasAmount t h = h).
Proof.
  destruct (decrement_cases t h) as [->|Hsum].
  - split; [lia|reflexivity].
  - rewrite Hsum. split; lia.
Qed.

(** The removal of a symbol: the direct decrement of [trimMap], then the
    event and its subscribers. *)
Lemma removal_sum path b st :
  let st1 :=
    match aliasOfAt (heap st) b with
    | Some target => modifySymbol target decrementAliasAmount st
    | None => st
    end in
  let st2 := trigger (symbolRemoved path b) st1 in
  (amountSum (heap st2) <= amountSum (heap st))%Z
  /\ (amountSum (heap st2) = amountSum (heap st) -> heap st2 = heap st).
Proof.
  cbv zeta. unfold trigger. cbn [publish heap].
  destruct (aliasOfAt (heap st) b) as [target|] eqn:Halias.
  - rewrite (keeps_aliasOfAt (modifySymbol target decrementAliasAmount) st b)
      by now apply keeps_decrement.
    rewrite Halias. unfold onSymbolAliasRemoved, modifySymbol, publish.
    cbn [heap].
    destruct (decrement_sum target (heap st)) as [Hle1 Heq1].
    destruct (decrement_sum target
                (alter decrementAliasAmount target (heap st))) as [Hle2 Heq2].
    split; [lia|]. intros Hsum.
    rewrite Heq2 by lia. apply Heq1. lia.
  - rewrite Halias. simpl. split; [lia|reflexivity].
Qed.

(** [trimMap] never adds to the sum of the counters; when it keeps the sum,
    it keeps the store, and trimming its result again changes nothing. *)
Lemma trimMap_stable map :
  forall path st map' st',
    trimMap map path st = (map', st') ->
    (amountSum (heap st') <= amountSum (heap st))%Z
    /\ (amountSum (heap st') = amountSum (heap st) ->
        heap st' = heap st
        /\ forall st2, heap st2 = heap st ->
                       trimMap map' path st2 = (map', st2)).
Proof.
  induction map as [|id b rest IHrest|id b mm rest IHmm IHrest]
    using SymbolMap_tree_ind; intros path st map' st' Hrun;
    cbn [trimMap] in Hrun.
  - injection Hrun as <- <-. split; [lia|]. intros _. split; reflexivity.
  - destruct (isTrimmableAt (heap st) b) eqn:Htrim.
    + destruct (removal_sum path b st) as [Hle Heq].
      apply IHrest in Hrun as [Hle' Hstable]. split; [lia|].
      intros Hsum. destruct Hstable as [Hheap Hagain]; [lia|].
      rewrite Heq in Hheap, Hagain by lia. split; assumption.
    + destruct (trimMap rest path st) as [rest' st1] eqn:Hrest.
      injection Hrun as <- <-.
      apply IHrest in Hrest as [Hle Hstable]. split; [exact Hle|].
      intros Hsum. destruct (Hstable Hsum) as [Hheap Hagain].
      split; [exact Hheap|].
      intros st2 Hst2. cbn [trimMap]. rewrite Hst2, Htrim.
      now rewrite (Hagain st2 Hst2).
  - destruct (isTrimmableAt (heap st) b) eqn:Htrim.
    + destruct (removal_sum path b st) as [Hle Heq].
      apply IHrest in Hrun as [Hle' Hstable]. split; [lia|].
      intros Hsum. destruct Hstable as [Hheap Hagain]; [lia|].
      rewrite Heq in Hheap, Hagain by lia. split; assumption.
    + destruct (trimMap mm (path ++ [id]) st) as [mm' st1] eqn:Hmm.
      destruct (trimMap rest path st1) as [rest' st2] eqn:Hrest.
      injection Hrun as <- <-.
      apply IHmm in Hmm as [Hle1 Hstable1].
      apply IHrest in Hrest as [Hle2 Hstable2].
      split; [lia|]. intros Hsum.
      destruct Hstable1 as [Hheap1 Hagain1]; [lia|].
      destruct Hstable2 as [Hheap2 Hagain2]; [lia|].
      split; [congruence|].
      intros st3 Hst3. cbn [trimMap]. rewrite Hst3, Htrim.
      destruct (mapIsEmpty mm') eqn:Hempty.
      * rewrite (Hagain2 st3) by congruence. reflexivity.
      * rewrite (Hagain1 st3 Hst3), (Hagain2 st3) by congruence.
        now rewrite Hempty.
Qed.

Lemma trim_stable (table : SymbolTable) :
  forall st table' st',
    trim table st = (table', st') ->
    (amountSum (heap st') <= amountSum (heap st))%Z
    /\ (amountSum (heap st') = amountSum (heap st) ->
        heap st' = heap st
        /\ forall st2, heap st2 = heap st -> trim table' st2 = (table', st2)).
Proof.
  induction table as [|[category map] table IH]; intros st table' st' Hrun;
    cbn [trim] in Hrun.
  - injection Hrun as <- <-. split; [lia|]. intros _. split; reflexivity.
  - destruct (trimMap map [] st) as [map' st1] eqn:Hmap.
    destruct (trim table st1) as [rest' st2] eqn:Hrest.
    injection Hrun as <- <-.
    apply trimMap_stable in Hmap as [Hle1 Hstable1].
    apply IH in Hrest as [Hle2 Hstable2].
    split; [lia|]. intros Hsum.
    destruct Hstable1 as [Hheap1 Hagain1]; [lia|].
    destruct Hstable2 as [Hheap2 Hagain2]; [lia|].
    split; [congruence|].
    intros st3 Hst3. destruct (mapIsEmpty map') eqn:Hempty.
    + apply Hagain2. congruence.
    + cbn [trim]. rewrite (Hagain1 st3 Hst3), (Hagain2 st3) by congruence.
      now rewrite Hempty.
Qed.




(** ** Alias counting *)

(** Whenever [trimMap] removes an alias whose target has a counter, the
    counter loses two: one in [trimMap] itself, one in the subscriber of
    ['symbolAliasRemoved']. *)
Lemma trimMap_decrements_twice identifier a members path st t s n :
  isTrimmableAt (heap st) a = true ->
  aliasOfAt (heap st) a = Some t ->
  heap st !! t = Some s ->
  aliasAmount s = Some n ->
  aliasAmount
    <$> heap (snd (trimMap (map_entry identifier a members map_empty) path st))
        !! t
  = Some (Some (n - 2)%Z).
Proof.
  intros Htrim Halias Hs Hn. cbn [trimMap]. rewrite Htrim, Halias.
  cbn [snd]. unfold trigger. cbn [publish heap].
  rewrite (keeps_aliasOfAt (modifySymbol t decrementAliasAmount) st a)
    by now apply keeps_decrement.
  rewrite Halias. unfold onSymbolAliasRemoved, modifySymbol, publish.
  cbn [heap]. rewrite !list_lookup_alter_eq, Hs.
  unfold decrementAliasAmount. simpl. rewrite Hn. simpl.
  now replace (n - 1 - 1)%Z with (n - 2)%Z by lia.
Qed.

(** C1 (fails on the code). After the calls of [aliasClearedOps], the symbol
    [T] is present in the global table, no present symbol is an alias of it,
    and its [aliasAmount] is [-1]: [trimMap] decrements the counter of the
    target of a removed alias, and the subscriber of ['symbolRemoved'] has it
    decremented once more through ['symbolAliasRemoved'].  The alias
    invariant does not hold in that state. *)
Theorem aliasAmount_decremented_twice :
  let u := run aliasClearedOps in
  presentSymbols u = [0]
  /\ aliasCount u 0 = 0
  /\ heap (store u) !! 0 ≫= aliasAmount = Some (-1)%Z
  /\ ~ aliasInvariant u.
Proof.
  assert (Hpresent : presentSymbols (run aliasClearedOps) = [0])
    by (vm_compute; reflexivity).
  assert (Hcount : aliasCount (run aliasClearedOps) 0 = 0)
    by (vm_compute; reflexivity).
  assert (Hamount : heap (store (run aliasClearedOps)) !! 0 ≫= aliasAmount
                    = Some (-1)%Z) by (vm_compute; reflexivity).
  cbv zeta. repeat split; try assumption.
  intros Hinv. specialize (Hinv 0 (-1)%Z).
  rewrite Hpresent, Hcount in Hinv.
  specialize (Hinv ltac:(constructor) Hamount). discriminate.
Qed.

(** A second way the counter departs from the number of aliases: a symbol
    created with [relations.aliasOf] in its addition is not counted, since
    [createSymbol] copies the relation and triggers no alias event. *)
Lemma alias_of_created_symbol_not_counted :
  let u := run createdAliasOps in
  presentSymbols u = [0; 1; 2]
  /\ aliasCount u 0 = 2
  /\ heap (store u) !! 0 ≫= aliasAmount = Some 1%Z.
Proof. vm_compute. auto. Qed.

(** * Further properties *)

(** ** Usage predicates *)

(** X1. [isDefined] holds exactly for a symbol that has a definition: the
    second operand of its condition adds nothing, and a declaration together
    with an implementation does not make a symbol defined.  A defined symbol
    is declared and implemented. *)
Theorem isDefined_iff_definition (h : Heap) (symbol : option addr) :
  isDefined h symbol
  = match symbolAt h symbol with
    | Some s => hasLength (definition s)
    | None => false
    end
  /\ (isDefined h symbol = true ->
      isDeclared h symbol = true /\ isImplemented h symbol = true).
Proof.
  unfold isDefined, isDeclared, isImplemented.
  destruct (symbolAt h symbol) as [s|]; [|split; [reflexivity|discriminate]].
  destruct (hasLength (definition s)), (hasLength (implementation s)),
    (hasLength (declaration s)); simpl; split; auto; discriminate.
Qed.

(** X2. [getDeclaredLocation] returns a location exactly when [isDeclared]
    holds, and throws otherwise; the first declaration is preferred, and the
    first definition is returned when there is no declaration. *)
Theorem getDeclaredLocation_declared (h : Heap) (symbol : addr) :
  (isDeclared h (Some symbol) = true <->
   exists location, getDeclaredLocation h symbol = Some location)
  /\ forall s,
       h !! symbol = Some s ->
       getDeclaredLocation h symbol =
       match declaration s with
       | Some (location :: _) => Some location
       | _ => match definition s with
              | Some (location :: _) => Some location
              | _ => None
              end
       end.
Proof.
  unfold isDeclared, getDeclaredLocation, symbolAt. simpl.
  destruct (h !! symbol) as [s|]; split.
  - destruct (declaration s) as [[|l ls]|], (definition s) as [[|l' ls']|];
      simpl; split; intros H; try discriminate; eauto;
      destruct H as [? H]; discriminate.
  - intros s' [= <-].
    destruct (declaration s) as [[|l ls]|], (definition s) as [[|l' ls']|];
      reflexivity.
  - split; [discriminate|]. intros [? H]. discriminate.
  - intros s' H. discriminate.
Qed.

(** ** Alias resolution *)

(** X3. The symbol [resolveAlias] returns is not an alias, so resolving it
    again returns it unchanged; and a recursion that has returned returns the
    same symbol at any greater depth. *)
Theorem resolveAlias_idempotent (fuel : nat) (h : Heap) (s t : addr) :
  resolveAlias fuel h s = Some t ->
  aliasOfAt h t = None
  /\ (forall fuel', resolveAlias (S fuel') h t = Some t)
  /\ (forall fuel', fuel <= fuel' -> resolveAlias fuel' h s = Some t).
Proof.
  revert s. induction fuel as [|fuel IH]; intros s Hrun; [discriminate|].
  simpl in Hrun. destruct (aliasOfAt h s) as [b|] eqn:Hs.
  - destruct (IH b Hrun) as (Hend & Hagain & Hmore).
    split; [exact Hend|]. split; [exact Hagain|].
    intros [|fuel'] Hle; [lia|]. simpl. rewrite Hs. apply Hmore. lia.
  - injection Hrun as <-. split; [exact Hs|]. split.
    + intros fuel'. simpl. now rewrite Hs.
    + intros [|fuel'] Hle; [lia|]. simpl. now rewrite Hs.
Qed.

Lemma resolveAlias_idempotent_witness :
  aliasOfAt aliasChainHeap 0 = None
  /\ (forall fuel', resolveAlias (S fuel') aliasChainHeap 0 = Some 0)
  /\ (forall fuel', 3 <= fuel' -> resolveAlias fuel' aliasChainHeap 2 = Some 0).
Proof.
  apply (resolveAlias_idempotent 3 aliasChainHeap 2 0). reflexivity.
Defined.

(** ** Lookup in one table *)

Lemma lookupPath_prefix_leaf prefix :
  forall parentSymbol map leaf,
    lookupPath parentSymbol map (prefix ++ [leaf]) =
    match descend parentSymbol map prefix with
    | Some (parent, m) =>
        LookupResult.mk parent m (fst <$> (m ≫= fun mm => mapGet mm leaf))
    | None => LookupResult.mk None None None
    end.
Proof.
  induction prefix as [|id rest IH]; intros parentSymbol map leaf.
  - simpl. destruct (map ≫= fun m => mapGet m leaf) as [[s mem]|]; reflexivity.
  - change ((id :: rest) ++ [leaf]) with (id :: (rest ++ [leaf])).
    cbn [lookupPath descend].
    destruct (map ≫= fun m => mapGet m id) as [[s mem]|].
    + rewrite <- IH. destruct (rest ++ [leaf]) eqn:Happ; [|reflexivity].
      now apply app_eq_nil in Happ as [_ ?].
    + destruct (rest ++ [leaf]) eqn:Happ; [|reflexivity].
      now apply app_eq_nil in Happ as [_ ?].
Qed.

(** X4. [lookupTable] tells a missing leaf from an unresolvable path.  With
    an empty path it returns the map of the category and no symbol.  When
    every segment before the last resolves, it returns the symbol that owns
    the last map as parent, that map, and the leaf if the map holds it; when
    one of these segments is missing, the three fields are [null]. *)
Theorem lookupTable_prefix_leaf (table : SymbolTable) (category : string)
  (prefix : list string) (leaf : string) :
  lookupTable table category [] =
  LookupResult.mk None (dictGet table category) None
  /\ lookupTable table category (prefix ++ [leaf]) =
     match descend None (dictGet table category) prefix with
     | Some (parent, m) =>
         LookupResult.mk parent m (fst <$> (m ≫= fun mm => mapGet mm leaf))
     | None => LookupResult.mk None None None
     end.
Proof. split; [reflexivity|]. apply lookupPath_prefix_leaf. Qed.

(** ** Lookup in a chain of tables *)

Lemma lookupTables_single table category path :
  lookupTables [table] category path = lookupTable table category path.
Proof.
  unfold lookupTables. simpl.
  destruct (lookupTable table category path) as [p m [s|]]; simpl;
    [reflexivity|].
  destruct p, m; reflexivity.
Qed.

(** X5. A [lookup] with no URI, or with the empty string as URI, consults the
    global table alone: its result is that of [lookupTable] on the global
    table, and the [SymbolUtil] is left as it is (no stack is created). *)
Theorem lookup_without_uri (category : string) (path : list string)
  (u : SymbolUtil) :
  lookup category path None u = (u, lookupTable (global u) category path)
  /\ lookup category path (Some "") u
     = (u, lookupTable (global u) category path).
Proof. unfold lookup. simpl. now rewrite lookupTables_single. Qed.

(** X6. [lookupTables] finds a symbol exactly when one of the tables holds
    it, and the innermost table shadows the others: when the last table of
    the chain holds the leaf, the result is its own. *)
Theorem lookupTables_found_and_shadowing (tables : list SymbolTable)
  (category : string) (path : list string) :
  (is_Some (LookupResult.symbol (lookupTables tables category path)) <->
   exists table,
     table ∈ tables
     /\ is_Some (LookupResult.symbol (lookupTable table category path)))
  /\ forall inner,
       is_Some (LookupResult.symbol (lookupTable inner category path)) ->
       lookupTables (tables ++ [inner]) category path
       = lookupTable inner category path.
Proof.
  split.
  - unfold lookupTables. rewrite lookupTablesLoop_fresh. cbv zeta.
    destruct (List.find resultFound _) as [r|] eqn:Hfind.
    + apply find_some in Hfind as [Hin Hfound].
      apply in_map_iff in Hin as (table & <- & Hin).
      split; intros _.
      * exists table. split.
        -- apply elem_of_reverse, list_elem_of_In, Hin.
        -- unfold resultFound in Hfound.
           destruct (LookupResult.symbol _); [eauto|discriminate].
      * unfold resultFound in Hfound.
        destruct (LookupResult.symbol _); [eauto|discriminate].
    + split.
      * destruct (List.find resultHasHandle _); simpl; intros [? H];
          discriminate.
      * intros (table & Hin & [s Hs]). exfalso.
        pose proof (find_none _ _ Hfind (lookupTable table category path))
          as Hnone.
        unfold resultFound in Hnone. rewrite Hs in Hnone.
        enough (true = false) by discriminate. apply Hnone.
        apply (in_map (fun t => lookupTable t category path)).
        apply list_elem_of_In. now apply elem_of_reverse.
  - intros inner [s Hs]. unfold lookupTables. rewrite reverse_snoc.
    cbn [lookupTablesLoop]. now rewrite Hs.
Qed.

Lemma lookupTables_found_and_shadowing_witness :
  lookupTables ([shadowFrame] ++ [shadowGlobal]) "type" ["a"; "b"]
  = lookupTable shadowGlobal "type" ["a"; "b"].
Proof.
  apply (lookupTables_found_and_shadowing [shadowFrame] "type" ["a"; "b"]).
  vm_compute. eauto.
Defined.

(** ** Dictionaries and maps *)

(** Induction over the entries of a map, without entering the members. *)
Lemma SymbolMap_entries_ind (P : SymbolMap -> Prop) :
  P map_empty ->
  (forall k a members rest, P rest -> P (map_entry k a members rest)) ->
  forall m, P m.
Proof.
  intros Hempty Hentry m.
  induction m using SymbolMap_tree_ind; auto.
Qed.

Lemma dictGet_dictSet_eq {V} (o : list (string * V)) k v :
  dictGet (dictSet o k v) k = Some v.
Proof.
  induction o as [|[k' v'] o IH]; simpl.
  - now rewrite decide_True.
  - destruct (decide (k' = k)) as [->|Hne]; simpl.
    + now rewrite decide_True.
    + now rewrite decide_False.
Qed.

Lemma dictGet_dictSet_ne {V} (o : list (string * V)) k k' v :
  k <> k' -> dictGet (dictSet o k v) k' = dictGet o k'.
Proof.
  intros Hne. induction o as [|[k0 v0] o IH]; simpl.
  - now rewrite decide_False.
  - destruct (decide (k0 = k)) as [->|Hne0]; simpl.
    + now rewrite !decide_False.
    + destruct (decide (k0 = k')); [reflexivity|exact IH].
Qed.

Lemma mapGet_mapSet_new m k a :
  mapGet m k = None -> mapGet (mapSet m k a) k = Some (a, None).
Proof.
  induction m as [|k' a' mem rest IH] using SymbolMap_entries_ind; simpl.
  - intros _. now rewrite decide_True.
  - destruct (decide (k' = k)) as [->|Hne]; [discriminate|].
    intros Hrest. simpl. rewrite decide_False by assumption. now apply IH.
Qed.

Lemma mapGet_mapSet_ne m k k' a :
  k <> k' -> mapGet (mapSet m k a) k' = mapGet m k'.
Proof.
  intros Hne. induction m as [|k0 a0 mem rest IH] using SymbolMap_entries_ind; simpl.
  - now rewrite decide_False.
  - destruct (decide (k0 = k)) as [->|Hne0]; simpl.
    + now rewrite !decide_False.
    + destruct (decide (k0 = k')); [reflexivity|exact IH].
Qed.

Lemma mapGet_None_keys m k : mapGet m k = None <-> k ∉ mapKeys m.
Proof.
  induction m as [|k' a' mem rest IH] using SymbolMap_entries_ind; simpl.
  - split; [intros _; apply not_elem_of_nil|reflexivity].
  - rewrite not_elem_of_cons. destruct (decide (k' = k)) as [->|Hne].
    + split; [discriminate|]. intros [? _]. congruence.
    + rewrite IH. split; [intros ?; split; [congruence|assumption]|].
      now intros [_ ?].
Qed.

Lemma mapKeys_mapSet_new m k a :
  mapGet m k = None -> mapKeys (mapSet m k a) = mapKeys m ++ [k].
Proof.
  induction m as [|k' a' mem rest IH] using SymbolMap_entries_ind; simpl; [reflexivity|].
  destruct (decide (k' = k)) as [->|Hne]; [discriminate|].
  intros Hrest. simpl. now rewrite IH.
Qed.

(** ** Entering symbols *)

(** The two outcomes of [enterMap] for the map. *)
Lemma enterMap_cases map category path identifier addition doc isUriBinding st
  map' st' completion :
  enterMap map category path identifier addition doc isUriBinding st
  = (map', st', completion) ->
  (exists target members,
     mapGet map identifier = Some (target, members)
     /\ map' = map
     /\ forall b, completion = Normal b -> b = target)
  \/ (mapGet map identifier = None
      /\ map' = mapSet map identifier (length (heap st))
      /\ completion = Normal (length (heap st))).
Proof.
  unfold enterMap. destruct (mapGet map identifier) as [[target members]|].
  - intros Hrun. left. exists target, members. split; [reflexivity|].
    destruct (amendSymbol _ _ _ _ _ _) as [st1 [[]|e]];
      injection Hrun as <- <- <-; (split; [reflexivity|]);
      intros b [=]; congruence.
  - unfold createSymbol. intros [= <- <- <-]. right. auto.
Qed.

(** X7. What [enterTable] enters is found again: after the call, whether it
    returned or threw, [lookupTable] finds a symbol under the category and
    the identifier, in the map of the category, and it is the symbol the call
    returned.  Lookups in other categories, and of other identifiers of the
    category, give what they gave before. *)
Theorem enterTable_then_lookup
  (table table' : SymbolTable) (category : string) (path : list string)
  (identifier : string) (addition : SymbolAddition) (doc : TextDocument.t)
  (isUriBinding : bool) (st st' : Store) (completion : Completion addr) :
  enterTable table category path identifier addition doc isUriBinding st
  = (table', st', completion) ->
  exists a map',
    dictGet table' category = Some map'
    /\ lookupTable table' category [identifier]
       = LookupResult.mk None (Some map') (Some a)
    /\ (forall b, completion = Normal b -> b = a)
    /\ (forall c p, c <> category ->
          lookupTable table' c p = lookupTable table c p)
    /\ (forall id, id <> identifier ->
          LookupResult.symbol (lookupTable table' category [id])
          = LookupResult.symbol (lookupTable table category [id])).
Proof.
  unfold enterTable.
  set (map0 := default map_empty (dictGet table category)).
  destruct (enterMap map0 category path identifier addition doc isUriBinding st)
    as [[map1 st1] completion1] eqn:Hrun.
  intros [= <- <- <-].
  assert (Hother : forall c p, c <> category ->
            lookupTable (dictSet table category map1) c p
            = lookupTable table c p).
  { intros c p Hc. unfold lookupTable. now rewrite dictGet_dictSet_ne. }
  assert (Hids : forall id,
            LookupResult.symbol
              (lookupTable (dictSet table category map1) category [id])
            = fst <$> mapGet map1 id).
  { intros id. unfold lookupTable. rewrite dictGet_dictSet_eq. simpl.
    now destruct (mapGet map1 id) as [[s mem]|]. }
  assert (Hids0 : forall id,
            LookupResult.symbol (lookupTable table category [id])
            = fst <$> mapGet map0 id).
  { intros id. unfold lookupTable. subst map0. simpl.
    destruct (dictGet table category) as [m|]; simpl; [|reflexivity].
    now destruct (mapGet m id) as [[s mem]|]. }
  apply enterMap_cases in Hrun
    as [(target & members & Hget & -> & Hret)|(Hget & -> & ->)].
  - exists target, map0. split; [apply dictGet_dictSet_eq|].
    split; [|split; [exact Hret|split; [exact Hother|]]].
    + unfold lookupTable. rewrite dictGet_dictSet_eq. simpl. now rewrite Hget.
    + intros id _. now rewrite Hids, Hids0.
  - exists (length (heap st)), (mapSet map0 identifier (length (heap st))).
    split; [apply dictGet_dictSet_eq|].
    split; [|split; [now intros b [= <-]|split; [exact Hother|]]].
    + unfold lookupTable. rewrite dictGet_dictSet_eq. simpl.
      now rewrite mapGet_mapSet_new.
    + intros id Hid. rewrite Hids, Hids0.
      now rewrite mapGet_mapSet_ne by congruence.
Qed.

Lemma enterTable_then_lookup_witness :
  exists a map',
    lookupTable
      (fst (fst (enterTable [] "type" ["Foo"] "Foo" declareAddition
                   fooDocument false (mkStore [] []))))
      "type" ["Foo"]
    = LookupResult.mk None (Some map') (Some a).
Proof.
  destruct (enterTable [] "type" ["Foo"] "Foo" declareAddition fooDocument
              false (mkStore [] [])) as [[table' st'] completion] eqn:Hrun.
  destruct (enterTable_then_lookup _ _ _ _ _ _ _ _ _ _ _ Hrun)
    as (a & map' & _ & Hlookup & _).
  exists a, map'. exact Hlookup.
Defined.



(** ** What an [enter] leaves alone *)

Lemma modifySymbol_at {A} (proj : Symbol -> A) a g st b :
  b <> a \/ (forall s, proj (g s) = proj s) ->
  proj <$> heap (modifySymbol a g st) !! b = proj <$> heap st !! b.
Proof.
  intros [Hne|Hg].
  - unfold modifySymbol. simpl. now rewrite list_lookup_alter_ne.
  - now apply keeps_modifySymbol.
Qed.

Section MetadataAt.
Context {A : Type} (proj : Symbol -> A).
Hypothesis proj_aliasAmount : forall v s, proj (set_aliasAmount v s) = proj s.
Variables (symbol b : addr).
Hypothesis Hb : b <> symbol \/ blindToMetadata proj.

Lemma amendRelation_at path st rel :
  proj <$> heap (amendRelation path symbol st rel) !! b
  = proj <$> heap st !! b.
Proof.
  destruct rel as [relationship target]. unfold amendRelation.
  rewrite modifySymbol_at
    by (destruct Hb as [?|(_ & Hr & _)]; [now left|right; intros; apply Hr]).
  destruct (decide (relationship = "aliasOf")); [|reflexivity].
  destruct (decide (_ = _)); [reflexivity|].
  rewrite keeps_trigger by assumption.
  destruct (aliasOfAt _ _); [|reflexivity].
  now apply keeps_trigger.
Qed.

Lemma amendRelations_at path rels st :
  proj <$> heap (foldl (amendRelation path symbol) st rels) !! b
  = proj <$> heap st !! b.
Proof.
  revert st. induction rels as [|rel rels IH]; intros st; [reflexivity|].
  simpl. now rewrite IH, amendRelation_at.
Qed.

Lemma amendBeforeVisibility_at path d st :
  proj <$> heap (amendBeforeVisibility path symbol d st) !! b
  = proj <$> heap st !! b.
Proof.
  unfold amendBeforeVisibility.
  set (st1 := match Data.desc d with
              | Some v => modifySymbol symbol (set_desc (Some v)) st
              | None => st
              end).
  assert (H1 : proj <$> heap st1 !! b = proj <$> heap st !! b).
  { subst st1. destruct (Data.desc d); [|reflexivity].
    apply modifySymbol_at.
    destruct Hb as [?|(Hd & _)]; [now left|right; intros; apply Hd]. }
  set (st2 := match Data.relations d with
              | Some (rel :: rels) => _
              | _ => st1
              end).
  assert (H2 : proj <$> heap st2 !! b = proj <$> heap st1 !! b).
  { subst st2. destruct (Data.relations d) as [[|rel rels]|]; try reflexivity.
    rewrite amendRelations_at. apply modifySymbol_at.
    destruct Hb as [?|(_ & Hr & _)]; [now left|right; intros; apply Hr]. }
  rewrite <- H1, <- H2.
  destruct (Data.subcategory d); [|reflexivity].
  apply modifySymbol_at.
  destruct Hb as [?|(_ & _ & Hs & _)]; [now left|right; intros; apply Hs].
Qed.

Lemma amendVisibilityRestriction_at d st :
  proj <$> heap (amendVisibilityRestriction symbol d st) !! b
  = proj <$> heap st !! b.
Proof.
  unfold amendVisibilityRestriction.
  destruct (Data.visibilityRestriction d) as [[|r rs]|]; try reflexivity.
  apply modifySymbol_at.
  destruct Hb as [?|(_ & _ & _ & _ & Hr)]; [now left|right; intros; apply Hr].
Qed.

(** Whether it returns or throws, [amendSymbolMetadata] writes only the
    metadata of its symbol and the alias counters. *)
Lemma amendSymbolMetadata_at path addition st :
  proj <$> heap (fst (amendSymbolMetadata path symbol addition st)) !! b
  = proj <$> heap st !! b.
Proof.
  destruct addition as [d|]; [|reflexivity].
  rewrite amendSymbolMetadata_unfold. cbv zeta.
  destruct (Data.visibility d) as [v|].
  - destruct (_ || _); cbn [fst].
    + rewrite amendVisibilityRestriction_at, modifySymbol_at.
      * apply amendBeforeVisibility_at.
      * destruct Hb as [?|(_ & _ & _ & Hv & _)];
          [now left|right; intros; apply Hv].
    + apply amendBeforeVisibility_at.
  - cbn [fst]. rewrite amendVisibilityRestriction_at.
    apply amendBeforeVisibility_at.
Qed.
End MetadataAt.

Lemma blindToMetadata_usageView : blindToMetadata usageView.
Proof. repeat split. Qed.

(** X9. An [enter] that reaches an existing symbol with a usage, and
    returns, appends the location of the usage to the list of its kind:
    the locations recorded before keep their order, the new one is last, and
    the lists of the other kinds are not changed. *)
Theorem enterMap_appends_usage
  (map map' : SymbolMap) (category : string) (path : list string)
  (identifier : string) (addition : SymbolAddition) (doc : TextDocument.t)
  (isUriBinding : bool) (st st' : Store)
  (target a : addr) (members : option SymbolMap) (u : Usage.t) :
  mapGet map identifier = Some (target, members) ->
  is_Some (heap st !! target) ->
  usage addition = Some u ->
  enterMap map category path identifier addition doc isUriBinding st
  = (map', st', Normal a) ->
  usageAt (heap st') target (usageType u)
  = Some (default [] (usageAt (heap st) target (usageType u))
          ++ [usageLocation u doc isUriBinding])
  /\ forall type, type <> usageType u ->
       usageAt (heap st') target type = usageAt (heap st) target type.
Proof.
  intros Hget [s Hs] Hu. unfold enterMap, amendSymbol. rewrite Hget.
  pose proof (amendSymbolMetadata_at usageView (fun _ _ => eq_refl) target
                target (or_intror blindToMetadata_usageView) path
                (data addition) st) as Hmeta.
  destruct (amendSymbolMetadata path target (data addition) st)
    as [st1 [[]|e]]; [|discriminate].
  intros [= <- <- <-]. cbn [fst] in Hmeta. rewrite Hs in Hmeta.
  destruct (heap st1 !! target) as [s1|] eqn:Hs1; [|discriminate].
  assert (Hview : usageView s1 = usageView s) by (simpl in Hmeta; congruence).
  rewrite Hu. unfold amendSymbolUsage, trigger, publish, modifySymbol.
  cbn [heap]. unfold usageAt. rewrite list_lookup_alter_eq, Hs1, Hs. simpl.
  split.
  - rewrite usageGet_usageSet, decide_True by reflexivity.
    now rewrite (usageGet_usageView _ s1 s Hview).
  - intros type Htype. rewrite usageGet_usageSet, decide_False by congruence.
    now apply usageGet_usageView.
Qed.

Lemma enterMap_appends_usage_witness :
  usageAt
    (heap (snd (fst (enterMap fooMap "type" ["Foo"] "Foo" declareAddition
                       fooDocument false fooStore))))
    0 UDeclaration
  = Some [usageLocation
            (Usage.mk (Some UDeclaration) (Some (0, 3)) None None None)
            fooDocument false].
Proof.
  destruct (enterMap fooMap "type" ["Foo"] "Foo" declareAddition fooDocument
              false fooStore) as [[map' st'] completion] eqn:Hrun.
  assert (Hc : completion = Normal 0)
    by (vm_compute in Hrun; now injection Hrun as _ _ <-).
  subst completion.
  destruct (enterMap_appends_usage fooMap map' "type" ["Foo"] "Foo"
              declareAddition fooDocument false fooStore st' 0 0 None
              (Usage.mk (Some UDeclaration) (Some (0, 3)) None None None)
              eq_refl (ex_intro _ fooSymbol eq_refl) eq_refl Hrun)
    as [Happend _].
  exact Happend.
Defined.

Lemma amendSymbolUsage_at {A} (proj : Symbol -> A) path symbol addition doc
  isUriBinding st b :
  (forall v s, proj (set_aliasAmount v s) = proj s) ->
  b <> symbol ->
  proj <$> heap (amendSymbolUsage path symbol addition doc isUriBinding st) !! b
  = proj <$> heap st !! b.
Proof.
  intros Hproj Hne. unfold amendSymbolUsage. destruct addition; [|reflexivity].
  rewrite keeps_trigger by assumption. apply modifySymbol_at. now left.
Qed.



(** ** Alias counters *)

Lemma alter_fixed (f : Symbol -> Symbol) a (h : Heap) s :
  h !! a = Some s -> f s = s -> alter f a h = h.
Proof.
  intros Hs Hf. apply list_eq. intros i.
  destruct (decide (a = i)) as [->|Hne].
  - rewrite list_lookup_alter_eq, Hs. simpl. now rewrite Hf.
  - now rewrite list_lookup_alter_ne.
Qed.

Lemma dictSet_same {V} (o : list (string * V)) k v :
  dictGet o k = Some v -> dictSet o k v = o.
Proof.
  induction o as [|[k' v'] o IH]; simpl; [discriminate|].
  destruct (decide (k' = k)) as [->|Hne].
  - now intros [= ->].
  - intros H. now rewrite IH.
Qed.

Lemma set_relations_same s : set_relations (relations s) s = s.
Proof. now destruct s. Qed.

(** X11. Amending a symbol with the alias target it already has changes
    nothing: no alias event is published, no counter moves, and the store is
    exactly as before. *)
Theorem amend_same_alias_is_noop
  (path : list string) (symbol target : addr) (st : Store) (s : Symbol) :
  heap st !! symbol = Some s ->
  aliasOf s = Some target ->
  amendSymbolMetadata path symbol (Some (aliasData target)) st
  = (st, Normal tt).
Proof.
  intros Hs Halias. unfold aliasOf in Halias.
  destruct (relations s) as [r|] eqn:Hr; [|discriminate]. simpl in Halias.
  rewrite amendSymbolMetadata_unfold. cbv zeta.
  unfold aliasData, amendBeforeVisibility, amendVisibilityRestriction.
  cbn [Data.desc Data.relations Data.subcategory Data.visibility
       Data.visibilityRestriction foldl].
  assert (H0 : modifySymbol symbol
                 (fun s0 => set_relations (Some (default [] (relations s0))) s0)
                 st = st).
  { unfold modifySymbol. rewrite (alter_fixed _ symbol (heap st) s Hs).
    - now destruct st.
    - rewrite Hr. simpl. rewrite <- Hr. apply set_relations_same. }
  rewrite H0. unfold amendRelation.
  rewrite decide_True by reflexivity.
  assert (Hold : aliasOfAt (heap st) symbol = Some target).
  { unfold aliasOfAt, aliasOf. rewrite Hs. simpl. now rewrite Hr. }
  rewrite Hold, decide_True by reflexivity.
  unfold modifySymbol. rewrite (alter_fixed _ symbol (heap st) s Hs).
  - now destruct st.
  - rewrite Hr. simpl. rewrite (dictSet_same r "aliasOf" target Halias).
    rewrite <- Hr. apply set_relations_same.
Qed.

Lemma amend_same_alias_is_noop_witness :
  amendSymbolMetadata ["A"] 1 (Some (aliasData 0)) (mkStore aliasChainHeap [])
  = (mkStore aliasChainHeap [], Normal tt).
Proof.
  apply (amend_same_alias_is_noop ["A"] 1 0 (mkStore aliasChainHeap [])
           (aliasSymbol "type" "A" 0)); reflexivity.
Defined.

Lemma lookup_alter_view {A} (proj : Symbol -> A) f a (h : Heap) b :
  (forall s, proj (f s) = proj s) ->
  proj <$> alter f a h !! b = proj <$> h !! b.
Proof.
  intros Hf. exact (keeps_modifySymbol proj a f Hf (mkStore h []) b).
Qed.

(** The store after the relation [aliasOf] of an addition is applied to a
    symbol that has another target, or none. *)
Lemma amendRelation_new_alias path symbol target st :
  aliasOfAt (heap st) symbol <> Some target ->
  amendRelation path symbol st ("aliasOf", target) =
  mkStore
    (alter (fun s => set_relations
                       (Some (dictSet (default [] (relations s)) "aliasOf"
                                target)) s) symbol
       (alter incrementAliasAmount target
          match aliasOfAt (heap st) symbol with
          | Some old => alter decrementAliasAmount old (heap st)
          | None => heap st
          end))
    (published st
     ++ match aliasOfAt (heap st) symbol with
        | Some old => [symbolAliasRemoved old path symbol]
        | None => []
        end
     ++ [symbolAliasCreated target path symbol]).
Proof.
  intros Hold. unfold amendRelation.
  rewrite decide_True by reflexivity. rewrite decide_False by exact Hold.
  destruct (aliasOfAt (heap st) symbol) as [old|]; unfold trigger,
    onSymbolAliasCreated, onSymbolAliasRemoved, modifySymbol, publish;
    cbn [heap published]; unfold incrementAliasAmount.
  - now rewrite <- !app_assoc.
  - reflexivity.
Qed.

(** X12. Amending a symbol so that it becomes an alias of a new target
    publishes alias-removed for the former target, if any, then
    alias-created for the new one; the counter of the new target gains one
    (starting from 0 when it had none), the counter of the former target
    loses one when it has one, and the symbol then points at the new
    target. *)
Theorem amend_new_alias_counts
  (path : list string) (symbol target : addr) (st : Store)
  (s starget : Symbol) :
  heap st !! symbol = Some s ->
  heap st !! target = Some starget ->
  aliasOf s <> Some target ->
  let st' := fst (amendSymbolMetadata path symbol (Some (aliasData target)) st) in
  aliasOfAt (heap st') symbol = Some target
  /\ aliasAmount <$> heap st' !! target
     = Some (Some (default 0 (aliasAmount starget) + 1)%Z)
  /\ (forall old sold,
        aliasOf s = Some old -> heap st !! old = Some sold ->
        aliasAmount <$> heap st' !! old
        = Some (aliasAmount (decrementAliasAmount sold)))
  /\ published st' =
     published st
     ++ match aliasOf s with
        | Some old => [symbolAliasRemoved old path symbol]
        | None => []
        end
     ++ [symbolAliasCreated target path symbol].
Proof.
  intros Hs Ht Hnew. cbv zeta.
  rewrite amendSymbolMetadata_unfold. cbv zeta.
  unfold aliasData, amendBeforeVisibility, amendVisibilityRestriction.
  cbn [Data.desc Data.relations Data.subcategory Data.visibility
       Data.visibilityRestriction foldl fst].
  set (st0 := modifySymbol symbol
                (fun s0 => set_relations (Some (default [] (relations s0))) s0)
                st).
  assert (Hs0 : heap st0 !! symbol
                = Some (set_relations (Some (default [] (relations s))) s))
    by (subst st0; exact (modifySymbol_lookup symbol _ st s Hs)).
  assert (Hold : aliasOfAt (heap st0) symbol = aliasOf s).
  { unfold aliasOfAt. rewrite Hs0. simpl. unfold aliasOf. simpl.
    now destruct (relations s). }
  assert (Hamount : forall b,
            aliasAmount <$> heap st0 !! b = aliasAmount <$> heap st !! b).
  { intros b. subst st0. unfold modifySymbol. cbn [heap].
    now rewrite lookup_alter_view. }
  rewrite amendRelation_new_alias by now rewrite Hold.
  rewrite Hold. cbn [heap published].
  set (h1 := match aliasOf s with
             | Some old => alter decrementAliasAmount old (heap st0)
             | None => heap st0
             end).
  assert (Hlen : forall b, is_Some (heap st !! b) -> is_Some (h1 !! b)).
  { intros b [sb Hsb]. subst h1.
    assert (Hb0 : is_Some (heap st0 !! b)).
    { specialize (Hamount b). rewrite Hsb in Hamount.
      destruct (heap st0 !! b); [eauto|discriminate]. }
    destruct (aliasOf s) as [old|]; [|exact Hb0].
    destruct Hb0 as [sb0 Hsb0].
    destruct (decide (old = b)) as [->|Hne].
    - rewrite list_lookup_alter_eq, Hsb0. eauto.
    - rewrite list_lookup_alter_ne by assumption. eauto. }
  split; [|split; [|split]].
  - unfold aliasOfAt. rewrite list_lookup_alter_eq.
    assert (Hsym : is_Some (alter incrementAliasAmount target h1 !! symbol)).
    { destruct (Hlen symbol (ex_intro _ s Hs)) as [x Hx].
      destruct (decide (target = symbol)) as [->|Hne].
      - rewrite list_lookup_alter_eq, Hx. eauto.
      - rewrite list_lookup_alter_ne by assumption. eauto. }
    destruct Hsym as [x ->]. simpl. unfold aliasOf. simpl.
    apply dictGet_dictSet_eq.
  - rewrite lookup_alter_view by reflexivity.
    rewrite list_lookup_alter_eq.
    assert (H1 : aliasAmount <$> h1 !! target = Some (aliasAmount starget)).
    { subst h1. destruct (aliasOf s) as [old|].
      - rewrite list_lookup_alter_ne by congruence.
        now rewrite Hamount, Ht.
      - now rewrite Hamount, Ht. }
    destruct (h1 !! target) as [x|]; [|discriminate].
    simpl in *. injection H1 as ->. reflexivity.
  - intros old sold Hold' Hsold.
    rewrite lookup_alter_view by reflexivity.
    rewrite list_lookup_alter_ne by congruence.
    subst h1. rewrite Hold'. rewrite list_lookup_alter_eq.
    specialize (Hamount old). rewrite Hsold in Hamount.
    destruct (heap st0 !! old) as [x|]; [|discriminate].
    simpl in *. injection Hamount as Hx.
    unfold decrementAliasAmount. rewrite Hx.
    destruct (aliasAmount sold) eqn:Eam; simpl; congruence.
  - reflexivity.
Qed.

Lemma amend_new_alias_counts_witness :
  aliasAmount
    <$> heap (fst (amendSymbolMetadata ["B"] 2 (Some (aliasData 0))
                     (mkStore aliasChainHeap []))) !! 0
  = Some (Some 1%Z).
Proof.
  apply (amend_new_alias_counts ["B"] 2 0 (mkStore aliasChainHeap [])
           (aliasSymbol "type" "B" 1) (bareSymbol "type" "T")).
  - reflexivity.
  - reflexivity.
  - discriminate.
Defined.

(** ** What [trim] leaves behind *)

Lemma trimMap_noEmptyMembers map :
  forall path st, noEmptyMembers (fst (trimMap map path st)) = true.
Proof.
  induction map as [|id b rest IHrest|id b mm rest IHmm IHrest]
    using SymbolMap_tree_ind; intros path st; [reflexivity|..];
    cbn [trimMap].
  - destruct (isTrimmableAt (heap st) b); [apply IHrest|].
    specialize (IHrest path st).
    destruct (trimMap rest path st) as [rest' st']. exact IHrest.
  - destruct (isTrimmableAt (heap st) b); [apply IHrest|].
    specialize (IHmm (path ++ [id]) st).
    destruct (trimMap mm (path ++ [id]) st) as [mm' st1].
    specialize (IHrest path st1).
    destruct (trimMap rest path st1) as [rest' st2].
    cbn [fst noEmptyMembers] in *. rewrite IHrest.
    destruct (mapIsEmpty mm') eqn:Hempty; [reflexivity|].
    now rewrite Hempty, IHmm.
Qed.

(** X13. [trim] leaves no empty object behind: in the table it returns, no
    category holds an empty map, and no symbol at any depth has an empty
    [members] map. *)
Theorem trim_leaves_no_empty_map (table : SymbolTable) (st : Store)
  (category : string) (map : SymbolMap) :
  (category, map) ∈ fst (trim table st) ->
  mapIsEmpty map = false /\ noEmptyMembers map = true.
Proof.
  revert st. induction table as [|[c m] table IH]; intros st; simpl.
  - intros H. now apply elem_of_nil in H.
  - pose proof (trimMap_noEmptyMembers m [] st) as Hshape.
    destruct (trimMap m [] st) as [m' st1].
    specialize (IH st1). destruct (trim table st1) as [table' st2].
    cbn [fst] in *. destruct (mapIsEmpty m') eqn:Hempty; [exact IH|].
    rewrite elem_of_cons. intros [[= -> ->]|Hin]; [split; assumption|].
    now apply IH.
Qed.

Lemma trim_leaves_no_empty_map_witness :
  mapIsEmpty (map_entry "Used" 0 None map_empty) = false
  /\ noEmptyMembers (map_entry "Used" 0 None map_empty) = true.
Proof.
  apply (trim_leaves_no_empty_map plainTable plainStore "type").
  vm_compute. apply list_elem_of_here.
Defined.

Lemma hasUsage_not_trimmable s : hasUsage s = true -> isTrimmable s = false.
Proof.
  unfold hasUsage, isTrimmable.
  destruct (hasLength (declaration s)), (hasLength (definition s)),
    (hasLength (implementation s)), (hasLength (reference s)),
    (hasLength (typeDefinition s)); simpl; intros H;
    first [reflexivity|discriminate].
Qed.

Lemma hasUsage_set_aliasAmount v s : hasUsage (set_aliasAmount v s) = hasUsage s.
Proof. reflexivity. Qed.

(** A used symbol stored directly in a map survives [trimMap], in place. *)
Lemma trimMap_keeps_used map :
  forall path st id a members s,
    mapGet map id = Some (a, members) ->
    heap st !! a = Some s -> hasUsage s = true ->
    exists members', mapGet (fst (trimMap map path st)) id = Some (a, members').
Proof.
  assert (Hkept : forall (m : SymbolMap) path st a s,
            heap st !! a = Some s -> hasUsage s = true ->
            exists s', heap (snd (trimMap m path st)) !! a = Some s'
                       /\ hasUsage s' = true).
  { intros m path st a s Hs Hused.
    pose proof (trimMap_keeps hasUsage hasUsage_set_aliasAmount m path st a)
      as Hk.
    rewrite Hs in Hk.
    destruct (heap (snd (trimMap m path st)) !! a) as [s'|]; [|discriminate].
    exists s'. split; [reflexivity|]. simpl in Hk. congruence. }
  assert (Hremoval : forall path b st a s,
            heap st !! a = Some s -> hasUsage s = true ->
            exists s',
              heap (trigger (symbolRemoved path b)
                      match aliasOfAt (heap st) b with
                      | Some target => modifySymbol target decrementAliasAmount st
                      | None => st
                      end) !! a = Some s'
              /\ hasUsage s' = true).
  { intros path b st a s Hs Hused.
    pose proof (keeps_trigger hasUsage hasUsage_set_aliasAmount
                  (symbolRemoved path b)
                  match aliasOfAt (heap st) b with
                  | Some target => modifySymbol target decrementAliasAmount st
                  | None => st
                  end a) as Hk.
    assert (H0 : hasUsage <$> heap
                   match aliasOfAt (heap st) b with
                   | Some target => modifySymbol target decrementAliasAmount st
                   | None => st
                   end !! a = Some true).
    { destruct (aliasOfAt (heap st) b).
      - rewrite (keeps_decrement hasUsage _ hasUsage_set_aliasAmount).
        now rewrite Hs; simpl; rewrite Hused.
      - now rewrite Hs; simpl; rewrite Hused. }
    rewrite H0 in Hk.
    destruct (heap (trigger _ _) !! a) as [s'|]; [|discriminate].
    exists s'. split; [reflexivity|]. simpl in Hk. congruence. }
  induction map as [|k b rest IHrest|k b mm rest IHmm IHrest]
    using SymbolMap_tree_ind; intros path st id a members s Hget Hs Hused;
    [discriminate|..]; cbn [trimMap]; cbn [mapGet] in Hget.
  - destruct (decide (k = id)) as [->|Hne].
    + injection Hget as <- <-. unfold isTrimmableAt. rewrite Hs.
      rewrite (hasUsage_not_trimmable s Hused).
      destruct (trimMap rest path st) as [rest' st']. cbn.
      rewrite decide_True by reflexivity. eauto.
    + destruct (isTrimmableAt (heap st) b).
      * destruct (Hremoval path b st a s Hs Hused) as (s' & Hs' & Hused').
        exact (IHrest _ _ id a members s' Hget Hs' Hused').
      * specialize (IHrest path st id a members s Hget Hs Hused).
        destruct (trimMap rest path st) as [rest' st']. cbn in *.
        now rewrite decide_False.
  - destruct (decide (k = id)) as [->|Hne].
    + injection Hget as <- <-. unfold isTrimmableAt. rewrite Hs.
      rewrite (hasUsage_not_trimmable s Hused).
      destruct (trimMap mm (path ++ [id]) st) as [mm' st1].
      destruct (trimMap rest path st1) as [rest' st2]. cbn.
      rewrite decide_True by reflexivity. eauto.
    + destruct (isTrimmableAt (heap st) b).
      * destruct (Hremoval path b st a s Hs Hused) as (s' & Hs' & Hused').
        exact (IHrest _ _ id a members s' Hget Hs' Hused').
      * destruct (Hkept mm (path ++ [k]) st a s Hs Hused) as (s' & Hs' & Hused').
        destruct (trimMap mm (path ++ [k]) st) as [mm' st1].
        specialize (IHrest path st1 id a members s' Hget Hs' Hused').
        destruct (trimMap rest path st1) as [rest' st2]. cbn in *.
        now rewrite decide_False.
Qed.

Lemma trimMap_stays_used (m : SymbolMap) path st a s :
  heap st !! a = Some s -> hasUsage s = true ->
  exists s', heap (snd (trimMap m path st)) !! a = Some s'
             /\ hasUsage s' = true.
Proof.
  intros Hs Hused.
  pose proof (trimMap_keeps hasUsage hasUsage_set_aliasAmount m path st a)
    as Hk.
  rewrite Hs in Hk.
  destruct (heap (snd (trimMap m path st)) !! a) as [s'|]; [|discriminate].
  exists s'. split; [reflexivity|]. simpl in Hk. congruence.
Qed.

(** X14. [trim] never removes a top-level symbol that has a usage location:
    a lookup by category and identifier that found it before the call finds
    it after the call. *)
Theorem trim_keeps_used (table : SymbolTable) (st : Store)
  (category id : string) (map : SymbolMap) (a : addr)
  (members : option SymbolMap) (s : Symbol) :
  dictGet table category = Some map ->
  mapGet map id = Some (a, members) ->
  heap st !! a = Some s -> hasUsage s = true ->
  LookupResult.symbol (lookupTable (fst (trim table st)) category [id])
  = Some a.
Proof.
  revert st s.
  induction table as [|[c m] table IH]; intros st s Hmap Hget Hs Hused;
    [discriminate|].
  cbn [dictGet] in Hmap. cbn [trim].
  destruct (decide (c = category)) as [->|Hne].
  - injection Hmap as ->.
    destruct (trimMap_keeps_used map [] st id a members s Hget Hs Hused)
      as [members' Hget'].
    destruct (trimMap map [] st) as [map' st1].
    destruct (trim table st1) as [table' st2]. cbn [fst] in *.
    assert (Hempty : mapIsEmpty map' = false)
      by (destruct map'; [discriminate|reflexivity]).
    rewrite Hempty. unfold lookupTable. cbn [dictGet].
    rewrite decide_True by reflexivity. simpl. now rewrite Hget'.
  - destruct (trimMap_stays_used m [] st a s Hs Hused) as (s' & Hs' & Hused').
    destruct (trimMap m [] st) as [m' st1]. cbn [snd] in Hs'.
    specialize (IH st1 s' Hmap Hget Hs' Hused').
    destruct (trim table st1) as [table' st2]. cbn [fst] in *.
    destruct (mapIsEmpty m'); [exact IH|].
    unfold lookupTable in *. cbn [dictGet].
    now rewrite decide_False.
Qed.

Lemma trim_keeps_used_witness :
  LookupResult.symbol
    (lookupTable (fst (trim plainTable plainStore)) "type" ["Used"])
  = Some 0.
Proof.
  apply (trim_keeps_used plainTable plainStore "type" "Used"
           (map_entry "Used" 0 None (map_entry "Unused" 1 None map_empty))
           0 None
           (usageSet UReference
              (Some [mkLocation "file:///a.nbtdoc" None None false None None])
              (bareSymbol "type" "Used"))); reflexivity.
Defined.

(** ** The events of [trim] *)

Lemma removalView_set_aliasAmount v s :
  removalView (set_aliasAmount v s) = removalView s.
Proof. reflexivity. Qed.

Lemma isRemovalEvent_weaken h symbols symbols' e :
  (forall a, a ∈ symbols -> a ∈ symbols') ->
  isRemovalEvent h symbols e -> isRemovalEvent h symbols' e.
Proof.
  intros Hsub. destruct e; simpl; try tauto; intros [? ?]; auto.
Qed.

Lemma removalView_aliasOfAt (h h' : Heap) a :
  removalView <$> h' !! a = removalView <$> h !! a ->
  aliasOfAt h' a = aliasOfAt h a.
Proof.
  unfold aliasOfAt. destruct (h' !! a), (h !! a); simpl; intros H;
    try discriminate; [|reflexivity].
  unfold removalView in H. congruence.
Qed.

Lemma removalView_hasUsage (h h' : Heap) a :
  removalView <$> h' !! a = removalView <$> h !! a ->
  hasUsage <$> h' !! a = hasUsage <$> h !! a.
Proof.
  destruct (h' !! a), (h !! a); simpl; intros H;
    try discriminate; [|reflexivity].
  unfold removalView in H. congruence.
Qed.

Lemma isTrimmableAt_unused (h : Heap) a :
  isTrimmableAt h a = true -> hasUsage <$> h !! a <> Some true.
Proof.
  unfold isTrimmableAt. destruct (h !! a) as [s|]; simpl; [|discriminate].
  intros Htrim [= Hused]. apply hasUsage_not_trimmable in Hused. congruence.
Qed.

(** The store after one removal of [trimMap]. *)
Lemma removal_events path b st :
  let st1 :=
    match aliasOfAt (heap st) b with
    | Some target => modifySymbol target decrementAliasAmount st
    | None => st
    end in
  let st2 := trigger (symbolRemoved path b) st1 in
  published st2 =
    published st ++ symbolRemoved path b
      :: match aliasOfAt (heap st) b with
         | Some target => [symbolAliasRemoved target path b]
         | None => []
         end
  /\ forall a, removalView <$> heap st2 !! a = removalView <$> heap st !! a.
Proof.
  cbv zeta. split.
  - assert (Halias : aliasOfAt
              (heap match aliasOfAt (heap st) b with
                    | Some target => modifySymbol target decrementAliasAmount st
                    | None => st
                    end) b = aliasOfAt (heap st) b).
    { destruct (aliasOfAt (heap st) b) as [target|] eqn:Hb; [|exact Hb].
      rewrite <- Hb.
      apply (keeps_aliasOfAt (modifySymbol target decrementAliasAmount)).
      apply keeps_decrement. reflexivity. }
    unfold trigger. cbn [publish heap]. rewrite Halias.
    destruct (aliasOfAt (heap st) b) as [target|]; cbn.
    + now rewrite <- app_assoc.
    + reflexivity.
  - intros a. rewrite keeps_trigger by apply removalView_set_aliasAmount.
    destruct (aliasOfAt (heap st) b); [|reflexivity].
    apply keeps_decrement. apply removalView_set_aliasAmount.
Qed.

Lemma trimMap_events map :
  forall path st h,
    (forall a, removalView <$> heap st !! a = removalView <$> h !! a) ->
    exists evs,
      published (snd (trimMap map path st)) = published st ++ evs
      /\ Forall (isRemovalEvent h (mapSymbols map)) evs.
Proof.
  assert (Hhead : forall path b st h symbols,
            (forall a, removalView <$> heap st !! a = removalView <$> h !! a) ->
            isTrimmableAt (heap st) b = true -> b ∈ symbols ->
            Forall (isRemovalEvent h symbols)
              (symbolRemoved path b
                 :: match aliasOfAt (heap st) b with
                    | Some target => [symbolAliasRemoved target path b]
                    | None => []
                    end)).
  { intros path b st h symbols Hview Htrim Hin.
    apply Forall_cons. split.
    - simpl. split; [exact Hin|].
      rewrite <- (removalView_hasUsage h (heap st) b (Hview b)).
      now apply isTrimmableAt_unused.
    - destruct (aliasOfAt (heap st) b) as [target|] eqn:Hb; [|constructor].
      apply Forall_cons. split; [|constructor]. simpl. split; [exact Hin|].
      now rewrite <- (removalView_aliasOfAt h (heap st) b (Hview b)). }
  induction map as [|id b rest IHrest|id b mm rest IHmm IHrest]
    using SymbolMap_tree_ind; intros path st h Hview.
  - exists []. split; [simpl; now rewrite app_nil_r|constructor].
  - cbn [trimMap]. destruct (isTrimmableAt (heap st) b) eqn:Htrim.
    + destruct (removal_events path b st) as [Hpub Hkeep].
      cbv zeta in Hpub, Hkeep.
      destruct (IHrest path _ h (fun a => eq_trans (Hkeep a) (Hview a)))
        as (evs & Hevs & Hall).
      eexists. split.
      * rewrite Hevs, Hpub, <- app_assoc. reflexivity.
      * apply Forall_app. split.
        -- apply (Hhead path b st h); [exact Hview|exact Htrim|].
           simpl. apply list_elem_of_here.
        -- eapply Forall_impl; [exact Hall|].
           intros e. apply isRemovalEvent_weaken. intros a Ha. simpl.
           now apply list_elem_of_further.
    + destruct (IHrest path st h Hview) as (evs & Hevs & Hall).
      destruct (trimMap rest path st) as [rest' st']. cbn [snd] in *.
      exists evs. split; [exact Hevs|].
      eapply Forall_impl; [exact Hall|].
      intros e. apply isRemovalEvent_weaken. intros a Ha. simpl.
      now apply list_elem_of_further.
  - cbn [trimMap]. destruct (isTrimmableAt (heap st) b) eqn:Htrim.
    + destruct (removal_events path b st) as [Hpub Hkeep].
      cbv zeta in Hpub, Hkeep.
      destruct (IHrest path _ h (fun a => eq_trans (Hkeep a) (Hview a)))
        as (evs & Hevs & Hall).
      eexists. split.
      * rewrite Hevs, Hpub, <- app_assoc. reflexivity.
      * apply Forall_app. split.
        -- apply (Hhead path b st h); [exact Hview|exact Htrim|].
           simpl. apply list_elem_of_here.
        -- eapply Forall_impl; [exact Hall|].
           intros e. apply isRemovalEvent_weaken. intros a Ha. simpl.
           apply list_elem_of_further, elem_of_app. now right.
    + destruct (IHmm (path ++ [id]) st h Hview) as (evs1 & Hevs1 & Hall1).
      pose proof (trimMap_keeps removalView removalView_set_aliasAmount mm
                    (path ++ [id]) st) as Hkeep.
      destruct (trimMap mm (path ++ [id]) st) as [mm' st1]. cbn [snd] in *.
      destruct (IHrest path st1 h (fun a => eq_trans (Hkeep a) (Hview a)))
        as (evs2 & Hevs2 & Hall2).
      destruct (trimMap rest path st1) as [rest' st2]. cbn [snd] in *.
      exists (evs1 ++ evs2). split.
      * now rewrite Hevs2, Hevs1, <- app_assoc.
      * apply Forall_app. split.
        -- eapply Forall_impl; [exact Hall1|].
           intros e. apply isRemovalEvent_weaken. intros a Ha. simpl.
           apply list_elem_of_further, elem_of_app. now left.
        -- eapply Forall_impl; [exact Hall2|].
           intros e. apply isRemovalEvent_weaken. intros a Ha. simpl.
           apply list_elem_of_further, elem_of_app. now right.
Qed.

Lemma trim_events (table : SymbolTable) :
  forall st h,
    (forall a, removalView <$> heap st !! a = removalView <$> h !! a) ->
    exists evs,
      published (snd (trim table st)) = published st ++ evs
      /\ Forall (isRemovalEvent h (tableSymbols table)) evs.
Proof.
  induction table as [|[c m] table IH]; intros st h Hview.
  - exists []. split; [simpl; now rewrite app_nil_r|constructor].
  - cbn [trim].
    destruct (trimMap_events m [] st h Hview) as (evs1 & Hevs1 & Hall1).
    pose proof (trimMap_keeps removalView removalView_set_aliasAmount m [] st)
      as Hkeep.
    destruct (trimMap m [] st) as [m' st1]. cbn [snd] in *.
    destruct (IH st1 h (fun a => eq_trans (Hkeep a) (Hview a)))
      as (evs2 & Hevs2 & Hall2).
    destruct (trim table st1) as [table' st2]. cbn [snd] in *.
    exists (evs1 ++ evs2). split.
    + now rewrite Hevs2, Hevs1, <- app_assoc.
    + unfold tableSymbols. cbn [List.map concat snd].
      apply Forall_app. split.
      * eapply Forall_impl; [exact Hall1|].
        intros e. apply isRemovalEvent_weaken. intros a Ha.
        apply elem_of_app. now left.
      * eapply Forall_impl; [exact Hall2|].
        intros e. apply isRemovalEvent_weaken. intros a Ha.
        apply elem_of_app. now right.
Qed.

(** X15. [trim] writes no field of any symbol object but [aliasAmount], and
    adds to the published events only removals: ['symbolRemoved'] for symbols
    of the table that have no usage location, and ['symbolAliasRemoved'] for
    symbols of the table and the target they are an alias of. *)
Theorem trim_publishes_removals (table : SymbolTable) (st : Store) :
  (forall a,
     frozenView <$> heap (snd (trim table st)) !! a
     = frozenView <$> heap st !! a)
  /\ exists evs,
       published (snd (trim table st)) = published st ++ evs
       /\ Forall (isRemovalEvent (heap st) (tableSymbols table)) evs.
Proof.
  split.
  - intros a. apply trim_keeps. reflexivity.
  - apply trim_events. reflexivity.
Qed.

(** ** The usage lists after [removeLocations] *)

Section RemovedLocations.
Variable predicate : SymbolLocation -> bool.

Lemma kept_kept_fmap (l : option (list SymbolLocation)) :
  keptLocations predicate <$> (keptLocations predicate <$> l)
  = keptLocations predicate <$> l.
Proof. destruct l; simpl; [|reflexivity]. now rewrite kept_kept. Qed.

Lemma removeLocationsOfTypes_usageAt path symbol types :
  forall st a t,
    usageAt
      (heap (foldl (removeLocationsOfType predicate path symbol) st types)) a t
    = if decide (symbol = a /\ t ∈ types)
      then keptLocations predicate <$> usageAt (heap st) a t
      else usageAt (heap st) a t.
Proof.
  induction types as [|type types IH]; intros st a t; cbn [foldl].
  - rewrite decide_False; [reflexivity|].
    intros [_ H]. now apply elem_of_nil in H.
  - rewrite IH, removeLocationsOfType_usageAt.
    destruct (decide (symbol = a /\ type = t)) as [[-> ->]|Hne].
    + rewrite (decide_True (P := a = a /\ t ∈ t :: types))
        by (split; [reflexivity|apply list_elem_of_here]).
      destruct (decide (a = a /\ t ∈ types)); [apply kept_kept_fmap|reflexivity].
    + destruct (decide (symbol = a /\ t ∈ types)) as [[-> Hin]|Hout].
      * rewrite decide_True; [reflexivity|].
        split; [reflexivity|now apply list_elem_of_further].
      * rewrite decide_False; [reflexivity|].
        intros [-> Hin]. apply elem_of_cons in Hin as [->|Hin];
          [now apply Hne|now apply Hout].
Qed.

Lemma removeLocationsOfAllTypes_usageAt path symbol st a t :
  usageAt
    (heap (foldl (removeLocationsOfType predicate path symbol) st
             SymbolUsageTypes)) a t
  = if decide (symbol = a)
    then keptLocations predicate <$> usageAt (heap st) a t
    else usageAt (heap st) a t.
Proof.
  rewrite removeLocationsOfTypes_usageAt.
  assert (Hall : t ∈ SymbolUsageTypes)
    by (destruct t; unfold SymbolUsageTypes; set_solver).
  destruct (decide (symbol = a)) as [->|Hne].
  - now rewrite decide_True.
  - rewrite decide_False; [reflexivity|]. now intros [? _].
Qed.

Lemma removeLocationsFromMap_usageAt map :
  forall path st a t,
    usageAt (heap (removeLocationsFromMap map predicate path st)) a t
    = if decide (a ∈ mapSymbols map)
      then keptLocations predicate <$> usageAt (heap st) a t
      else usageAt (heap st) a t.
Proof.
  induction map as [|id b rest IHrest|id b mm rest IHmm IHrest]
    using SymbolMap_tree_ind; intros path st a t.
  - cbn [removeLocationsFromMap mapSymbols].
    rewrite decide_False; [reflexivity|]. apply not_elem_of_nil.
  - cbn [removeLocationsFromMap mapSymbols].
    rewrite IHrest, removeLocationsOfAllTypes_usageAt.
    destruct (decide (b = a)) as [->|Hne].
    + rewrite (decide_True (P := a ∈ a :: [] ++ mapSymbols rest))
        by apply list_elem_of_here.
      destruct (decide (a ∈ mapSymbols rest));
        [apply kept_kept_fmap|reflexivity].
    + destruct (decide (a ∈ mapSymbols rest)) as [Hin|Hout].
      * rewrite decide_True; [reflexivity|]. now apply list_elem_of_further.
      * rewrite decide_False; [reflexivity|].
        intros Hin. apply elem_of_cons in Hin as [->|Hin];
          [now apply Hne|now apply Hout].
  - cbn [removeLocationsFromMap mapSymbols].
    rewrite IHrest, IHmm, removeLocationsOfAllTypes_usageAt.
    destruct (decide (a ∈ b :: mapSymbols mm ++ mapSymbols rest))
      as [Hin|Hout].
    + destruct (decide (a ∈ mapSymbols rest)), (decide (a ∈ mapSymbols mm)),
        (decide (b = a)); rewrite ?kept_kept_fmap; try reflexivity.
      exfalso. apply elem_of_cons in Hin as [->|Hin]; [congruence|].
      apply elem_of_app in Hin as [Hin|Hin]; contradiction.
    + rewrite !decide_False; [reflexivity|..].
      * intros ->. apply Hout, list_elem_of_here.
      * intros Hin. apply Hout, list_elem_of_further, elem_of_app. now left.
      * intros Hin. apply Hout, list_elem_of_further, elem_of_app. now right.
Qed.

Lemma removeLocationsFromTable_usageAt (table : SymbolTable) :
  forall st a t,
    usageAt
      (heap (foldl (fun st entry =>
                      removeLocationsFromMap (snd entry) predicate [] st)
               st table)) a t
    = if decide (a ∈ tableSymbols table)
      then keptLocations predicate <$> usageAt (heap st) a t
      else usageAt (heap st) a t.
Proof.
  induction table as [|[c m] table IH]; intros st a t; cbn [foldl snd].
  - rewrite decide_False; [reflexivity|]. apply not_elem_of_nil.
  - rewrite IH, removeLocationsFromMap_usageAt.
    unfold tableSymbols. cbn [List.map concat snd].
    fold (tableSymbols table).
    destruct (decide (a ∈ mapSymbols m ++ tableSymbols table)) as [Hin|Hout].
    + destruct (decide (a ∈ tableSymbols table)), (decide (a ∈ mapSymbols m));
        rewrite ?kept_kept_fmap; try reflexivity.
      exfalso. apply elem_of_app in Hin as [Hin|Hin]; contradiction.
    + rewrite !decide_False; [reflexivity|..].
      * intros Hin. apply Hout, elem_of_app. now left.
      * intros Hin. apply Hout, elem_of_app. now right.
Qed.

Lemma usageAt_usageView (h h' : Heap) a t :
  usageView <$> h' !! a = usageView <$> h !! a ->
  usageAt h' a t = usageAt h a t.
Proof.
  unfold usageAt. destruct (h' !! a), (h !! a); simpl; intros H;
    try discriminate; [|reflexivity].
  apply usageGet_usageView. congruence.
Qed.

Lemma removeLocations_usageAt (table : SymbolTable) st a t :
  usageAt (heap (snd (removeLocations table predicate st))) a t
  = if decide (a ∈ tableSymbols table)
    then keptLocations predicate <$> usageAt (heap st) a t
    else usageAt (heap st) a t.
Proof.
  unfold removeLocations.
  rewrite <- removeLocationsFromTable_usageAt.
  apply usageAt_usageView, trim_keeps. reflexivity.
Qed.

(** When no recorded location matches, nothing is written. *)
Lemma foldl_locationRemoved_fixed path symbol type locations st :
  Forall (fun l => predicate l = false) locations ->
  foldl (fun st location =>
           if predicate location
           then trigger (symbolLocationRemoved path symbol type location) st
           else st) st locations = st.
Proof.
  induction 1 as [|l locations Hl _ IH]; cbn [foldl]; [reflexivity|].
  now rewrite Hl.
Qed.

Lemma keptLocations_fixed locations :
  Forall (fun l => predicate l = false) locations ->
  keptLocations predicate locations = locations.
Proof.
  unfold keptLocations. induction 1 as [|l locations Hl _ IH]; simpl;
    [reflexivity|].
  rewrite Hl. simpl. now rewrite IH.
Qed.

Lemma usageSet_same type s : usageSet type (usageGet type s) s = s.
Proof. now destruct s, type. Qed.

Lemma removeLocationsOfType_fixed path symbol st type :
  retractedAt predicate (heap st) symbol ->
  removeLocationsOfType predicate path symbol st type = st.
Proof.
  intros Hret. unfold removeLocationsOfType.
  destruct (heap st !! symbol ≫= usageGet type) as [locations|] eqn:Hlocs;
    [|reflexivity].
  assert (Hnone : Forall (fun l => predicate l = false) locations).
  { apply Forall_forall. intros l Hl. exact (Hret type locations l Hlocs Hl). }
  rewrite foldl_locationRemoved_fixed by exact Hnone.
  fold (keptLocations predicate locations).
  rewrite keptLocations_fixed by exact Hnone.
  destruct (heap st !! symbol) as [s|] eqn:Hs; [|discriminate].
  simpl in Hlocs. unfold modifySymbol.
  rewrite (alter_fixed _ symbol (heap st) s Hs).
  - now destruct st.
  - rewrite <- Hlocs. apply usageSet_same.
Qed.

Lemma removeLocationsOfTypes_fixed path symbol types st :
  retractedAt predicate (heap st) symbol ->
  foldl (removeLocationsOfType predicate path symbol) st types = st.
Proof.
  intros Hret. induction types as [|type types IH]; cbn [foldl];
    [reflexivity|].
  now rewrite removeLocationsOfType_fixed.
Qed.

Lemma removeLocationsFromMap_fixed map :
  forall path st,
    (forall a, a ∈ mapSymbols map -> retractedAt predicate (heap st) a) ->
    removeLocationsFromMap map predicate path st = st.
Proof.
  induction map as [|id b rest IHrest|id b mm rest IHmm IHrest]
    using SymbolMap_tree_ind; intros path st Hret; [reflexivity|..];
    cbn [removeLocationsFromMap]; cbn [mapSymbols] in Hret.
  - rewrite removeLocationsOfTypes_fixed by apply Hret, list_elem_of_here.
    apply IHrest. intros a Ha. now apply Hret, list_elem_of_further.
  - rewrite removeLocationsOfTypes_fixed by apply Hret, list_elem_of_here.
    rewrite IHmm.
    + apply IHrest. intros a Ha.
      apply Hret, list_elem_of_further, elem_of_app. now right.
    + intros a Ha. apply Hret, list_elem_of_further, elem_of_app. now left.
Qed.

Lemma removeLocationsFromTable_fixed (table : SymbolTable) st :
  retractedIn predicate (heap st) table ->
  foldl (fun st entry => removeLocationsFromMap (snd entry) predicate [] st)
    st table = st.
Proof.
  induction table as [|[c m] table IH]; intros Hret; cbn [foldl snd];
    [reflexivity|].
  unfold retractedIn, tableSymbols in Hret. cbn [List.map concat snd] in Hret.
  rewrite removeLocationsFromMap_fixed.
  - apply IH. intros a Ha. apply Hret, elem_of_app. now right.
  - intros a Ha. apply Hret, elem_of_app. now left.
Qed.
End RemovedLocations.

(** X16. After [removeLocations], every usage list of every symbol of the
    table, members included, is the former list without the locations that
    match the predicate, in the former order; the usage lists of every symbol
    that is not in the table are as they were. *)
Theorem removeLocations_filters_usage
  (predicate : SymbolLocation -> bool) (table : SymbolTable) (st : Store)
  (a : addr) (type : SymbolUsageType) :
  usageAt (heap (snd (removeLocations table predicate st))) a type
  = if decide (a ∈ tableSymbols table)
    then keptLocations predicate <$> usageAt (heap st) a type
    else usageAt (heap st) a type.
Proof. apply removeLocations_usageAt. Qed.

(** X17. When no location recorded for a symbol of the table matches the
    predicate, [removeLocations] does what [trim] does and nothing more: no
    location event is published and no usage list is rewritten. *)
Theorem removeLocations_nothing_matches
  (predicate : SymbolLocation -> bool) (table : SymbolTable) (st : Store) :
  retractedIn predicate (heap st) table ->
  removeLocations table predicate st = trim table st.
Proof.
  intros Hret. unfold removeLocations.
  now rewrite removeLocationsFromTable_fixed.
Qed.

Lemma removeLocations_nothing_matches_witness :
  removeLocations plainTable (fun _ => false) plainStore
  = trim plainTable plainStore.
Proof.
  apply (removeLocations_nothing_matches (fun _ => false) plainTable plainStore).
  intros a Ha type locations location Hlocs Hl. reflexivity.
Defined.

(** ** Document stacks *)

Lemma stackAt_fresh (u : SymbolUtil) (stack : SymbolStack) uri' :
  stackAt
    (mkUtil (global u) (<[uri' := length (arrays u)]> (stacks u))
       (arrays u ++ [stack]) (store u) (isUriBinding u))
    (length (arrays u)) = stack.
Proof.
  unfold stackAt. cbn [arrays].
  rewrite lookup_app_r by lia. now rewrite Nat.sub_diag.
Qed.

(** X18. [getStack] registers a one-frame stack for a document that has
    none and returns the registered array otherwise: after the call the
    document is registered under the returned array, a second call returns
    the same array and changes nothing, and the first call changed nothing
    when the document was registered.  The stacks of the other documents,
    the arrays that existed, the global table, the symbols and the flag are
    untouched. *)
Theorem getStack_registers (uri : string) (u u1 : SymbolUtil) (r : StackRef) :
  getStack uri u = (u1, r) ->
  stacks u1 !! uri = Some r
  /\ getStack uri u1 = (u1, r)
  /\ (stacks u !! uri = None -> stackAt u1 r = [[]])
  /\ (is_Some (stacks u !! uri) -> u1 = u)
  /\ (forall uri', uri' <> uri -> stacks u1 !! uri' = stacks u !! uri')
  /\ (forall r', r' < length (arrays u) -> stackAt u1 r' = stackAt u r')
  /\ global u1 = global u /\ store u1 = store u
  /\ isUriBinding u1 = isUriBinding u.
Proof.
  unfold getStack. destruct (stacks u !! uri) as [r0|] eqn:Hreg.
  - intros [= <- <-]. rewrite Hreg. repeat split; auto. discriminate.
  - intros [= <- <-]. cbn [stacks global store isUriBinding arrays].
    rewrite lookup_insert_eq. repeat split; auto.
    + intros _. apply stackAt_fresh.
    + intros [? ?]. discriminate.
    + intros uri' Hne. now rewrite lookup_insert_ne.
    + intros r' Hr'. unfold stackAt. cbn [arrays].
      now rewrite lookup_app_l.
Qed.

Lemma getStack_registers_witness :
  stacks (fst (getStack "file:///b.nbtdoc" tiersUtil)) !! "file:///b.nbtdoc"
  = Some 1.
Proof.
  apply (getStack_registers "file:///b.nbtdoc" tiersUtil
           (fst (getStack "file:///b.nbtdoc" tiersUtil)) 1).
  reflexivity.
Defined.

(** X19. A stack registered by [setStack] is the one [getStack] returns and
    the one [lookup] consults after the global table, whatever stack the
    document had before; the stacks of the other documents are untouched. *)
Theorem setStack_then_getStack (uri : string) (stack : SymbolStack)
  (u : SymbolUtil) :
  let u1 := setStack uri stack u in
  getStack uri u1 = (u1, length (arrays u))
  /\ stackAt u1 (length (arrays u)) = stack
  /\ (uri <> "" ->
      forall category path,
        lookup category path (Some uri) u1
        = (u1, lookupTables (global u :: stack) category path))
  /\ (forall uri', uri' <> uri -> stacks u1 !! uri' = stacks u !! uri')
  /\ forall r', r' < length (arrays u) -> stackAt u1 r' = stackAt u r'.
Proof.
  cbv zeta.
  assert (Hget : getStack uri (setStack uri stack u)
                 = (setStack uri stack u, length (arrays u))).
  { unfold getStack, setStack. cbn [stacks]. now rewrite lookup_insert_eq. }
  assert (Hat : stackAt (setStack uri stack u) (length (arrays u)) = stack)
    by apply stackAt_fresh.
  split; [exact Hget|]. split; [exact Hat|]. split; [|split].
  - intros Huri category path. unfold lookup, truthy.
    rewrite (bool_decide_eq_false_2 _ Huri). cbn [negb].
    rewrite Hget, Hat. reflexivity.
  - intros uri' Hne. unfold setStack. cbn [stacks].
    now rewrite lookup_insert_ne.
  - intros r' Hr'. unfold stackAt, setStack. cbn [arrays].
    now rewrite lookup_app_l.
Qed.

(** X20. [clear] unregisters the stack of the document, so that the next
    [getStack] starts from a stack of one empty frame, and leaves the other
    documents and every stack array alone.  In the global table it removes
    from every usage list the locations of the document that are not URI
    bound, and only those: afterwards no such location is recorded for a
    symbol of the global table, and the usage lists of the symbols outside
    the global table are as they were. *)
Theorem clear_forgets_document (uri' : string) (u : SymbolUtil) :
  let u1 := clear uri' u in
  stacks u1 !! uri' = None
  /\ (forall u2 r, getStack uri' u1 = (u2, r) -> stackAt u2 r = [[]])
  /\ (forall other, other <> uri' -> stacks u1 !! other = stacks u !! other)
  /\ arrays u1 = arrays u
  /\ (forall a type,
        usageAt (heap (store u1)) a type
        = if decide (a ∈ tableSymbols (global u))
          then keptLocations (clearedBy uri') <$> usageAt (heap (store u)) a type
          else usageAt (heap (store u)) a type)
  /\ retractedIn (clearedBy uri') (heap (store u1)) (global u1).
Proof.
  cbv zeta. unfold clear, removeGlobalLocations.
  cbn [global stacks arrays store isUriBinding].
  fold (clearedBy uri').
  pose proof (removeLocations_usageAt (clearedBy uri') (global u) (store u))
    as Husage.
  pose proof (removeLocations_retracted (clearedBy uri') (global u) (store u))
    as Hret.
  destruct (removeLocations (global u) (clearedBy uri') (store u))
    as [table st]. cbn [fst snd] in *.
  cbn [global stacks arrays store isUriBinding].
  assert (Hgone : delete uri' (stacks u) !! uri' = None)
    by apply lookup_delete_eq.
  split; [exact Hgone|]. split; [|split; [|split; [|split]]].
  - intros u2 r. unfold getStack. cbn [stacks arrays]. rewrite Hgone.
    intros [= <- <-]. unfold stackAt. cbn [arrays].
    rewrite lookup_app_r by lia. now rewrite Nat.sub_diag.
  - intros other Hne. now apply lookup_delete_ne.
  - reflexivity.
  - exact Husage.
  - exact Hret.
Qed.

(** X21. When the callback of [block] leaves the frames it found in place
    and the pushed frame last, whatever it entered into that frame, [block]
    pops it: the stack is again what it was, the block completes as the
    callback did, and the rest of the state is what the callback left.  On a
    stack that was registered empty the same callback makes [block] throw,
    and the pushed frame stays. *)
Theorem block_discards_frame
  (uri : string) (callbackFn : Callback) (u u1 u2 : SymbolUtil)
  (stack : StackRef) (completion : Completion unit) (frame : SymbolTable) :
  getStack uri u = (u1, stack) ->
  callbackFn (setArray stack (stackAt u1 stack ++ [[]]) u1) = (u2, completion) ->
  stackAt u2 stack = stackAt u1 stack ++ [frame] ->
  (stackAt u1 stack <> [] ->
   exists u',
     block uri callbackFn u = (u', completion)
     /\ stackAt u' stack = stackAt u1 stack
     /\ global u' = global u2 /\ store u' = store u2
     /\ stacks u' = stacks u2 /\ isUriBinding u' = isUriBinding u2)
  /\ (stackAt u1 stack = [] ->
      block uri callbackFn u = (u2, Throw UnableToPopBlock)).
Proof.
  intros Hget Hrun Hframes. unfold block. rewrite Hget, Hrun, Hframes.
  rewrite length_app. cbn [length]. split.
  - intros Hne. destruct (stackAt u1 stack) as [|f fs] eqn:Hu1; [congruence|].
    cbn [length]. rewrite leb_correct_conv by lia.
    eexists. split; [reflexivity|]. split; [|repeat split].
    rewrite stackAt_setArray.
    + now rewrite removelast_last.
    + apply stackAt_valid. rewrite Hframes, length_app. simpl. lia.
  - intros ->. reflexivity.
Qed.

Lemma block_discards_frame_witness :
  exists u',
    block "file:///a.nbtdoc" throwingCallback tiersUtil
    = (u', Throw (Thrown "{}"))
    /\ stackAt u' 0 = stackAt tiersUtil 0.
Proof.
  destruct (block_discards_frame "file:///a.nbtdoc" throwingCallback tiersUtil
              tiersUtil
              (setArray 0 (stackAt tiersUtil 0 ++ [[]]) tiersUtil)
              0 (Throw (Thrown "{}")) [] eq_refl eq_refl eq_refl)
    as [Hpop _].
  destruct Hpop as (u' & Hrun & Hstack & _); [discriminate|].
  exists u'. split; [exact Hrun|exact Hstack].
Defined.

(** ** Visible symbols *)

Lemma visibleEntries_visible (h : Heap) uri map key symbol members :
  mapGet (visibleEntries h uri map) key = Some (symbol, members) ->
  isVisible h symbol uri = true.
Proof.
  induction map as [|k a mem rest IH] using SymbolMap_entries_ind;
    [discriminate|].
  cbn [visibleEntries]. destruct (isVisible h a uri) eqn:Hvis; [|exact IH].
  cbn [mapGet]. destruct (decide (k = key)); [|exact IH].
  intros [= <- _]. exact Hvis.
Qed.

Lemma visibleEntries_kept (h : Heap) uri map key symbol members :
  mapGet map key = Some (symbol, members) ->
  isVisible h symbol uri = true ->
  mapGet (visibleEntries h uri map) key = Some (symbol, members).
Proof.
  induction map as [|k a mem rest IH] using SymbolMap_entries_ind;
    [discriminate|].
  cbn [mapGet visibleEntries]. destruct (decide (k = key)) as [->|Hne].
  - intros [= -> ->] Hvis. rewrite Hvis. cbn [mapGet].
    now rewrite decide_True.
  - intros Hget Hvis. destruct (isVisible h a uri); [|now apply IH].
    cbn [mapGet]. rewrite decide_False by assumption. now apply IH.
Qed.

Lemma lookup_global_store category path uri u :
  global (fst (lookup category path uri u)) = global u
  /\ store (fst (lookup category path uri u)) = store u.
Proof.
  unfold lookup. destruct uri as [uri'|]; [|auto].
  destruct (truthy uri'); [|auto].
  unfold getStack. destruct (stacks u !! uri'); auto.
Qed.

(** X22. [getVisibleSymbols] lists no symbol whose visibility is
    [Restricted], whatever the document, and changes neither the global table
    nor any symbol.  Without a second argument, or with the empty string as
    second argument, the first one is the category and the listing comes
    from the global table alone: it holds every entry of the category whose
    symbol is not [Restricted], and the [SymbolUtil] is left as it is. *)
Theorem getVisibleSymbols_hides_restricted (param1 : string)
  (param2 : option string) (u : SymbolUtil) :
  (forall key symbol members,
     mapGet (snd (getVisibleSymbols param1 param2 u)) key
     = Some (symbol, members) ->
     heap (store u) !! symbol ≫= visibility <> Some Restricted)
  /\ global (fst (getVisibleSymbols param1 param2 u)) = global u
  /\ store (fst (getVisibleSymbols param1 param2 u)) = store u
  /\ (default "" param2 = "" ->
      getVisibleSymbols param1 param2 u
      = (u, visibleEntries (heap (store u)) None
              (default map_empty (dictGet (global u) param1)))).
Proof.
  assert (Hone : default "" param2 = "" ->
            getVisibleSymbols param1 param2 u
            = (u, visibleEntries (heap (store u)) None
                    (default map_empty (dictGet (global u) param1)))).
  { intros Hp. unfold getVisibleSymbols.
    assert (Hsel : match param2 with
                   | Some p2 =>
                       if truthy p2 then (Some param1, p2) else (None, param1)
                   | None => (None, param1)
                   end = (None, param1)).
    { destruct param2 as [p2|]; [|reflexivity]. simpl in Hp. now subst p2. }
    rewrite Hsel. unfold lookup. rewrite lookupTables_single.
    unfold lookupTable. cbn [lookupPath LookupResult.map].
    now destruct (dictGet (global u) param1). }
  split; [|split; [|split; [|exact Hone]]].
  - unfold getVisibleSymbols.
    destruct (match param2 with
              | Some p2 =>
                  if truthy p2 then (Some param1, p2) else (None, param1)
              | None => (None, param1)
              end) as [uri category].
    pose proof (lookup_global_store category [] uri u) as [_ Hstore].
    destruct (lookup category [] uri u) as [u' result]. cbn [fst] in Hstore.
    destruct (LookupResult.map result) as [map|]; cbn [snd].
    + intros key symbol members Hget.
      apply visibleEntries_visible in Hget. rewrite Hstore in Hget.
      unfold isVisible in Hget. intros Hr. now rewrite Hr in Hget.
    + discriminate.
  - unfold getVisibleSymbols.
    destruct (match param2 with
              | Some p2 =>
                  if truthy p2 then (Some param1, p2) else (None, param1)
              | None => (None, param1)
              end) as [uri category].
    pose proof (lookup_global_store category [] uri u) as [Hglobal _].
    destruct (lookup category [] uri u) as [u' result]. cbn [fst] in Hglobal.
    now destruct (LookupResult.map result).
  - unfold getVisibleSymbols.
    destruct (match param2 with
              | Some p2 =>
                  if truthy p2 then (Some param1, p2) else (None, param1)
              | None => (None, param1)
              end) as [uri category].
    pose proof (lookup_global_store category [] uri u) as [_ Hstore].
    destruct (lookup category [] uri u) as [u' result]. cbn [fst] in Hstore.
    now destruct (LookupResult.map result).
Qed.

(** X23. The loop of [getVisibleSymbols] keeps the entries of the map it
    reads in their order and with their members: an entry whose symbol is
    not [Restricted] is listed under its key, and nothing is listed that the
    map does not hold. *)
Theorem visibleEntries_sound_and_complete (h : Heap) (uri : option string)
  (map : SymbolMap) (key : string) :
  mapKeys (visibleEntries h uri map) `sublist_of` mapKeys map
  /\ (forall symbol members,
        mapGet map key = Some (symbol, members) ->
        h !! symbol ≫= visibility <> Some Restricted ->
        mapGet (visibleEntries h uri map) key = Some (symbol, members))
  /\ (forall symbol members,
        mapGet (visibleEntries h uri map) key = Some (symbol, members) ->
        symbol ∈ mapValues map
        /\ h !! symbol ≫= visibility <> Some Restricted).
Proof.
  split; [|split].
  - induction map as [|k a mem rest IH] using SymbolMap_entries_ind;
      [reflexivity|].
    cbn [visibleEntries mapKeys]. destruct (isVisible h a uri).
    + now apply sublist_skip.
    + now apply sublist_cons.
  - intros symbol members Hget Hvis. apply visibleEntries_kept; [exact Hget|].
    unfold isVisible.
    destruct (h !! symbol ≫= visibility) as [[]|]; congruence.
  - intros symbol members Hget. split.
    + revert Hget.
      induction map as [|k a mem rest IH] using SymbolMap_entries_ind;
        [discriminate|].
      cbn [visibleEntries mapValues]. destruct (isVisible h a uri).
      * cbn [mapGet]. destruct (decide (k = key)).
        -- intros [= -> _]. apply list_elem_of_here.
        -- intros Hget. now apply list_elem_of_further, IH.
      * intros Hget. now apply list_elem_of_further, IH.
    + apply visibleEntries_visible in Hget. unfold isVisible in Hget.
      intros Hr. now rewrite Hr in Hget.
Qed.

(** * Queries *)

(** ** Lookup with references *)

Lemma lookupRefsLoop_result u refs category path :
  forall parentSymbol map from,
    snd (lookupRefsLoop u refs category path parentSymbol map from)
    = lookupTablesLoop ((fun ref => default [] (tableAt u ref)) <$> refs)
        category path parentSymbol map.
Proof.
  induction refs as [|ref outer IH]; intros parentSymbol map from;
    [reflexivity|].
  cbn [lookupRefsLoop fmap list_fmap lookupTablesLoop].
  destruct (LookupResult.symbol _); [reflexivity|].
  destruct (_ && _); apply IH.
Qed.

Lemma frames_of_refs u r :
  (fun ref => default [] (tableAt u ref))
    <$> (FrameRef r <$> seq 0 (length (stackAt u r)))
  = stackAt u r.
Proof.
  apply list_eq. intros i. rewrite !list_lookup_fmap.
  destruct (decide (i < length (stackAt u r))) as [Hlt|Hge].
  - rewrite lookup_seq_lt by exact Hlt. cbn.
    destruct (lookup_lt_is_Some_2 _ _ Hlt) as [frame Hframe].
    now rewrite Hframe.
  - rewrite lookup_seq_ge by lia. cbn.
    symmetry. apply lookup_ge_None. lia.
Qed.

Lemma tables_of_refs u stack :
  (fun ref => default [] (tableAt u ref)) <$> tableRefs u stack
  = global u :: match stack with Some r => stackAt u r | None => [] end.
Proof.
  unfold tableRefs. cbn [fmap list_fmap tableAt default]. f_equal.
  destruct stack as [r|]; [apply frames_of_refs|reflexivity].
Qed.

Lemma lookupRefs_lookupTables u stack category path :
  snd (lookupRefsLoop u (reverse (tableRefs u stack)) category path
         None None None)
  = lookupTables
      (global u :: match stack with Some r => stackAt u r | None => [] end)
      category path.
Proof.
  rewrite lookupRefsLoop_result, fmap_reverse, tables_of_refs. reflexivity.
Qed.

(** [lookupFrom] is [lookup], and tells one thing more. *)
Lemma lookupFrom_lookup category path uri u :
  (fst (lookupFrom category path uri u),
   snd (snd (lookupFrom category path uri u)))
  = lookup category path uri u.
Proof.
  unfold lookupFrom, lookup. destruct uri as [uri'|].
  - destruct (truthy uri').
    + destruct (getStack uri' u) as [u1 r]. cbn [fst snd].
      now rewrite lookupRefs_lookupTables.
    + cbn [fst snd]. now rewrite lookupRefs_lookupTables.
  - cbn [fst snd]. now rewrite lookupRefs_lookupTables.
Qed.

Lemma tableRefs_valid u stack ref :
  ref ∈ tableRefs u stack -> is_Some (tableAt u ref).
Proof.
  unfold tableRefs. rewrite elem_of_cons. intros [->|Hin]; [now eexists|].
  destruct stack as [r|]; [|now apply elem_of_nil in Hin].
  apply list_elem_of_fmap in Hin as (i & -> & Hi).
  apply elem_of_seq in Hi. cbn. apply lookup_lt_is_Some_2. lia.
Qed.

(** The table [lookupRefsLoop] names is the one its result is read from. *)
Lemma lookupRefsLoop_from u refs category path :
  forall parentSymbol map from from' result,
    lookupRefsLoop u refs category path parentSymbol map from
    = (from', result) ->
    (forall ref, ref ∈ refs -> is_Some (tableAt u ref)) ->
    (notNull parentSymbol || notNull map = true ->
     exists ref table,
       from = Some ref /\ tableAt u ref = Some table
       /\ parentSymbol
          = LookupResult.parentSymbol (lookupTable table category path)
       /\ map = LookupResult.map (lookupTable table category path)) ->
    notNull (LookupResult.parentSymbol result)
    || notNull (LookupResult.map result)
    || notNull (LookupResult.symbol result) = true ->
    exists ref table,
      from' = Some ref /\ tableAt u ref = Some table
      /\ LookupResult.parentSymbol result
         = LookupResult.parentSymbol (lookupTable table category path)
      /\ LookupResult.map result
         = LookupResult.map (lookupTable table category path)
      /\ (is_Some (LookupResult.symbol result) ->
          result = lookupTable table category path).
Proof.
  induction refs as [|ref outer IH];
    intros parentSymbol map from from' result Hrun Hvalid Hacc Hsome.
  - cbn in Hrun. injection Hrun as <- <-. cbn in Hsome.
    rewrite orb_false_r in Hsome.
    destruct (Hacc Hsome) as (ref & table & -> & Htable & -> & ->).
    exists ref, table. repeat split; auto. cbn. intros [? ?]. discriminate.
  - cbn [lookupRefsLoop] in Hrun. cbv zeta in Hrun.
    destruct (Hvalid ref (list_elem_of_here _ _)) as [table Htable].
    rewrite Htable in Hrun. cbn [default from_option id] in Hrun.
    destruct (LookupResult.symbol (lookupTable table category path))
      as [s|] eqn:Hsym.
    + injection Hrun as <- <-. exists ref, table. repeat split; auto.
    + destruct (negb (notNull parentSymbol) && negb (notNull map)
                && (notNull (LookupResult.parentSymbol
                               (lookupTable table category path))
                    || notNull (LookupResult.map
                                  (lookupTable table category path))))
        eqn:Hcond.
      * apply (IH _ _ _ _ _ Hrun); [|intros _|exact Hsome].
        -- intros ref' Hin. now apply Hvalid, list_elem_of_further.
        -- exists ref, table. repeat split; auto.
      * apply (IH _ _ _ _ _ Hrun); [|exact Hacc|exact Hsome].
        intros ref' Hin. now apply Hvalid, list_elem_of_further.
Qed.

(** ** Maps behind references *)

Lemma lookupTable_descend table category path :
  LookupResult.parentSymbol (lookupTable table category path)
  = match descend None (dictGet table category) (removelast path) with
    | Some (parent, _) => parent
    | None => None
    end
  /\ LookupResult.map (lookupTable table category path)
     = match descend None (dictGet table category) (removelast path) with
       | Some (_, map) => map
       | None => None
       end.
Proof.
  destruct path as [|leaf prefix _] using rev_ind; [split; reflexivity|].
  rewrite removelast_last. unfold lookupTable.
  rewrite lookupPath_prefix_leaf.
  destruct (descend None (dictGet table category) prefix) as [[parent m]|];
    split; reflexivity.
Qed.

Lemma lookupTable_symbol table category prefix leaf :
  LookupResult.symbol (lookupTable table category (prefix ++ [leaf]))
  = match descend None (dictGet table category) prefix with
    | Some (_, Some map) => fst <$> mapGet map leaf
    | _ => None
    end.
Proof.
  unfold lookupTable. rewrite lookupPath_prefix_leaf.
  destruct (descend None (dictGet table category) prefix) as [[parent [m|]]|];
    reflexivity.
Qed.

Lemma descend_parent owners :
  forall parentSymbol map parent m,
    owners <> [] ->
    descend parentSymbol map owners = Some (parent, m) -> is_Some parent.
Proof.
  induction owners as [|id rest IH]; intros parentSymbol map parent m Hne Hrun;
    [congruence|].
  cbn [descend] in Hrun.
  destruct (map ≫= fun m0 => mapGet m0 id) as [[symbol members]|];
    [|discriminate].
  destruct rest as [|id2 rest2].
  - cbn in Hrun. injection Hrun as <- <-. eauto.
  - now apply (IH (Some symbol) members parent m).
Qed.

Lemma mapGet_alterMembers f m id :
  mapGet (alterMembers f m id) id
  = (fun e => (fst e, f (snd e))) <$> mapGet m id.
Proof.
  induction m as [|k a mem rest IH] using SymbolMap_entries_ind;
    [reflexivity|].
  cbn [alterMembers mapGet]. destruct (decide (k = id)) as [->|Hne].
  - cbn [mapGet]. now rewrite decide_True.
  - cbn [mapGet]. now rewrite decide_False.
Qed.

Lemma setMembersAt_cons m id rest new :
  setMembersAt m (id :: rest) new
  = alterMembers
      (fun members =>
         match rest, members with
         | [], _ => Some new
         | _ :: _, Some mm => Some (setMembersAt mm rest new)
         | _ :: _, None => None
         end)
      m id.
Proof. reflexivity. Qed.

Lemma descend_setMembersAt owners :
  forall parentSymbol m new parent x,
    owners <> [] ->
    descend parentSymbol (Some m) owners = Some (parent, x) ->
    descend parentSymbol (Some (setMembersAt m owners new)) owners
    = Some (parent, Some new).
Proof.
  induction owners as [|id rest IH];
    intros parentSymbol m new parent x Hne Hrun; [congruence|].
  cbn [descend mbind option_bind] in *.
  rewrite setMembersAt_cons, mapGet_alterMembers.
  destruct (mapGet m id) as [[symbol members]|]; [|discriminate].
  cbn [fmap option_fmap option_map fst snd].
  destruct rest as [|id2 rest2].
  - cbn in *. congruence.
  - destruct members as [mm|].
    + now apply (IH (Some symbol) mm new parent x).
    + cbn in Hrun. discriminate.
Qed.

Lemma tableAt_setStore st u t : tableAt (setStore st u) t = tableAt u t.
Proof. now destruct t. Qed.

Lemma tableAt_setTable u t table :
  is_Some (tableAt u t) -> tableAt (setTable t table u) t = Some table.
Proof.
  destruct t as [|stack index]; [reflexivity|]. cbn [tableAt setTable].
  intros [old Hold].
  assert (Hindex : index < length (stackAt u stack))
    by now apply lookup_lt_Some in Hold.
  rewrite stackAt_setArray by (apply stackAt_valid; lia).
  now apply list_lookup_insert_eq.
Qed.

(** A map written through a reference that leads somewhere is read back
    through it. *)
Lemma mapAt_setMapAt u ref new table :
  tableAt u (mapTable ref) = Some table ->
  (mapOwners ref = []
   \/ is_Some (descend None (dictGet table (mapCategory ref)) (mapOwners ref))) ->
  mapAt (setMapAt ref new u) ref = Some new.
Proof.
  intros Htable Hplace. unfold mapAt, setMapAt. rewrite Htable.
  rewrite tableAt_setTable by (rewrite Htable; eauto).
  unfold setMapInTable.
  destruct (mapOwners ref) as [|id rest] eqn:Howners.
  - rewrite dictGet_dictSet_eq. reflexivity.
  - destruct Hplace as [?|[[parent x] Hdescend]]; [discriminate|].
    destruct (dictGet table (mapCategory ref)) as [m|] eqn:Hm;
      [|discriminate].
    rewrite dictGet_dictSet_eq.
    now rewrite (descend_setMembersAt (id :: rest) None m new parent x).
Qed.

(** ** The query a [query] call returns *)

Lemma getStack_again uri u u1 stack :
  getStack uri u = (u1, stack) -> getStack uri u1 = (u1, stack).
Proof.
  unfold getStack. destruct (stacks u !! uri) as [r|] eqn:Hreg.
  - intros [= <- <-]. now rewrite Hreg.
  - intros [= <- <-]. cbn [stacks]. now rewrite lookup_insert_eq.
Qed.

Lemma query_eq doc category path u u1 stack from result :
  getStack (toUri doc) u = (u1, stack) ->
  lookupRefsLoop u1
    (reverse (tableRefs u1 (if truthy (toUri doc) then Some stack else None)))
    category path None None None = (from, result) ->
  query doc category path u =
  (u1,
   SymbolQuery.mk category path
     match doc with
     | ofDocument doc' => doc'
     | ofUri uri' => TextDocument.mk uri'
     end
     match doc with ofDocument _ => false | ofUri _ => true end
     (if decide (length path = 1) then Some (createInTable stack)
      else
        match LookupResult.parentSymbol result, from with
        | Some _, Some table => Some (createMembers table (removelast path))
        | _, _ => None
        end)
     (isUriBinding u1) false
     (if match LookupResult.symbol result with
         | Some symbol => isVisible (heap (store u1)) symbol (Some (toUri doc))
         | None => false
         end
      then
        match LookupResult.map result, from with
        | Some _, Some table => Some (mkMapRef table category (removelast path))
        | _, _ => None
        end
      else None)
     (if match LookupResult.symbol result with
         | Some symbol => isVisible (heap (store u1)) symbol (Some (toUri doc))
         | None => false
         end
      then LookupResult.symbol result
      else None)).
Proof.
  intros Hget Hloop. unfold query. rewrite Hget. unfold lookupFrom.
  destruct (truthy (toUri doc)).
  - rewrite (getStack_again _ _ _ _ Hget), Hloop. reflexivity.
  - rewrite Hloop. reflexivity.
Qed.

(** The references of a query lead somewhere. *)
Lemma query_leads doc category path u u1 q :
  query doc category path u = (u1, q) ->
  SymbolQuery.category q = category
  /\ SymbolQuery.path q = path
  /\ (forall ref,
        SymbolQuery.map q = Some ref ->
        mapCategory ref = category /\ mapOwners ref = removelast path
        /\ leadsToMap u1 ref)
  /\ (forall table owners,
        SymbolQuery.createMap q = Some (createMembers table owners) ->
        owners = removelast path
        /\ leadsToMap u1 (mkMapRef table category owners))
  /\ (forall stack,
        SymbolQuery.createMap q = Some (createInTable stack) ->
        length path = 1).
Proof.
  destruct (getStack (toUri doc) u) as [u0 stack] eqn:Hget.
  destruct (lookupRefsLoop u0
              (reverse (tableRefs u0
                          (if truthy (toUri doc) then Some stack else None)))
              category path None None None) as [from result] eqn:Hloop.
  rewrite (query_eq doc category path u u0 stack from result Hget Hloop).
  intros [= <- <-]. cbn.
  assert (Hfrom :
    notNull (LookupResult.parentSymbol result)
    || notNull (LookupResult.map result)
    || notNull (LookupResult.symbol result) = true ->
    exists ref table,
      from = Some ref /\ tableAt u0 ref = Some table
      /\ LookupResult.parentSymbol result
         = LookupResult.parentSymbol (lookupTable table category path)
      /\ LookupResult.map result
         = LookupResult.map (lookupTable table category path)).
  { intros Hsome.
    assert (Hvalid : forall ref,
              ref ∈ reverse (tableRefs u0 (if truthy (toUri doc)
                                           then Some stack else None)) ->
              is_Some (tableAt u0 ref)).
    { intros ref Hin. rewrite elem_of_reverse in Hin.
      now apply tableRefs_valid in Hin. }
    assert (Hacc : notNull (@None addr) || notNull (@None SymbolMap) = true ->
              exists ref table,
                @None TableRef = Some ref /\ tableAt u0 ref = Some table
                /\ None
                   = LookupResult.parentSymbol (lookupTable table category path)
                /\ None = LookupResult.map (lookupTable table category path))
      by discriminate.
    destruct (lookupRefsLoop_from u0 _ category path None None None from result
                Hloop Hvalid Hacc Hsome) as (ref & table & ? & ? & ? & ? & _).
    eauto 10. }
  split; [reflexivity|]. split; [reflexivity|]. split; [|split].
  - intros ref Href.
    destruct (match LookupResult.symbol result with
              | Some symbol => isVisible (heap (store u0)) symbol (Some (toUri doc))
              | None => false
              end); [|discriminate].
    destruct (LookupResult.map result) as [m|] eqn:Hm; [|discriminate].
    destruct Hfrom as (ref0 & table & -> & Htable & _ & Hmap).
    { rewrite ?Hm. cbn. now rewrite orb_true_r. }
    injection Href as <-. cbn. split; [reflexivity|]. split; [reflexivity|].
    exists table. cbn. split; [exact Htable|].
    destruct (removelast path) as [|id rest] eqn:Howners; [now left|right].
    destruct (lookupTable_descend table category path) as [_ Hd].
    rewrite <- Hmap, Howners in Hd.
    destruct (descend None (dictGet table category) (id :: rest));
      [eauto|discriminate].
  - intros table owners Hcreate.
    destruct (decide (length path = 1)); [discriminate|].
    destruct (LookupResult.parentSymbol result) as [p|] eqn:Hp; [|discriminate].
    destruct Hfrom as (ref0 & table0 & -> & Htable & Hparent & _);
      [reflexivity|].
    injection Hcreate as <- <-. split; [reflexivity|].
    exists table0. cbn. split; [exact Htable|]. right.
    destruct (lookupTable_descend table0 category path) as [Hd _].
    rewrite <- Hparent in Hd.
    destruct (descend None (dictGet table0 category) (removelast path));
      [eauto|discriminate].
  - intros stack0 Hcreate.
    destruct (decide (length path = 1)); [assumption|].
    destruct (LookupResult.parentSymbol result), from; discriminate.
Qed.

(** ** Entering through a query *)

Lemma lastOfPath_snoc prefix leaf : lastOfPath (prefix ++ [leaf]) = leaf.
Proof. unfold lastOfPath. now rewrite last_snoc. Qed.

Lemma enterMap_holds map category path identifier addition doc isUriBinding st
  map' st' symbol :
  enterMap map category path identifier addition doc isUriBinding st
  = (map', st', Normal symbol) ->
  fst <$> mapGet map' identifier = Some symbol.
Proof.
  intros Hrun. apply enterMap_cases in Hrun
    as [(target & members & Hget & -> & Hret)|(Hget & -> & Hret)].
  - rewrite Hget. cbn. f_equal. symmetry. now apply Hret.
  - injection Hret as <-. now rewrite mapGet_mapSet_new.
Qed.

(** The steps of an [enter] that returns. *)
Lemma enter_returned a q u w :
  enter a (mkWorld q u) = (w, Returned tt) ->
  exists create ref map' st' symbol,
    SymbolQuery.createMap q = Some create
    /\ match SymbolQuery.map q with
       | Some r => Some r
       | None =>
           runCreateMap create (SymbolQuery.category q) (enteredAddition q a) u
       end = Some ref
    /\ enterMap (default map_empty (mapAt u ref)) (SymbolQuery.category q)
         (SymbolQuery.path q) (lastOfPath (SymbolQuery.path q))
         (enteredAddition q a) (SymbolQuery.doc q) (SymbolQuery.isUriBinding q)
         (store u) = (map', st', Normal symbol)
    /\ w = mkWorld
             (SymbolQuery.set_symbol (Some symbol)
                (SymbolQuery.set_map (Some ref) q))
             (setMapAt ref map' (setStore st' u)).
Proof.
  unfold enter. cbn [this util]. fold (enteredAddition q a).
  destruct (SymbolQuery.createMap q) as [create|]; [|discriminate].
  destruct (match SymbolQuery.map q with
            | Some r => Some r
            | None =>
                runCreateMap create (SymbolQuery.category q)
                  (enteredAddition q a) u
            end) as [ref|] eqn:Href; [|discriminate].
  cbn [SymbolQuery.set_map SymbolQuery.category SymbolQuery.path
       SymbolQuery.doc SymbolQuery.isUriBinding].
  destruct (enterMap _ _ _ _ _ _ _ _) as [[map' st'] [symbol|e]] eqn:Hrun;
    [|discriminate].
  intros [= <-]. exists create, ref, map', st', symbol. repeat split.
  - exact Href.
  - exact Hrun.
Qed.

Lemma runCreateMap_leads q a u u0 doc category path create ref :
  query doc category path u0 = (u, q) ->
  SymbolQuery.createMap q = Some create ->
  match SymbolQuery.map q with
  | Some r => Some r
  | None => runCreateMap create category a u
  end = Some ref ->
  mapCategory ref = category /\ mapOwners ref = removelast path
  /\ leadsToMap u ref.
Proof.
  intros Hquery Hcreate Href.
  destruct (query_leads doc category path u0 u q Hquery)
    as (_ & _ & Hmap & Hmembers & Htable).
  destruct (SymbolQuery.map q) as [r|].
  - injection Href as <-. now apply Hmap.
  - destruct create as [stack|table owners]; cbn in Href.
    + specialize (Htable stack Hcreate).
      destruct (tableAt u (getTableRef stack u (data a ≫= Data.visibility)))
        as [table|] eqn:Ht; [|discriminate].
      injection Href as <-. cbn. split; [reflexivity|]. split.
      * destruct path as [|x [|y l]]; try discriminate. reflexivity.
      * exists table. cbn. split; [exact Ht|now left].
    + injection Href as <-. cbn.
      destruct (Hmembers table owners Hcreate) as [-> Hleads].
      split; [reflexivity|]. split; [reflexivity|exact Hleads].
Qed.

(** A query with no path cannot create anything. *)
Lemma query_no_path doc category u u1 q :
  query doc category [] u = (u1, q) -> SymbolQuery.createMap q = None.
Proof.
  destruct (getStack (toUri doc) u) as [u0 stack] eqn:Hget.
  destruct (lookupRefsLoop u0
              (reverse (tableRefs u0
                          (if truthy (toUri doc) then Some stack else None)))
              category [] None None None) as [from result] eqn:Hloop.
  rewrite (query_eq doc category [] u u0 stack from result Hget Hloop).
  intros [= <- <-]. cbn.
  pose proof (lookupRefsLoop_result u0
                (reverse (tableRefs u0
                            (if truthy (toUri doc) then Some stack else None)))
                category [] None None None) as Hres.
  rewrite Hloop, lookupTablesLoop_no_path in Hres. cbn [snd] in Hres.
  now rewrite Hres.
Qed.

(** X24. After [query(doc, category, ...path).enter(addition)] has
    returned, the query holds the entered symbol and a map of the state that
    stores it under the last segment of the path, and the table of that map
    resolves the path to the symbol. *)
Theorem query_enter_stores_symbol
  (doc : DocumentOrUri) (category : string) (path : list string)
  (a : QueryAddition) (u u1 : SymbolUtil) (q : SymbolQuery.t) (w : World) :
  query doc category path u = (u1, q) ->
  enter a (mkWorld q u1) = (w, Returned tt) ->
  exists symbol ref map table,
    SymbolQuery.symbol (this w) = Some symbol
    /\ SymbolQuery.map (this w) = Some ref
    /\ mapAt (util w) ref = Some map
    /\ fst <$> mapGet map (lastOfPath path) = Some symbol
    /\ tableAt (util w) (mapTable ref) = Some table
    /\ LookupResult.symbol (lookupTable table category path) = Some symbol.
Proof.
  intros Hquery Henter.
  destruct (query_leads doc category path u u1 q Hquery)
    as (Hcategory & Hpath & _).
  destruct (enter_returned a q u1 w Henter)
    as (create & ref & map' & st' & symbol & Hcreate & Href & Hrun & ->).
  rewrite Hcategory, Hpath in *.
  destruct (runCreateMap_leads q (enteredAddition q a) u1 u doc category path
              create ref Hquery Hcreate Href)
    as (Hrefcat & Howners & table0 & Htable0 & Hplace).
  pose proof (enterMap_holds _ _ _ _ _ _ _ _ _ _ _ Hrun) as Hheld.
  assert (Hread : mapAt (setMapAt ref map' (setStore st' u1)) ref = Some map').
  { apply (mapAt_setMapAt _ ref map' table0).
    - now rewrite tableAt_setStore.
    - exact Hplace. }
  assert (Htable : tableAt (setMapAt ref map' (setStore st' u1)) (mapTable ref)
                   = Some (setMapInTable table0 (mapCategory ref)
                             (mapOwners ref) map')).
  { unfold setMapAt. rewrite tableAt_setStore, Htable0.
    apply tableAt_setTable. rewrite tableAt_setStore, Htable0. eauto. }
  exists symbol, ref, map',
    (setMapInTable table0 (mapCategory ref) (mapOwners ref) map').
  cbn [this util SymbolQuery.symbol
    SymbolQuery.map SymbolQuery.set_symbol SymbolQuery.set_map].
  split; [reflexivity|]. split; [reflexivity|]. split; [exact Hread|].
  split; [exact Hheld|]. split; [exact Htable|].
  assert (Hne : path <> []).
  { intros ->. rewrite (query_no_path doc category u u1 q Hquery) in Hcreate.
    discriminate. }
  destruct path as [|leaf prefix _] using rev_ind; [congruence|].
  rewrite lastOfPath_snoc in Hheld. rewrite removelast_last in Howners.
  rewrite lookupTable_symbol.
  unfold mapAt in Hread. rewrite Htable in Hread.
  rewrite Hrefcat, Howners in *.
  destruct (descend None
              (dictGet (setMapInTable table0 category prefix map') category)
              prefix) as [[parent [m|]]|]; try discriminate.
  injection Hread as ->. exact Hheld.
Qed.

Lemma query_enter_stores_symbol_witness :
  exists symbol,
    SymbolQuery.symbol
      (this
         (fst (enter (mkQueryAddition declareAddition false)
                 (mkWorld
                    (snd (query (ofDocument fooDocument) "type" ["Foo"]
                            newSymbolUtil))
                    (fst (query (ofDocument fooDocument) "type" ["Foo"]
                            newSymbolUtil))))))
    = Some symbol.
Proof.
  destruct (query_enter_stores_symbol (ofDocument fooDocument) "type" ["Foo"]
              (mkQueryAddition declareAddition false) newSymbolUtil
              (fst (query (ofDocument fooDocument) "type" ["Foo"]
                      newSymbolUtil))
              (snd (query (ofDocument fooDocument) "type" ["Foo"]
                      newSymbolUtil))
              (fst (enter (mkQueryAddition declareAddition false)
                      (mkWorld
                         (snd (query (ofDocument fooDocument) "type" ["Foo"]
                                 newSymbolUtil))
                         (fst (query (ofDocument fooDocument) "type" ["Foo"]
                                 newSymbolUtil)))))
              eq_refl eq_refl)
    as (symbol & _ & _ & _ & Hsymbol & _).
  exists symbol. exact Hsymbol.
Defined.

(** ** Top-level symbols of the global tier *)

Lemma lookupRefsLoop_skip u category path refs :
  forall outer,
    (forall ref, ref ∈ refs ->
       lookupTable (default [] (tableAt u ref)) category path
       = LookupResult.mk None None None) ->
    lookupRefsLoop u (refs ++ outer) category path None None None
    = lookupRefsLoop u outer category path None None None.
Proof.
  induction refs as [|ref refs IH]; intros outer Hnone; [reflexivity|].
  cbn [app lookupRefsLoop].
  rewrite (Hnone ref (list_elem_of_here _ _)). cbn.
  apply IH. intros ref' Hin. now apply Hnone, list_elem_of_further.
Qed.

Lemma inGlobalTable_tier v :
  inGlobalTable v = true -> storageTier v = GlobalTable.
Proof. destruct v as [[]|]; cbn; congruence. Qed.

(** The lookup of [query] for a top-level symbol of a document whose frames
    do not have the category. *)
Lemma lookupRefsLoop_global u stack category identifier :
  (forall frame, frame ∈ stackAt u stack -> dictGet frame category = None) ->
  forall scope,
    scope = Some stack \/ scope = None ->
    lookupRefsLoop u (reverse (tableRefs u scope)) category [identifier]
      None None None
    = (if notNull (dictGet (global u) category) then Some GlobalRef else None,
       lookupTable (global u) category [identifier]).
Proof.
  intros Hframes scope Hscope. unfold tableRefs. rewrite reverse_cons.
  rewrite lookupRefsLoop_skip.
  - cbn [lookupRefsLoop tableAt default from_option id].
    unfold lookupTable. cbn [lookupPath].
    destruct (dictGet (global u) category) as [m|]; cbn; [|reflexivity].
    destruct (mapGet m identifier) as [[s mem]|]; reflexivity.
  - intros ref Hin. rewrite elem_of_reverse in Hin.
    destruct Hscope as [-> | ->]; [|now apply elem_of_nil in Hin].
    apply list_elem_of_fmap in Hin as (i & -> & Hi). cbn [tableAt].
    destruct (stackAt u stack !! i) as [frame|] eqn:Hframe; cbn.
    + unfold lookupTable.
      now rewrite (Hframes frame (list_elem_of_lookup_2 _ _ _ Hframe)).
    + reflexivity.
Qed.

(** X25. For a top-level symbol whose addition has no [Block] or [File]
    visibility, and a document whose stack frames do not have the category,
    [query(doc, category, identifier).enter(addition)] is [enterTable] on
    the global table: it leaves the same [SymbolUtil], completes in the same
    way, and the query then holds the symbol [enterTable] returns. *)
Theorem query_enter_is_enterGlobal
  (doc : TextDocument.t) (category identifier : string) (a : QueryAddition)
  (u u1 : SymbolUtil) (stack : StackRef) :
  getStack (TextDocument.uri doc) u = (u1, stack) ->
  (forall frame, frame ∈ stackAt u1 stack -> dictGet frame category = None) ->
  inGlobalTable (data (addition a) ≫= Data.visibility) = true ->
  let '(u2, q) := query (ofDocument doc) category [identifier] u in
  let '(w, outcome) := enter a (mkWorld q u2) in
  let '(u3, completion) :=
    enterGlobal category identifier (addition a) doc u1 in
  util w = u3
  /\ match completion with
     | Normal symbol =>
         outcome = Returned tt /\ SymbolQuery.symbol (this w) = Some symbol
     | Throw e => outcome = Failed (Raised e)
     end.
Proof.
  intros Hget Hframes Hglobal.
  assert (Hloop :
    lookupRefsLoop u1
      (reverse (tableRefs u1 (if truthy (toUri (ofDocument doc))
                              then Some stack else None)))
      category [identifier] None None None
    = (if notNull (dictGet (global u1) category) then Some GlobalRef else None,
       lookupTable (global u1) category [identifier])).
  { apply (lookupRefsLoop_global u1 stack); [exact Hframes|].
    destruct (truthy _); auto. }
  rewrite (query_eq (ofDocument doc) category [identifier] u u1 stack _ _ Hget
             Hloop).
  cbn [length decide_rel removelast].
  unfold enter, enterGlobal, enterTable.
  cbn [this util SymbolQuery.createMap SymbolQuery.createdWithUri
       SymbolQuery.map SymbolQuery.category SymbolQuery.path SymbolQuery.doc
       SymbolQuery.isUriBinding SymbolQuery.set_map SymbolQuery.set_symbol].
  rewrite decide_True by reflexivity.
  unfold enteredAddition.
  cbn [SymbolQuery.createdWithUri andb runCreateMap].
  unfold getTableRef. rewrite (inGlobalTable_tier _ Hglobal).
  cbn [tableAt].
  assert (Href :
    match
      (if match LookupResult.symbol
                  (lookupTable (global u1) category [identifier]) with
          | Some symbol =>
              isVisible (heap (store u1)) symbol
                (Some (toUri (ofDocument doc)))
          | None => false
          end
       then
         match LookupResult.map (lookupTable (global u1) category [identifier]),
               (if notNull (dictGet (global u1) category)
                then Some GlobalRef else None) with
         | Some _, Some table => Some (mkMapRef table category [])
         | _, _ => None
         end
       else None)
    with
    | Some ref => Some ref
    | None => Some (mkMapRef GlobalRef category [])
    end = Some (mkMapRef GlobalRef category [])).
  { destruct (match LookupResult.symbol _ with Some _ => _ | None => _ end);
      [|reflexivity].
    destruct (LookupResult.map _); [|reflexivity].
    destruct (notNull _); reflexivity. }
  rewrite Href.
  cbn [SymbolQuery.category SymbolQuery.path SymbolQuery.doc
       SymbolQuery.isUriBinding SymbolQuery.set_map].
  unfold mapAt, setMapAt. cbn [mapTable mapCategory mapOwners tableAt descend].
  unfold lastOfPath. cbn [last default from_option id].
  destruct (enterMap (default map_empty (dictGet (global u1) category)) category
              [identifier] identifier (addition a) doc (isUriBinding u1)
              (store u1)) as [[map' st'] [symbol|e]]; cbn; auto.
Qed.

Lemma query_enter_is_enterGlobal_witness :
  util
    (fst (enter (mkQueryAddition declareAddition false)
            (mkWorld
               (snd (query (ofDocument fooDocument) "type" ["Foo"]
                       newSymbolUtil))
               (fst (query (ofDocument fooDocument) "type" ["Foo"]
                       newSymbolUtil)))))
  = fst (enterGlobal "type" "Foo" declareAddition fooDocument
           (fst (getStack "file:///foo.nbtdoc" newSymbolUtil))).
Proof.
  assert (Hframes : forall frame : SymbolTable,
            frame ∈ stackAt (fst (getStack "file:///foo.nbtdoc" newSymbolUtil)) 0 ->
            dictGet frame "type" = None).
  { intros frame Hin. change (frame ∈ [[]]) in Hin.
    apply list_elem_of_singleton in Hin. now subst frame. }
  pose proof (query_enter_is_enterGlobal fooDocument "type" "Foo"
                (mkQueryAddition declareAddition false) newSymbolUtil
                (fst (getStack "file:///foo.nbtdoc" newSymbolUtil)) 0
                eq_refl Hframes eq_refl) as Hsame.
  vm_compute in Hsame. destruct Hsame as [Hutil _].
  vm_compute. exact Hutil.
Defined.

(** ** A query that cannot enter *)

Lemma getStack_global_store uri u :
  global (fst (getStack uri u)) = global u
  /\ store (fst (getStack uri u)) = store u
  /\ isUriBinding (fst (getStack uri u)) = isUriBinding u.
Proof. unfold getStack. destruct (stacks u !! uri); auto. Qed.

(** The result [query] reads is the one [lookup] returns. *)
Lemma query_lookup doc category path u u1 stack from result :
  getStack (toUri doc) u = (u1, stack) ->
  lookupRefsLoop u1
    (reverse (tableRefs u1 (if truthy (toUri doc) then Some stack else None)))
    category path None None None = (from, result) ->
  result = snd (lookup category path (Some (toUri doc)) u).
Proof.
  intros Hget Hloop.
  pose proof (lookupRefs_lookupTables u1
                (if truthy (toUri doc) then Some stack else None)
                category path) as Hres.
  rewrite Hloop in Hres. cbn [snd] in Hres. rewrite Hres.
  unfold lookup. destruct (truthy (toUri doc)).
  - now rewrite Hget.
  - cbn [snd]. pose proof (getStack_global_store (toUri doc) u) as [Hg _].
    rewrite Hget in Hg. cbn [fst] in Hg. now rewrite Hg.
Qed.

(** X26. A query whose path has not exactly one segment, and for which the
    lookup yields no parent symbol (as it does for an empty path, or when the
    symbol that should own the queried one is unknown), cannot enter: [enter]
    throws, and neither the query nor the [SymbolUtil] is changed.  All the
    [query] call itself has done is to register the stack of the document:
    the global table and the symbols are as before. *)
Theorem query_enter_without_parent
  (doc : DocumentOrUri) (category : string) (path : list string)
  (a : QueryAddition) (u u1 : SymbolUtil) (q : SymbolQuery.t) :
  query doc category path u = (u1, q) ->
  length path <> 1 ->
  LookupResult.parentSymbol
    (snd (lookup category path (Some (toUri doc)) u)) = None ->
  enter a (mkWorld q u1) = (mkWorld q u1, Failed (CannotEnter path))
  /\ global u1 = global u /\ store u1 = store u.
Proof.
  destruct (getStack (toUri doc) u) as [u0 stack] eqn:Hget.
  destruct (lookupRefsLoop u0
              (reverse (tableRefs u0
                          (if truthy (toUri doc) then Some stack else None)))
              category path None None None) as [from result] eqn:Hloop.
  rewrite (query_eq doc category path u u0 stack from result Hget Hloop).
  rewrite <- (query_lookup doc category path u u0 stack from result Hget Hloop).
  intros [= <- <-] Hlen Hparent. split.
  - unfold enter. cbn [this SymbolQuery.createMap].
    rewrite decide_False by exact Hlen. now rewrite Hparent.
  - pose proof (getStack_global_store (toUri doc) u) as (Hg & Hs & _).
    rewrite Hget in Hg, Hs. auto.
Qed.

Lemma query_enter_without_parent_witness :
  enter (mkQueryAddition declareAddition false)
    (mkWorld
       (snd (query (ofDocument fooDocument) "type" ["Foo"; "bar"]
               newSymbolUtil))
       (fst (query (ofDocument fooDocument) "type" ["Foo"; "bar"]
               newSymbolUtil)))
  = (mkWorld
       (snd (query (ofDocument fooDocument) "type" ["Foo"; "bar"]
               newSymbolUtil))
       (fst (query (ofDocument fooDocument) "type" ["Foo"; "bar"]
               newSymbolUtil)),
     Failed (CannotEnter ["Foo"; "bar"])).
Proof.
  apply (query_enter_without_parent (ofDocument fooDocument) "type"
           ["Foo"; "bar"] (mkQueryAddition declareAddition false)
           newSymbolUtil).
  - reflexivity.
  - discriminate.
  - reflexivity.
Defined.

(** ** Aliases and queries *)

Lemma resolveAlias_end fuel (h : Heap) s t :
  resolveAlias fuel h s = Some t -> aliasOfAt h t = None.
Proof.
  revert s. induction fuel as [|fuel IH]; intros s; [discriminate|].
  cbn [resolveAlias]. destruct (aliasOfAt h s) as [b|] eqn:Hs; [apply IH|].
  now intros [= <-].
Qed.

Lemma resolveAlias_of_end fuel (h : Heap) t :
  aliasOfAt h t = None -> resolveAlias (S fuel) h t = Some t.
Proof. intros Ht. cbn [resolveAlias]. now rewrite Ht. Qed.

(** [enter] does not read [#symbol]. *)
Lemma enter_ignores_symbol a q u x :
  enter a (mkWorld (SymbolQuery.set_symbol x q) u)
  = match enter a (mkWorld q u) with
    | (w, Returned r) => (w, Returned r)
    | (w, Failed e) =>
        (mkWorld (SymbolQuery.set_symbol x (this w)) (util w), Failed e)
    end.
Proof.
  unfold enter, enteredAddition.
  cbn [this util SymbolQuery.set_symbol SymbolQuery.createMap
       SymbolQuery.createdWithUri SymbolQuery.map SymbolQuery.category
       SymbolQuery.path SymbolQuery.doc SymbolQuery.isUriBinding
       SymbolQuery.set_map SymbolQuery.hasTriggeredIf SymbolQuery.symbol].
  destruct (SymbolQuery.createMap q) as [create|]; [|reflexivity].
  destruct (match SymbolQuery.map q with
            | Some ref => Some ref
            | None => _
            end) as [ref|]; [|reflexivity].
  destruct (enterMap _ _ _ _ _ _ _ _) as [[map' st'] [symbol|e]]; reflexivity.
Qed.

(** X27. [SymbolQuery.resolveAlias] replaces the symbol of the query by the
    symbol its alias chain ends in, which is no alias, and touches nothing
    else: neither the [SymbolUtil] nor the map of the query; resolving again
    changes nothing.  As [enter] does not read the symbol of the query, an
    [enter] after the resolution does what it would have done before it: it
    enters under the path of the query, in the map of the alias, and when it
    returns the query holds the symbol stored there again. *)
Theorem resolveAlias_keeps_place (fuel : nat) (a : QueryAddition)
  (w w1 : World) (s : addr) :
  SymbolQuery.symbol (this w) = Some s ->
  resolveQueryAlias fuel w = (w1, Returned tt) ->
  (exists t,
     resolveAlias fuel (heap (store (util w))) s = Some t
     /\ aliasOfAt (heap (store (util w))) t = None
     /\ w1 = mkWorld (SymbolQuery.set_symbol (Some t) (this w)) (util w))
  /\ resolveQueryAlias fuel w1 = (w1, Returned tt)
  /\ util (fst (enter a w1)) = util (fst (enter a w))
  /\ (forall w2,
        enter a w = (w2, Returned tt) -> enter a w1 = (w2, Returned tt)).
Proof.
  intros Hs. unfold resolveQueryAlias at 1. rewrite Hs.
  destruct (resolveAlias fuel (heap (store (util w))) s) as [t|] eqn:Hrun;
    [|discriminate].
  intros [= <-]. pose proof (resolveAlias_end _ _ _ _ Hrun) as Hend.
  split; [eauto|]. split; [|split].
  - unfold resolveQueryAlias. cbn [this util SymbolQuery.symbol
      SymbolQuery.set_symbol].
    destruct fuel as [|fuel]; [discriminate|].
    rewrite (resolveAlias_of_end fuel _ t Hend). reflexivity.
  - destruct w as [q u]. cbn [this util]. rewrite enter_ignores_symbol.
    now destruct (enter a (mkWorld q u)) as [w2 [r|e]].
  - intros w2 Henter. destruct w as [q u]. cbn [this util] in *.
    now rewrite enter_ignores_symbol, Henter.
Qed.

Lemma resolveAlias_keeps_place_witness :
  exists t,
    resolveAlias 3 aliasChainHeap 2 = Some t /\ aliasOfAt aliasChainHeap t = None.
Proof.
  destruct (resolveAlias_keeps_place 3 (mkQueryAddition emptyAddition false)
              (mkWorld
                 (SymbolQuery.mk "type" ["B"] documentA false None false false
                    None (Some 2))
                 (mkUtil [] ∅ [] (mkStore aliasChainHeap []) false))
              (mkWorld
                 (SymbolQuery.mk "type" ["B"] documentA false None false false
                    None (Some 0))
                 (mkUtil [] ∅ [] (mkStore aliasChainHeap []) false))
              2 eq_refl eq_refl)
    as [(t & Hrun & Hend & _) _].
  exists t. split; [exact Hrun|exact Hend].
Defined.

(** ** The chain [ifDeclared(...).elseEnter(...)] *)

Lemma hasLength_snoc {A} (l : list A) x : hasLength (Some (l ++ [x])) = true.
Proof. now destruct l. Qed.

Lemma amendSymbolUsage_recorded path symbol u0 doc isUriBinding st x :
  heap (amendSymbolUsage path symbol (Some u0) doc isUriBinding st) !! symbol
  = Some x ->
  hasLength (usageGet (usageType u0) x) = true.
Proof.
  unfold amendSymbolUsage, trigger, publish, modifySymbol. cbn [heap].
  rewrite list_lookup_alter_eq.
  destruct (heap st !! symbol) as [x0|]; [|discriminate].
  cbn. intros [= <-]. rewrite usageGet_usageSet, decide_True by reflexivity.
  apply hasLength_snoc.
Qed.

(** An [enter] that returns has recorded the usage of the addition. *)
Lemma enterMap_usage_recorded map category path identifier addition doc
  isUriBinding st map' st' symbol u0 x :
  enterMap map category path identifier addition doc isUriBinding st
  = (map', st', Normal symbol) ->
  usage addition = Some u0 ->
  heap st' !! symbol = Some x ->
  hasLength (usageGet (usageType u0) x) = true.
Proof.
  unfold enterMap. intros Hrun Hu.
  destruct (mapGet map identifier) as [[target members]|].
  - unfold amendSymbol in Hrun.
    destruct (amendSymbolMetadata path target (data addition) st)
      as [st1 [[]|e]]; [|discriminate].
    injection Hrun as _ <- <-. rewrite Hu.
    try unfold trigger at 1. unfold publish at 1. cbn [heap].
    apply amendSymbolUsage_recorded.
  - unfold createSymbol in Hrun. injection Hrun as _ <- <-. rewrite Hu.
    try unfold trigger at 1. unfold publish at 1. cbn [heap].
    apply amendSymbolUsage_recorded.
Qed.

Lemma store_setMapAt ref map u : store (setMapAt ref map u) = store u.
Proof.
  unfold setMapAt. destruct (tableAt u (mapTable ref)); [|reflexivity].
  now destruct (mapTable ref).
Qed.

Lemma enteredAddition_usage q a u0 :
  usage (addition a) = Some u0 ->
  exists u1,
    usage (enteredAddition q a) = Some u1 /\ usageType u1 = usageType u0.
Proof.
  intros Hu. unfold enteredAddition.
  destruct (SymbolQuery.createdWithUri q && usageWithRange a).
  - unfold resetRange. cbn [usage]. rewrite Hu. cbn. eauto.
  - eauto.
Qed.



(** ** Scopes *)

Lemma lookupTables_found_from tables category path s :
  LookupResult.symbol (lookupTables tables category path) = Some s ->
  exists table,
    table ∈ tables
    /\ LookupResult.symbol (lookupTable table category path) = Some s.
Proof.
  unfold lookupTables. rewrite lookupTablesLoop_fresh. cbv zeta.
  destruct (List.find resultFound _) as [r|] eqn:Hfind.
  - apply find_some in Hfind as [Hin _].
    apply in_map_iff in Hin as (table & <- & Hin). intros Hs.
    exists table. split; [|exact Hs].
    apply elem_of_reverse, list_elem_of_In, Hin.
  - destruct (List.find resultHasHandle _); discriminate.
Qed.

Lemma lookupTables_none tables category path table :
  LookupResult.symbol (lookupTables tables category path) = None ->
  table ∈ tables ->
  LookupResult.symbol (lookupTable table category path) = None.
Proof.
  unfold lookupTables. rewrite lookupTablesLoop_fresh. cbv zeta.
  destruct (List.find resultFound _) as [r|] eqn:Hfind.
  - apply find_some in Hfind as [_ Hfound]. unfold resultFound in Hfound.
    intros Hnone. rewrite Hnone in Hfound. discriminate.
  - intros _ Hin.
    pose proof (find_none _ _ Hfind (lookupTable table category path)) as Hnone.
    unfold resultFound in Hnone.
    destruct (LookupResult.symbol (lookupTable table category path));
      [|reflexivity].
    enough (true = false) by discriminate. apply Hnone.
    apply (in_map (fun t => lookupTable t category path)).
    apply list_elem_of_In. now apply elem_of_reverse.
Qed.

Lemma lookupTables_some tables category path table :
  table ∈ tables ->
  is_Some (LookupResult.symbol (lookupTable table category path)) ->
  is_Some (LookupResult.symbol (lookupTables tables category path)).
Proof.
  intros Hin Hfound.
  destruct (LookupResult.symbol (lookupTables tables category path)) eqn:Hs;
    [eauto|].
  rewrite (lookupTables_none _ _ _ table Hs Hin) in Hfound.
  destruct Hfound; discriminate.
Qed.

Lemma getTableRef_valid u stack visibility :
  stackAt u stack <> [] ->
  exists table,
    tableAt u (getTableRef stack u visibility) = Some table
    /\ table ∈ global u :: stackAt u stack
    /\ getTable (stackAt u stack) (global u) visibility = table.
Proof.
  intros Hne. unfold getTableRef, getTable.
  destruct (storageTier visibility); cbn [tableAt].
  - destruct (lookup_lt_is_Some_2 (stackAt u stack)
                (length (stackAt u stack) - 1)) as [frame Hframe].
    { destruct (stackAt u stack); [congruence|cbn; lia]. }
    exists frame. split; [exact Hframe|]. split.
    + apply list_elem_of_further. eapply list_elem_of_lookup_2, Hframe.
    + rewrite last_lookup.
      replace (Init.Nat.pred (length (stackAt u stack)))
        with (length (stackAt u stack) - 1) by lia.
      now rewrite Hframe.
  - destruct (stackAt u stack) as [|frame frames] eqn:Hstack; [congruence|].
    exists frame. split; [reflexivity|]. split; [|reflexivity].
    apply list_elem_of_further, list_elem_of_here.
  - exists (global u). split; [reflexivity|]. split; [|reflexivity].
    apply list_elem_of_here.
Qed.

Lemma lookupTable_leaf table category identifier :
  LookupResult.symbol (lookupTable table category [identifier])
  = fst <$> mapGet (default map_empty (dictGet table category)) identifier.
Proof.
  unfold lookupTable. cbn [lookupPath].
  destruct (dictGet table category) as [m|]; cbn; [|reflexivity].
  now destruct (mapGet m identifier) as [[s mem]|].
Qed.

(** What a table written through a reference changes. *)
Lemma setTable_frames u ref table stack :
  is_Some (tableAt u ref) ->
  stacks (setTable ref table u) = stacks u
  /\ store (setTable ref table u) = store u
  /\ (forall t,
        t ∈ global (setTable ref table u) :: stackAt (setTable ref table u) stack ->
        t = table \/ t ∈ global u :: stackAt u stack)
  /\ (forall r,
        ref <> GlobalRef ->
        (forall i, ref <> FrameRef r i) ->
        stackAt (setTable ref table u) r = stackAt u r)
  /\ (ref <> GlobalRef -> global (setTable ref table u) = global u)
  /\ (ref = GlobalRef -> arrays (setTable ref table u) = arrays u).
Proof.
  intros [old Hold]. destruct ref as [|r0 index]; cbn [setTable tableAt] in *.
  - split; [reflexivity|]. split; [reflexivity|]. split; [|split; [|split]].
    + cbn [global]. unfold stackAt. cbn [arrays]. intros t Ht.
      apply elem_of_cons in Ht as [->|Ht]; [now left|].
      right. now apply list_elem_of_further.
    + congruence.
    + congruence.
    + reflexivity.
  - assert (Hindex : index < length (stackAt u r0))
      by now apply lookup_lt_Some in Hold.
    assert (Hr0 : r0 < length (arrays u)) by (apply stackAt_valid; lia).
    split; [reflexivity|]. split; [reflexivity|]. split; [|split; [|split]].
    + cbn [global setArray]. intros t Ht.
      apply elem_of_cons in Ht as [->|Ht];
        [right; apply list_elem_of_here|].
      destruct (decide (stack = r0)) as [->|Hne].
      * fold (setArray r0 (<[index := table]> (stackAt u r0)) u) in Ht.
        rewrite stackAt_setArray in Ht by exact Hr0.
        apply list_elem_of_lookup_1 in Ht as [j Hj].
        destruct (decide (index = j)) as [->|Hij].
        -- rewrite list_lookup_insert_eq in Hj by exact Hindex. left. congruence.
        -- rewrite list_lookup_insert_ne in Hj by exact Hij. right.
           apply list_elem_of_further. eapply list_elem_of_lookup_2, Hj.
      * right. apply list_elem_of_further.
        unfold stackAt, setArray in Ht |- *. cbn [arrays] in Ht.
        now rewrite list_lookup_insert_ne in Ht by congruence.
    + intros r _ Hr. unfold stackAt, setArray. cbn [arrays].
      rewrite list_lookup_insert_ne; [reflexivity|].
      intros ->. now apply (Hr index).
    + reflexivity.
    + discriminate.
Qed.

Lemma enteredAddition_data q a : data (enteredAddition q a) = data (addition a).
Proof.
  unfold enteredAddition.
  now destruct (SymbolQuery.createdWithUri q && usageWithRange a).
Qed.

Lemma getStack_registered uri u u1 stack :
  getStack uri u = (u1, stack) -> stacks u1 !! uri = Some stack.
Proof.
  unfold getStack. destruct (stacks u !! uri) as [r|] eqn:Hreg.
  - now intros [= <- <-].
  - intros [= <- <-]. cbn [stacks]. apply lookup_insert_eq.
Qed.

Lemma getStack_of_registered uri u stack :
  stacks u !! uri = Some stack -> getStack uri u = (u, stack).
Proof. unfold getStack. now intros ->. Qed.

Lemma getTableRef_cases stack u visibility :
  (getTableRef stack u visibility = GlobalRef
   /\ storageTier visibility = GlobalTable)
  \/ (exists index,
        getTableRef stack u visibility = FrameRef stack index
        /\ storageTier visibility <> GlobalTable).
Proof.
  unfold getTableRef. destruct (storageTier visibility);
    [right|right|left]; eauto; eexists; split; try reflexivity; discriminate.
Qed.

Lemma setTable_length u ref table stack :
  length (stackAt (setTable ref table u) stack) = length (stackAt u stack).
Proof.
  destruct ref as [|r index]; [reflexivity|].
  unfold setTable, setArray, stackAt. cbn [arrays].
  destruct (decide (r = stack)) as [->|Hne].
  - destruct (arrays u !! stack) as [frames|] eqn:Hframes.
    + rewrite list_lookup_insert_eq by now apply lookup_lt_Some in Hframes.
      cbn. now rewrite length_insert.
    + now rewrite list_lookup_insert_ne_None
        || (rewrite (proj2 (lookup_ge_None _ _));
            [reflexivity|rewrite length_insert; now apply lookup_ge_None]).
  - now rewrite list_lookup_insert_ne.
Qed.

Lemma getTableRef_setTable u ref table stack visibility :
  getTableRef stack (setTable ref table u) visibility
  = getTableRef stack u visibility.
Proof. unfold getTableRef. now rewrite setTable_length. Qed.

(** X29. A top-level symbol that the document does not know yet is created
    by [query(doc, category, identifier).enter(addition)] in the table
    [getTable] selects for the visibility of the addition: the innermost
    frame of the stack of the document for [Block], its first frame for
    [File], the global table otherwise.  The query then holds the new symbol,
    and a lookup from the document finds it.  With [Block] or [File] the
    global table and the stack arrays of all other documents are untouched,
    so that no lookup from another document can find the symbol; otherwise
    no stack array is touched. *)
Theorem query_enter_scoped
  (doc : DocumentOrUri) (category identifier : string) (a : QueryAddition)
  (u u1 : SymbolUtil) (stack : StackRef) (q : SymbolQuery.t) :
  getStack (toUri doc) u = (u1, stack) ->
  toUri doc <> "" ->
  stackAt u1 stack <> [] ->
  LookupResult.symbol
    (lookupTables (global u1 :: stackAt u1 stack) category [identifier])
  = None ->
  query doc category [identifier] u = (u1, q) ->
  let visibility := data (addition a) ≫= Data.visibility in
  let symbol := length (heap (store u)) in
  exists w,
    enter a (mkWorld q u1) = (w, Returned tt)
    /\ SymbolQuery.symbol (this w) = Some symbol
    /\ LookupResult.symbol
         (lookupTable
            (getTable (stackAt (util w) stack) (global (util w)) visibility)
            category [identifier]) = Some symbol
    /\ LookupResult.symbol
         (snd (lookup category [identifier] (Some (toUri doc)) (util w)))
       = Some symbol
    /\ stacks (util w) = stacks u1
    /\ (storageTier visibility <> GlobalTable ->
        global (util w) = global u
        /\ forall r, r <> stack -> stackAt (util w) r = stackAt u1 r)
    /\ (storageTier visibility = GlobalTable -> arrays (util w) = arrays u1).
Proof.
  intros Hget Huri Hstack Hunknown Hquery. cbv zeta.
  assert (Htruthy : truthy (toUri doc) = true)
    by (unfold truthy; now rewrite bool_decide_eq_false_2).
  destruct (lookupRefsLoop u1 (reverse (tableRefs u1 (Some stack))) category
              [identifier] None None None) as [from result] eqn:Hloop.
  assert (Hresult : result = lookupTables (global u1 :: stackAt u1 stack)
                               category [identifier]).
  { pose proof (lookupRefs_lookupTables u1 (Some stack) category [identifier])
      as H. now rewrite Hloop in H. }
  pose proof (query_eq doc category [identifier] u u1 stack from result Hget)
    as Hq.
  rewrite Htruthy in Hq. specialize (Hq Hloop).
  rewrite Hq in Hquery. injection Hquery as <-.
  rewrite Hresult, Hunknown. clear Hq Hloop Hresult from result.
  destruct (getTableRef_valid u1 stack (data (addition a) ≫= Data.visibility)
              Hstack) as (table & Htable & Hin & _).
  pose proof (lookupTables_none _ _ _ table Hunknown Hin) as Hnone.
  rewrite lookupTable_leaf in Hnone.
  set (visibility := data (addition a) ≫= Data.visibility) in *.
  set (ref := getTableRef stack u1 visibility) in *.
  set (map0 := default map_empty (dictGet table category)) in *.
  assert (Hget0 : mapGet map0 identifier = None)
    by (destruct (mapGet map0 identifier); [discriminate|reflexivity]).
  pose proof (getStack_global_store (toUri doc) u) as (Hglobal & Hstore & _).
  rewrite Hget in Hglobal, Hstore. cbn [fst] in Hglobal, Hstore.
  set (q := SymbolQuery.mk _ _ _ _ _ _ _ _ _).
  assert (Hrun : exists st',
    enter a (mkWorld q u1)
    = (mkWorld
         (SymbolQuery.set_symbol (Some (length (heap (store u))))
            (SymbolQuery.set_map (Some (mkMapRef ref category [])) q))
         (setTable ref
            (dictSet table category
               (mapSet map0 identifier (length (heap (store u)))))
            (setStore st' u1)),
       Returned tt)).
  { unfold enter. cbn [this util]. subst q.
    cbn [SymbolQuery.createMap SymbolQuery.map SymbolQuery.category
         SymbolQuery.path SymbolQuery.doc SymbolQuery.isUriBinding
         SymbolQuery.set_map runCreateMap].
    rewrite enteredAddition_data. fold visibility. fold ref. rewrite Htable.
    unfold mapAt. cbn [mapTable mapCategory mapOwners descend].
    rewrite Htable. fold map0.
    unfold lastOfPath, enterMap. cbn [last]. cbn [default from_option id].
    rewrite Hget0. unfold createSymbol. rewrite Hstore.
    eexists. unfold setMapAt. cbn [mapTable mapCategory mapOwners].
    rewrite tableAt_setStore, Htable. cbn [setMapInTable]. reflexivity. }
  destruct Hrun as [st' Hrun]. eexists. split; [exact Hrun|].
  cbn [this util SymbolQuery.symbol SymbolQuery.set_symbol].
  set (table' := dictSet table category
                   (mapSet map0 identifier (length (heap (store u))))).
  set (u' := setTable ref table' (setStore st' u1)).
  assert (Hvalid : is_Some (tableAt (setStore st' u1) ref))
    by (rewrite tableAt_setStore, Htable; eauto).
  assert (Htable' : tableAt u' ref = Some table')
    by now apply tableAt_setTable.
  assert (Hfound : LookupResult.symbol (lookupTable table' category [identifier])
                   = Some (length (heap (store u)))).
  { rewrite lookupTable_leaf. subst table'. rewrite dictGet_dictSet_eq.
    cbn [default from_option id]. now rewrite mapGet_mapSet_new. }
  assert (Hstack' : stackAt u' stack <> []).
  { intros Hnil. apply Hstack.
    pose proof (setTable_length (setStore st' u1) ref table' stack) as Hlen.
    fold u' in Hlen. rewrite Hnil in Hlen.
    change (stackAt (setStore st' u1) stack) with (stackAt u1 stack) in Hlen.
    destruct (stackAt u1 stack); [reflexivity|discriminate]. }
  destruct (getTableRef_valid u' stack visibility Hstack')
    as (table'' & Htable'' & Hin' & HgetTable').
  assert (Hsame : table'' = table').
  { subst u'. rewrite getTableRef_setTable in Htable''.
    change (getTableRef stack (setStore st' u1) visibility) with ref in Htable''.
    congruence. }
  rewrite Hsame in HgetTable', Hin'. clear Hsame Htable''.
  destruct (setTable_frames (setStore st' u1) ref table' stack Hvalid)
    as (Hstacks & _ & Hframes & Hother & Hglobal' & Harrays).
  fold u' in Hstacks, Hframes, Hother, Hglobal', Harrays.
  split; [reflexivity|]. split; [now rewrite HgetTable'|].
  split; [|split; [exact Hstacks|split]].
  - unfold lookup. rewrite Htruthy.
    rewrite (getStack_of_registered (toUri doc) u' stack)
      by (rewrite Hstacks; exact (getStack_registered _ _ _ _ Hget)).
    cbn [snd].
    destruct (lookupTables_some (global u' :: stackAt u' stack) category
                [identifier] table' Hin') as [s Hs];
      [rewrite Hfound; eauto|].
    rewrite Hs.
    destruct (lookupTables_found_from _ _ _ _ Hs) as (t & Ht & Hts).
    destruct (Hframes t Ht) as [->|Hold]; [congruence|].
    change (global (setStore st' u1)) with (global u1) in Hold.
    change (stackAt (setStore st' u1) stack) with (stackAt u1 stack) in Hold.
    rewrite (lookupTables_none _ _ _ t Hunknown Hold) in Hts. discriminate.
  - intros Htier.
    destruct (getTableRef_cases stack u1 visibility)
      as [[_ Hg]|(index & Hindex & _)]; [contradiction|].
    fold ref in Hindex. split.
    + rewrite Hglobal' by (rewrite Hindex; discriminate).
      exact Hglobal.
    + intros r Hr. apply Hother; rewrite Hindex; [discriminate|].
      intros i. congruence.
  - intros Htier.
    destruct (getTableRef_cases stack u1 visibility)
      as [[Hg _]|(index & _ & Hne)]; [|contradiction].
    fold ref in Hg. now apply Harrays.
Qed.

Lemma query_enter_scoped_witness :
  exists w,
    enter (mkQueryAddition fileAddition false)
      (mkWorld
         (snd (query (ofDocument fooDocument) "type" ["Foo"] newSymbolUtil))
         (fst (query (ofDocument fooDocument) "type" ["Foo"] newSymbolUtil)))
    = (w, Returned tt)
    /\ LookupResult.symbol
         (snd (lookup "type" ["Foo"] (Some "file:///foo.nbtdoc") (util w)))
       = Some 0
    /\ global (util w) = [].
Proof.
  pose proof (query_enter_scoped (ofDocument fooDocument) "type" "Foo"
                (mkQueryAddition fileAddition false) newSymbolUtil
                (fst (query (ofDocument fooDocument) "type" ["Foo"]
                        newSymbolUtil))
                0
                (snd (query (ofDocument fooDocument) "type" ["Foo"]
                        newSymbolUtil))
                eq_refl) as Hscoped.
  cbv zeta in Hscoped.
  destruct Hscoped as (w & Hrun & _ & _ & Hlookup & _ & Hframe & _);
    [discriminate|discriminate|reflexivity|reflexivity|].
  exists w. split; [exact Hrun|]. split; [exact Hlookup|].
  apply Hframe. discriminate.
Defined.

(** * The nbtdoc checker *)


